(** * The linkable-image node, link attachment and upload pipeline of the editor

    A shallow embedding of [src/editor.tsx] (the editor component, its drop
    and paste handlers, its link policy, and the [customImage] node
    extension that follows it in the same file) and of the image and link
    handlers of [src/menu-bar.tsx].

    JavaScript objects are finite maps from property names to values;
    the document engine (tiptap over ProseMirror) is modelled at the
    interface the source calls, each such definition being marked
    "engine". *)

From Stdlib Require Import ZArith String Ascii List Lia DecimalString Sorted.
From stdpp Require Import base option list strings gmap fin_maps.

Open Scope string_scope.
#[local] Set Warnings "-register-all,-clear-no-such-hyp".

(** ** JavaScript values *)

Module Js.

(** A number: an integer that a double holds exactly, or any other number
    (a fraction, an integer beyond those, an infinity, NaN), which is kept
    as its [String()], a text that is never empty. *)
Inductive number :=
| Int (n : Z)
| Double (repr : string).

(** The values that reach a node attribute or a rendered HTML attribute. *)
Inductive value :=
| VUndefined
| VNull
| VBool (b : bool)
| VStr (s : string)
| VNum (n : Z)
| VDouble (repr : string).

Definition of_number (x : number) : value :=
  match x with
  | Int n => VNum n
  | Double repr => VDouble repr
  end.

#[global] Instance value_eq_dec : EqDecision value.
Proof. solve_decision. Defined.

(** An object: property name to value; a property that is not there reads
    as [undefined]. *)
Abbreviation obj := (gmap string value).

Definition get (o : obj) (k : string) : value := default VUndefined (o !! k).

(** [!!v], the truthiness of a value. *)
Definition truthy (v : value) : bool :=
  match v with
  | VUndefined | VNull => false
  | VBool b => b
  | VStr s => negb (String.eqb s EmptyString)
  | VNum n => negb (n =? 0)%Z
  | VDouble repr => negb (String.eqb repr "NaN" || String.eqb repr EmptyString)
  end.

(** [v == null], true of [null] and [undefined] only. *)
Definition is_nullish (v : value) : bool :=
  match v with
  | VUndefined | VNull => true
  | _ => false
  end.

(** [String(v)] on the values that are not nullish. *)
Definition to_string (v : value) : string :=
  match v with
  | VUndefined => "undefined"
  | VNull => "null"
  | VBool b => if b then "true" else "false"
  | VStr s => s
  | VNum n => NilZero.string_of_int (Z.to_int n)
  | VDouble repr => repr
  end.

(** [a || b]. *)
Definition or_else (a b : value) : value := if truthy a then a else b.

End Js.
Import Js.

(** ** The DOM, as far as parse rules and the serializer see it *)

Module Dom.

Inductive node :=
| Element (tagName : string) (attributes : gmap string string) (childNodes : list node)
| Text (data : string).

(** [el.getAttribute(name)]: the attribute's string, or [null]. *)
Definition getAttribute (el : node) (name : string) : value :=
  match el with
  | Element _ a _ =>
      match a !! name with
      | Some s => VStr s
      | None => VNull
      end
  | Text _ => VNull
  end.

Definition tag_is (el : node) (t : string) : bool :=
  match el with
  | Element t' _ _ => String.eqb t' t
  | Text _ => false
  end.

Definition has_attribute (el : node) (name : string) : bool :=
  match el with
  | Element _ a _ => bool_decide (is_Some (a !! name))
  | Text _ => false
  end.

(** The CSS selectors the parse rules use: a compound selector is a
    conjunction of simple tests on one element, and [SDescendant a c] is
    the descendant combinator "a c". *)
Inductive simple_selector :=
| STag (t : string)                      (* t *)
| SHasAttr (name : string)               (* [name] *)
| SNotAttrPrefix (name prefix : string). (* :not([name^="prefix"]) *)

Definition matches_simple (el : node) (s : simple_selector) : bool :=
  match s with
  | STag t => tag_is el t
  | SHasAttr name => has_attribute el name
  | SNotAttrPrefix name p =>
      match getAttribute el name with
      | VStr v => negb (String.prefix p v)
      | _ => true
      end
  end.

Definition matches_compound (el : node) (c : list simple_selector) : bool :=
  forallb (matches_simple el) c.

Inductive selector :=
| SCompound (c : list simple_selector)
| SDescendant (anc c : list simple_selector).

(** [el.matches(sel)], [ancestors] being the chain of parents of [el],
    nearest first. *)
Definition matches (ancestors : list node) (el : node) (sel : selector) : bool :=
  match sel with
  | SCompound c => matches_compound el c
  | SDescendant anc c =>
      matches_compound el c && existsb (fun a => matches_compound a anc) ancestors
  end.

End Dom.

(** ** Regular expressions, as the literals of the source and of the engine need them *)

Module Regex.

(** The progress of a match: what has been consumed of the input, what is
    left of it, and the capture groups set so far. *)
Record mstate := {
  consumed : string;
  rest : string;
  groups : gmap nat string;
}.

Inductive re :=
| Eps
| Chr (p : ascii -> bool)        (* one character of a class *)
| Seq (a b : re)
| Alt (a b : re)                 (* a|b, a tried first *)
| Star (a : re)                  (* a*, greedy *)
| Group (i : nat) (a : re)       (* the i-th capturing group *)
| Bol                            (* ^, without the m flag *)
| Eol.                           (* $, without the m flag *)

Definition Plus (a : re) : re := Seq a (Star a).
Definition Opt (a : re) : re := Alt a Eps.

Fixpoint Lit (s : string) : re :=
  match s with
  | EmptyString => Eps
  | String c s' => Seq (Chr (Ascii.eqb c)) (Lit s')
  end.

(** The string [m] with [pre ++ m = full], for a capture. *)
Fixpoint drop_prefix (n : nat) (s : string) : string :=
  match n, s with
  | O, _ => s
  | S n', String _ s' => drop_prefix n' s'
  | S _, EmptyString => EmptyString
  end.

(** Greedy iteration: every way of matching [a] once more and going on,
    longest first, then stopping here. An iteration that consumes nothing
    is not taken. *)
Fixpoint star_loop (step : mstate -> list mstate) (fuel : nat) (s : mstate)
    : list mstate :=
  match fuel with
  | O => [s]
  | S fuel' =>
      (flat_map
         (fun s' =>
            if (String.length (rest s') <? String.length (rest s))%nat
            then star_loop step fuel' s'
            else [])
         (step s) ++ [s])%list
  end.

(** All the ways [r] matches at [s], in the order a backtracking matcher
    tries them. *)
Fixpoint run (r : re) (s : mstate) : list mstate :=
  match r with
  | Eps => [s]
  | Chr p =>
      match rest s with
      | String c tl =>
          if p c
          then [{| consumed := consumed s +:+ String c EmptyString;
                   rest := tl; groups := groups s |}]
          else []
      | EmptyString => []
      end
  | Seq a b => flat_map (run b) (run a s)
  | Alt a b => (run a s ++ run b s)%list
  | Star a => star_loop (run a) (String.length (rest s)) s
  | Group i a =>
      map (fun s' =>
             {| consumed := consumed s'; rest := rest s';
                groups := <[ i := drop_prefix (String.length (consumed s)) (consumed s') ]>
                            (groups s') |})
          (run a s)
  | Bol => match consumed s with EmptyString => [s] | _ => [] end
  | Eol => match rest s with EmptyString => [s] | _ => [] end
  end.

(** The result of [exec]: the index of the match, the matched text and the
    groups that took part. *)
Record rmatch := {
  index : nat;
  matched : string;
  captures : gmap nat string;
}.

(** [re.exec(input)] without the g or y flag: the leftmost start at which
    the pattern matches, and there the first match in priority order. *)
Fixpoint exec_from (r : re) (before after : string) (fuel : nat) : option rmatch :=
  match run r {| consumed := before; rest := after; groups := ∅ |} with
  | s' :: _ =>
      Some {| index := String.length before;
              matched := drop_prefix (String.length before) (consumed s');
              captures := groups s' |}
  | [] =>
      match fuel, after with
      | S fuel', String c tl => exec_from r (before +:+ String c EmptyString) tl fuel'
      | _, _ => None
      end
  end.

Definition exec (r : re) (input : string) : option rmatch :=
  exec_from r EmptyString input (String.length input).

(** [re.test(input)]. *)
Definition test (r : re) (input : string) : bool :=
  match exec r input with Some _ => true | None => false end.

(** [match[i]]: the group's text, or [undefined] when it took no part. *)
Definition group (m : rmatch) (i : nat) : value :=
  match captures m !! i with
  | Some s => VStr s
  | None => VUndefined
  end.

(** Character classes. [.] is every character but a line terminator;
    [\s] is the white space of the one-byte range. *)
Definition is_line_terminator (c : ascii) : bool :=
  (nat_of_ascii c =? 10)%nat || (nat_of_ascii c =? 13)%nat.

Definition dot (c : ascii) : bool := negb (is_line_terminator c).

Definition space (c : ascii) : bool :=
  let n := nat_of_ascii c in
  (n =? 9)%nat || (n =? 10)%nat || (n =? 11)%nat || (n =? 12)%nat ||
  (n =? 13)%nat || (n =? 32)%nat || (n =? 160)%nat.

Definition non_space (c : ascii) : bool := negb (space c).

(** The double quote and the single quote. *)
Definition dquote : ascii := ascii_of_nat 34.
Definition squote : ascii := ascii_of_nat 39.

Definition quote_char (c : ascii) : bool := Ascii.eqb c dquote || Ascii.eqb c squote.

End Regex.

(** ** The document engine: schema attributes, rendering and parsing *)

Module Engine.

(** One entry of an extension's [addAttributes()]. *)
Record AttributeSpec := {
  attr_default : value;
  attr_parseHTML : option (Dom.node -> value);
  attr_renderHTML : option (obj -> obj);
}.

(** engine: [mergeAttributes(a, b)]. A key of [b] replaces the same key of
    [a]; the engine joins the values of the keys [class] and [style]
    instead, which no caller below passes on the right. *)
Definition mergeAttributes (a b : obj) : obj := b ∪ a.

(** engine: the [HTMLAttributes] handed to a node's [renderHTML]: every
    schema attribute rendered by its own [renderHTML] when it has one, and as
    [{name: attrs[name]}] otherwise, merged in schema order. *)
Definition getRenderedAttributes
    (schema : list (string * AttributeSpec)) (attrs : obj) : obj :=
  fold_left
    (fun acc '(name, spec) =>
       mergeAttributes acc
         match attr_renderHTML spec with
         | Some f => f attrs
         | None => {[ name := get attrs name ]}
         end)
    schema ∅.

(** engine: a node's attributes are computed from the given object, a
    property that is [undefined] taking the schema default. *)
Definition computeAttrs
    (schema : list (string * AttributeSpec)) (given : obj) : obj :=
  list_to_map
    (map (fun '(name, spec) =>
            (name, match get given name with
                   | VUndefined => attr_default spec
                   | v => v
                   end))
         schema).

(** The array form of a render result: [[tag, attrs, ...children]]. *)
Inductive DOMOutputSpec :=
| Spec (tag : string) (attrs : obj) (children : list DOMOutputSpec).

(** engine: the DOM serializer sets an attribute for every property whose
    value is not nullish. *)
Definition render_attribute (v : value) : option string :=
  if is_nullish v then None else Some (to_string v).

Fixpoint renderSpec (s : DOMOutputSpec) : Dom.node :=
  match s with
  | Spec tag attrs children =>
      Dom.Element tag (omap render_attribute attrs) (map renderSpec children)
  end.

(** A parse rule: the selector of [tag] and [getAttrs]. *)
Record ParseRule := {
  rule_tag : Dom.selector;
  rule_getAttrs : option Dom.node -> Dom.node -> obj;
}.

Definition is_sign (c : ascii) : bool :=
  Ascii.eqb c "+"%char || Ascii.eqb c "-"%char.

Definition is_decimal_digit (c : ascii) : bool :=
  let n := nat_of_ascii c in ((48 <=? n) && (n <=? 57))%nat.

(** engine: [/^[+-]?(?:\d*\.)?\d+$/], the texts [fromString] takes for
    numbers. *)
Definition numberRegex : Regex.re :=
  Regex.Seq Regex.Bol
    (Regex.Seq (Regex.Opt (Regex.Chr is_sign))
    (Regex.Seq (Regex.Opt (Regex.Seq (Regex.Star (Regex.Chr is_decimal_digit))
                                     (Regex.Lit ".")))
    (Regex.Seq (Regex.Plus (Regex.Chr is_decimal_digit)) Regex.Eol))).

Section Reader.

(** platform: [Number(s)], on a text of the form above. *)
Variable Number : string -> number.

(** engine: [fromString(value)], the reader of the attributes that declare
    no [parseHTML]: numeric text becomes a number, [true] and [false]
    become booleans, anything else stays. *)
Definition fromString (v : value) : value :=
  match v with
  | VStr s =>
      if Regex.test numberRegex s then of_number (Number s)
      else if String.eqb s "true" then VBool true
      else if String.eqb s "false" then VBool false
      else v
  | _ => v
  end.

(** engine: a rule's [getAttrs] is completed from the schema attributes:
    each is read by its [parseHTML] hook, or by [fromString] from the
    element's attribute of the same name when it declares none, and what
    is read replaces the rule's own value unless it is nullish. *)
Definition injectExtensionAttributes
    (schema : list (string * AttributeSpec)) (r : ParseRule)
    (parent : option Dom.node) (el : Dom.node) : obj :=
  let oldAttributes := rule_getAttrs r parent el in
  let newAttributes :=
    fold_left
      (fun items '(name, spec) =>
         let v := match attr_parseHTML spec with
                  | Some hook => hook el
                  | None => fromString (Dom.getAttribute el name)
                  end in
         if is_nullish v then items else <[ name := v ]> items)
      schema (∅ : obj) in
  newAttributes ∪ oldAttributes.

(** engine: rules are tried in order and the first whose selector matches
    the element gives the node. *)
Fixpoint matchTag (schema : list (string * AttributeSpec)) (rules : list ParseRule)
    (ancestors : list Dom.node) (el : Dom.node) : option obj :=
  match rules with
  | [] => None
  | r :: rest =>
      if Dom.matches ancestors el (rule_tag r)
      then Some (computeAttrs schema
                   (injectExtensionAttributes schema r (head ancestors) el))
      else matchTag schema rest ancestors el
  end.

(** engine: the parser walks the DOM; an element that a rule of the (leaf)
    node type matches becomes one node and is not entered, any other
    element is entered. The result lists the attribute sets of the nodes
    of this type, in document order. The rules of the other extensions are
    not part of it: the marks an enclosing element gives a node (the link
    mark of an anchor) are not in the result. *)
Fixpoint parseDOM (schema : list (string * AttributeSpec)) (rules : list ParseRule)
    (ancestors : list Dom.node) (d : Dom.node) : list obj :=
  match d with
  | Dom.Text _ => []
  | Dom.Element _ _ children =>
      match matchTag schema rules ancestors d with
      | Some a => [a]
      | None =>
          (fix all (l : list Dom.node) : list obj :=
             match l with
             | [] => []
             | c :: l' => (parseDOM schema rules (d :: ancestors) c ++ all l')%list
             end) children
      end
  end.

End Reader.

(** A stand-in for the platform's [Number] where a concrete one is needed:
    exact on the texts that are a sign and digits and whose value a double
    holds exactly; any other text is kept as it is. *)
Fixpoint decimal_value (s : string) (acc : Z) : option Z :=
  match s with
  | EmptyString => Some acc
  | String c s' =>
      if is_decimal_digit c
      then decimal_value s' (10 * acc + Z.of_nat (nat_of_ascii c - 48))%Z
      else None
  end.

Definition decimalNumber (s : string) : number :=
  let '(negative, digits) :=
    match s with
    | String c s' =>
        if Ascii.eqb c "-"%char then (true, s')
        else if Ascii.eqb c "+"%char then (false, s')
        else (false, s)
    | EmptyString => (false, s)
    end in
  match decimal_value digits 0 with
  | Some n => if (n <=? 2 ^ 53)%Z then Int (if negative then (- n)%Z else n) else Double s
  | None => Double s
  end.

End Engine.

(** ** The [customImage] node extension *)

Module CustomImage.
Import Engine.

Record CustomImageOptions := {
  inline : bool;
  allowBase64 : bool;
  HTMLAttributes : gmap string string;
}.

Definition addOptions : CustomImageOptions :=
  {| inline := true; allowBase64 := false; HTMLAttributes := ∅ |}.

Definition name : string := "customImage".

(** The [renderHTML] of [width], [height] and [href]: nothing when the
    attribute is falsy. *)
Definition render_if_set (k : string) (attributes : obj) : obj :=
  if negb (truthy (get attributes k)) then ∅ else {[ k := get attributes k ]}.

Definition addAttributes : list (string * AttributeSpec) :=
  [ ("src",    {| attr_default := VNull; attr_parseHTML := None; attr_renderHTML := None |});
    ("alt",    {| attr_default := VNull; attr_parseHTML := None; attr_renderHTML := None |});
    ("title",  {| attr_default := VNull; attr_parseHTML := None; attr_renderHTML := None |});
    ("width",  {| attr_default := VNull;
                  attr_parseHTML := Some (fun element => Dom.getAttribute element "width");
                  attr_renderHTML := Some (render_if_set "width") |});
    ("height", {| attr_default := VNull;
                  attr_parseHTML := Some (fun element => Dom.getAttribute element "height");
                  attr_renderHTML := Some (render_if_set "height") |});
    ("href",   {| attr_default := VNull;
                  attr_parseHTML := Some (fun element => Dom.getAttribute element "href");
                  attr_renderHTML := Some (render_if_set "href") |}) ].

(** The first rule, ["a[href] img[src]"]. *)
Definition anchor_image_rule : ParseRule :=
  {| rule_tag :=
       Dom.SDescendant [Dom.STag "a"; Dom.SHasAttr "href"]
                       [Dom.STag "img"; Dom.SHasAttr "src"];
     rule_getAttrs := fun parent img =>
       {[ "src" := Dom.getAttribute img "src";
          "href" := match parent with
                    | Some p => Dom.getAttribute p "href"
                    | None => VNull
                    end;
          "alt" := Dom.getAttribute img "alt";
          "title" := Dom.getAttribute img "title";
          "width" := Dom.getAttribute img "width";
          "height" := Dom.getAttribute img "height" ]} |}.

(** The second rule, ["img[src]"], or ['img[src]:not([src^="data:"])'] when
    base64 sources are not allowed. *)
Definition bare_image_rule (options : CustomImageOptions) : ParseRule :=
  {| rule_tag :=
       if allowBase64 options
       then Dom.SCompound [Dom.STag "img"; Dom.SHasAttr "src"]
       else Dom.SCompound [Dom.STag "img"; Dom.SHasAttr "src";
                           Dom.SNotAttrPrefix "src" "data:"];
     rule_getAttrs := fun _ img =>
       {[ "src" := Dom.getAttribute img "src";
          "href" := VNull;
          "alt" := Dom.getAttribute img "alt";
          "title" := Dom.getAttribute img "title";
          "width" := Dom.getAttribute img "width";
          "height" := Dom.getAttribute img "height" ]} |}.

Definition parseHTML (options : CustomImageOptions) : list ParseRule :=
  [ anchor_image_rule; bare_image_rule options ].

Definition renderHTML (options : CustomImageOptions) (HTMLAttrs : obj) : DOMOutputSpec :=
  let href := get HTMLAttrs "href" in
  let imgAttributes := delete "href" HTMLAttrs in
  let mergedImgAttributes :=
    mergeAttributes (VStr <$> HTMLAttributes options) imgAttributes in
  if truthy href
  then Spec "a" {[ "href" := href ]} [Spec "img" mergedImgAttributes []]
  else Spec "img" mergedImgAttributes [].

(** A node of this type, made from the given attributes. *)
Definition create (given : obj) : obj := computeAttrs addAttributes given.

(** Serialization of one node: the engine renders the schema attributes,
    the extension builds the output spec, the engine turns it into DOM. *)
Definition serialize (options : CustomImageOptions) (attrs : obj) : Dom.node :=
  renderSpec (renderHTML options (getRenderedAttributes addAttributes attrs)).

(** Parsing of one HTML fragment into the nodes of this type it holds. *)
Definition parse (Number : string -> number) (options : CustomImageOptions)
    (fragment : Dom.node) : list obj :=
  parseDOM Number addAttributes (parseHTML options) [] fragment.

End CustomImage.


(** ** The inline shorthand of the [customImage] extension *)

Module InputRule.
Import Regex.

(** [/(?:^|\s)(!\[(.+|:?)]\((\S+)(?:(?:\s+)["'](\S+)["'])?\))$/] *)
Definition inputRegex : re :=
  Seq (Alt Bol (Chr space))
   (Seq (Group 1
      (Seq (Lit "![")
      (Seq (Group 2 (Alt (Plus (Chr dot)) (Opt (Lit ":"))))
      (Seq (Lit "](")
      (Seq (Group 3 (Plus (Chr non_space)))
      (Seq (Opt (Seq (Plus (Chr space))
                (Seq (Chr quote_char)
                (Seq (Group 4 (Plus (Chr non_space)))
                     (Chr quote_char)))))
           (Lit ")")))))))
    Eol).

(** [getAttributes] of the input rule: [const [, , alt, src, title] = match]. *)
Definition getAttributes (m : rmatch) : obj :=
  let alt := group m 2 in
  let src := group m 3 in
  let title := group m 4 in
  {[ "src" := src; "alt" := alt; "title" := title ]}.

(** engine: [nodeInputRule] runs the pattern on the text before the cursor
    and, on a match, replaces it by a node made from [getAttributes]. *)
Definition addInputRules (textBefore : string) : option obj :=
  match exec inputRegex textBefore with
  | Some m => Some (CustomImage.create (getAttributes m))
  | None => None
  end.

End InputRule.

(** ** The link policy of the editor's [Link] configuration *)

Module LinkPolicy.

(** The two fields the policy reads of a parsed URL. *)
Record URL := {
  protocol : string;
  hostname : string;
}.

Record LinkProtocolOptions := {
  scheme : string;
  optionalSlashes : bool;
}.

(** The context the engine hands to [isAllowedUri]. *)
Record Ctx := {
  defaultProtocol : string;
  protocols : list (string + LinkProtocolOptions);
}.

(** [list.includes(x)] on strings. *)
Definition includes (l : list string) (x : string) : bool :=
  existsb (String.eqb x) l.

(** [s.includes(sub)]. *)
Definition str_includes (s sub : string) : bool :=
  match String.index 0 sub s with
  | Some _ => true
  | None => false
  end.

(** [s.replace(":", "")]: the first colon removed. *)
Fixpoint remove_first_colon (s : string) : string :=
  match s with
  | EmptyString => EmptyString
  | String c s' =>
      if Ascii.eqb c ":"%char then s' else String c (remove_first_colon s')
  end.

Definition disallowedProtocols : list string := ["ftp"; "file"; "mailto"].
Definition disallowedDomains : list string :=
  ["example-phishing.com"; "malicious-site.net"].
Definition noAutoLinkDomains : list string :=
  ["example-no-autolink.com"; "another-no-autolink.com"].

Section WithURL.

(** The platform's [new URL(s)]: the parsed URL, or [None] when it throws. *)
Variable newURL : string -> option URL.

Definition isAllowedUri (url : string) (ctx : Ctx) : bool :=
  match (if str_includes url ":"
         then newURL url
         else newURL (defaultProtocol ctx +:+ "://" +:+ url)) with
  | Some parsedUrl =>
      let protocol := remove_first_colon (protocol parsedUrl) in
      if includes disallowedProtocols protocol then false
      else
        let allowedProtocols :=
          map (fun p => match p with inl s => s | inr o => scheme o end)
              (protocols ctx) in
        if negb (includes allowedProtocols protocol) then false
        else
          let domain := hostname parsedUrl in
          if includes disallowedDomains domain then false
          else true
  | None => false
  end.

Definition shouldAutoLink (url : string) : bool :=
  match (if str_includes url ":"
         then newURL url
         else newURL ("https://" +:+ url)) with
  | Some parsedUrl =>
      let domain := hostname parsedUrl in
      negb (includes noAutoLinkDomains domain)
  | None => false
  end.

End WithURL.

(** The [Link.configure] of the editor. *)
Definition linkContext : Ctx :=
  {| defaultProtocol := "https"; protocols := [inl "http"; inl "https"] |}.

(** A stand-in for the platform's URL parser on plain [scheme:rest] and
    [scheme://host/path] inputs, ASCII only: the scheme is the text before
    the first colon (a letter, then letters, digits, [+], [-] or [.]), put
    in lower case; after [//] the host runs to the first of [/ ? # :], also
    in lower case. It stands for [newURL] where a concrete parser is needed. *)
Definition lower (c : ascii) : ascii :=
  let n := nat_of_ascii c in
  if ((65 <=? n) && (n <=? 90))%nat then ascii_of_nat (n + 32) else c.

Definition is_alpha (c : ascii) : bool :=
  let n := nat_of_ascii (lower c) in ((97 <=? n) && (n <=? 122))%nat.

Definition is_scheme_char (c : ascii) : bool :=
  let n := nat_of_ascii c in
  is_alpha c || ((48 <=? n) && (n <=? 57))%nat ||
  Ascii.eqb c "+"%char || Ascii.eqb c "-"%char || Ascii.eqb c "."%char.

Fixpoint map_string (f : ascii -> ascii) (s : string) : string :=
  match s with
  | EmptyString => EmptyString
  | String c s' => String (f c) (map_string f s')
  end.

Fixpoint forall_string (p : ascii -> bool) (s : string) : bool :=
  match s with
  | EmptyString => true
  | String c s' => p c && forall_string p s'
  end.

Fixpoint take_until (stop : ascii -> bool) (s : string) : string :=
  match s with
  | EmptyString => EmptyString
  | String c s' => if stop c then EmptyString else String c (take_until stop s')
  end.

Definition host_end (c : ascii) : bool :=
  Ascii.eqb c "/"%char || Ascii.eqb c "?"%char || Ascii.eqb c "#"%char ||
  Ascii.eqb c ":"%char.

Definition special_schemes : list string := ["http"; "https"; "ftp"; "ws"; "wss"].

Definition simpleURL (s : string) : option URL :=
  match String.index 0 ":" s with
  | None => None
  | Some i =>
      let sch := String.substring 0 i s in
      let after := String.substring (i + 1) (String.length s - (i + 1)) s in
      match sch with
      | EmptyString => None
      | String c _ =>
          if is_alpha c && forall_string is_scheme_char sch then
            let sch := map_string lower sch in
            if String.prefix "//" after then
              let host := map_string lower
                            (take_until host_end
                               (String.substring 2 (String.length after - 2) after)) in
              if includes special_schemes sch && String.eqb host EmptyString
              then None
              else Some {| protocol := sch +:+ ":"; hostname := host |}
            else if includes special_schemes sch then None
            else Some {| protocol := sch +:+ ":"; hostname := EmptyString |}
          else None
      end
  end.

End LinkPolicy.

(** ** Files, notifications and the effects of the handlers *)

Module Effects.

(** A [File]: its name and its declared content type. *)
Record File := {
  file_name : string;
  file_type : string;
}.

Definition acceptedTypes : list string := ["image/jpeg"; "image/png"; "image/gif"].

(** [acceptedTypes.includes(file.type)]. *)
Definition accepted (file : File) : bool :=
  existsb (String.eqb (file_type file)) acceptedTypes.

(** What a handler does to the world, in order. Console output is not
    recorded. *)
Inductive effect :=
| ToastError (msg : string)         (* toast.error(msg) *)
| ToastSuccess (msg : string)       (* toast.success(msg) *)
| PreventDefault                    (* event.preventDefault() *)
| ReadSelection (pos : Z)           (* view.state.selection.from is read *)
| UploadFile (file : File)          (* uploadFile(file, ...) is called *)
| Dispatch (pos : Z) (node : obj)   (* view.dispatch(view.state.tr.insert(pos, node)) *)
| SetIsUploading (b : bool)         (* setIsUploading(b) *)
| SetImage (options : obj)          (* editor.chain().focus().setImage(options).run() *)
| ResetFileInput.                   (* fileInputRef.current.value = "" *)

(** How the promise of [uploadFile] settles. *)
Inductive outcome :=
| Resolved (fileUrl : string)
| Rejected.

Definition dq : string := String (ascii_of_nat 34) EmptyString.

End Effects.

(** ** The drop and paste handlers of the editor *)

Module Upload.
Import Effects.

(** One accepted file on its way: the file and the position its
    continuation closed over. *)
Record UploadTask := {
  task_file : File;
  task_pos : Z;
}.

(** What a handler leaves behind when it returns: its result, its effects,
    and the uploads it started. *)
Record Handled := {
  returned : bool;
  effects : list effect;
  pending : list UploadTask;
}.

Definition dropWarning : string :=
  "Please Drop only valid image files (JPEG, PNG, or GIF)".
Definition pasteWarning : string :=
  "Please paste only valid image files (JPEG, PNG, or GIF).".

Definition uploadedMessage (file : File) : string :=
  "Image " +:+ dq +:+ file_name file +:+ dq +:+ " uploaded successfully!".
Definition failedMessage (file : File) : string :=
  "Failed to upload image " +:+ dq +:+ file_name file +:+ dq +:+ ".".

Section View.

(** engine: the editor view. [selection_from] is [view.state.selection.from];
    [insert st pos node] is the state after
    [view.dispatch(st.tr.insert(pos, node))], or [None] when the engine
    throws. *)
Variable EditorState : Type.
Variable selection_from : EditorState -> Z.
Variable insert : EditorState -> Z -> obj -> option EditorState.

(** The body that [handleDrop] and [handlePaste] share; they differ in the
    text of the warning (and in what they write to the console). [files] is
    [event.dataTransfer.files], respectively [event.clipboardData.files],
    empty when any part of that chain is missing. *)
Definition handleFiles (warning : string) (state : EditorState) (files : list File)
    : Handled :=
  if (length files =? 0)%nat
  then {| returned := false; effects := []; pending := [] |}
  else
    let imageFiles := List.filter accepted files in
    let invalidFiles := List.filter (fun file => negb (accepted file)) files in
    let warned :=
      if (0 <? length invalidFiles)%nat then [ToastError warning] else [] in
    if (0 <? length invalidFiles)%nat && (length imageFiles =? 0)%nat
    then {| returned := false; effects := warned; pending := [] |}
    else if (length imageFiles =? 0)%nat
    then {| returned := false; effects := warned; pending := [] |}
    else
      let pos := selection_from state in
      {| returned := true;
         effects := (warned ++ [PreventDefault; ReadSelection pos]
                       ++ map UploadFile imageFiles)%list;
         pending := map (fun file => {| task_file := file; task_pos := pos |})
                        imageFiles |}.

Definition handleDrop : EditorState -> list File -> Handled := handleFiles dropWarning.
Definition handlePaste : EditorState -> list File -> Handled := handleFiles pasteWarning.

(** The continuation of one upload, run on the state the view has when the
    promise settles: [.then] makes the node and dispatches its insertion at
    the position closed over; [.catch] reports the failure, also the one of
    an insertion that throws. *)
Definition settle (task : UploadTask) (o : outcome) (state : EditorState)
    : EditorState * list effect :=
  match o with
  | Resolved fileUrl =>
      let node := CustomImage.create {[ "src" := VStr fileUrl ]} in
      match insert state (task_pos task) node with
      | Some state' =>
          (state', [Dispatch (task_pos task) node;
                    ToastSuccess (uploadedMessage (task_file task))])
      | None => (state, [ToastError (failedMessage (task_file task))])
      end
  | Rejected => (state, [ToastError (failedMessage (task_file task))])
  end.

(** What happens after the handler has returned: uploads settle, in any
    order, and the document may be edited in between. *)
Inductive event :=
| Settle (i : nat) (o : outcome)   (* the upload of the i-th accepted file settles *)
| Edit (state : EditorState).      (* anything else replaces the view's state *)

(** The event loop: a promise settles once, so a second settlement of the
    same upload, or one of an upload that was never started, does nothing. *)
Fixpoint run (tasks : list UploadTask) (settled : list nat) (events : list event)
    (state : EditorState) : EditorState * list effect :=
  match events with
  | [] => (state, [])
  | Edit state' :: events' => run tasks settled events' state'
  | Settle i o :: events' =>
      match tasks !! i with
      | Some task =>
          if bool_decide (i ∈ settled)
          then run tasks settled events' state
          else
            let '(state1, effects1) := settle task o state in
            let '(state2, effects2) := run tasks (i :: settled) events' state1 in
            (state2, (effects1 ++ effects2)%list)
      | None => run tasks settled events' state
      end
  end.

End View.

Arguments handleFiles {EditorState} selection_from warning state files.
Arguments handleDrop {EditorState} selection_from state files.
Arguments handlePaste {EditorState} selection_from state files.
Arguments settle {EditorState} insert task o state.
Arguments Settle {EditorState} i o.
Arguments Edit {EditorState} state.
Arguments run {EditorState} insert tasks settled events state.

End Upload.

(** ** The image button of the menu bar *)

Module ImageButton.
Import Effects.

Definition invalidMessage : string :=
  "Please select a valid image file (JPEG, PNG, or GIF).".
Definition failedMessage : string :=
  "Failed to upload image. Please try again.".

(** [handleFileChange] up to its [await]: the effects so far and the file
    whose upload is awaited, if any. [editor] tells whether the editor is
    there; [files] is [event.target.files]. *)
Definition handleFileChange (editor : bool) (files : list File)
    : list effect * option File :=
  match head files with
  | None => ([], None)
  | Some file =>
      if negb editor then ([], None)
      else if negb (accepted file)
      then ([ToastError invalidMessage], None)
      else ([SetIsUploading true; UploadFile file], Some file)
  end.

(** [handleFileChange] after its [await]: [try], [catch] and [finally]. *)
Definition handleFileChange_resume (o : outcome) : list effect :=
  (match o with
   | Resolved fileUrl =>
       [SetImage {[ "src" := VStr fileUrl;
                    "width" := VUndefined;
                    "height" := VUndefined ]}]
   | Rejected => [ToastError failedMessage]
   end ++ [SetIsUploading false; ResetFileInput])%list.

(** The whole gesture, given how the upload settles. *)
Definition gesture (editor : bool) (files : list File) (o : outcome) : list effect :=
  match handleFileChange editor files with
  | (effects, Some _) => (effects ++ handleFileChange_resume o)%list
  | (effects, None) => effects
  end.

(** [setImage(options)]: the node it has [insertContent] make. *)
Definition setImage_node (options : obj) : obj := CustomImage.create options.

End ImageButton.

(** ** The document tree and its range query *)

Module Doc.

(** A node of the document: a text, a leaf node, or a node with content. *)
Inductive pmnode :=
| PText (text : string)
| PLeaf (name : string) (attrs : obj)
| PBranch (name : string) (attrs : obj) (content : list pmnode).

(** [node.type.name]. *)
Definition type_name (n : pmnode) : string :=
  match n with
  | PText _ => "text"
  | PLeaf name _ => name
  | PBranch name _ _ => name
  end.

(** [node.attrs]. *)
Definition node_attrs (n : pmnode) : obj :=
  match n with
  | PText _ => ∅
  | PLeaf _ a => a
  | PBranch _ a _ => a
  end.

(** engine: [node.nodeSize]: the length of a text, 1 for a leaf, and the
    size of the content plus the two tokens of an open node. *)
Fixpoint nodeSize (n : pmnode) : Z :=
  match n with
  | PText s => Z.of_nat (String.length s)
  | PLeaf _ _ => 1
  | PBranch _ _ c =>
      2 + (fix size (l : list pmnode) : Z :=
             match l with
             | [] => 0
             | x :: l' => nodeSize x + size l'
             end) c
  end%Z.

(** engine: [fragment.size]. *)
Fixpoint fragment_size (l : list pmnode) : Z :=
  match l with
  | [] => 0
  | x :: l' => nodeSize x + fragment_size l'
  end%Z.

(** engine: [node.content]. *)
Definition node_content (n : pmnode) : list pmnode :=
  match n with
  | PBranch _ _ c => c
  | _ => []
  end.

(** engine: [node.content.size]. *)
Definition content_size (n : pmnode) : Z := fragment_size (node_content n).

(** Induction over a node and, through [Forall], its content. *)
Section PmnodeInd.
Variable P : pmnode -> Prop.
Hypothesis Htext : forall s, P (PText s).
Hypothesis Hleaf : forall name a, P (PLeaf name a).
Hypothesis Hbranch : forall name a c, Forall P c -> P (PBranch name a c).

Fixpoint pmnode_nested_ind (n : pmnode) : P n :=
  match n with
  | PText s => Htext s
  | PLeaf name a => Hleaf name a
  | PBranch name a c =>
      Hbranch name a c
        ((fix all (l : list pmnode) : Forall P l :=
            match l with
            | [] => @List.Forall_nil _ P
            | x :: l' => @List.Forall_cons _ P x l' (pmnode_nested_ind x) (all l')
            end) c)
  end.
End PmnodeInd.

Section NodesBetween.

(** The callback with the variables it assigns: [f n pos st] is the state
    of those variables after the call, and whether the call returned
    something other than [false]. *)
Context {St : Type}.
Variable f : pmnode -> Z -> St -> St * bool.

(** engine: [n.content.nodesBetween(from, to, f, nodeStart)]. The loop
    runs while [pos < to]; reading a child past the last one throws, which
    is [None]. *)
Fixpoint nodesBetween (n : pmnode) (from to nodeStart : Z) (st : St) : option St :=
  match n with
  | PText _ | PLeaf _ _ => if (0 <? to)%Z then None else Some st
  | PBranch _ _ c =>
      (fix loop (l : list pmnode) (pos : Z) (st : St) : option St :=
         if (pos <? to)%Z then
           match l with
           | [] => None
           | child :: l' =>
               let end_ := (pos + nodeSize child)%Z in
               if (from <? end_)%Z then
                 let '(st1, descend) := f child (nodeStart + pos)%Z st in
                 if descend && negb (content_size child =? 0)%Z then
                   let start := (pos + 1)%Z in
                   match nodesBetween child
                           (Z.max 0 (from - start))
                           (Z.min (content_size child) (to - start))
                           (nodeStart + start)%Z st1 with
                   | Some st2 => loop l' end_ st2
                   | None => None
                   end
                 else loop l' end_ st1
               else loop l' end_ st
           end
         else Some st) c 0%Z st
  end.

End NodesBetween.

(** engine: [doc.nodeAt(pos)], the node that starts at [pos] (or the text
    that holds it), if there is one. *)
Fixpoint nodeAt (n : pmnode) (pos : Z) : option pmnode :=
  match n with
  | PText _ | PLeaf _ _ => None
  | PBranch _ _ c =>
      (fix find (l : list pmnode) (pos : Z) : option pmnode :=
         match l with
         | [] => None
         | child :: l' =>
             if (pos <? 0)%Z then None
             else if (pos <? nodeSize child)%Z then
               if (pos =? 0)%Z then Some child
               else match child with
                    | PText _ => Some child
                    | _ => nodeAt child (pos - 1)
                    end
             else find l' (pos - nodeSize child)%Z
         end) c pos
  end.

(** engine: [tr.setNodeMarkup(pos, undefined, attrs)]: the node that starts
    at [pos] with its attributes replaced, type and content kept; [None]
    when no node starts at [pos]. *)
Fixpoint setNodeMarkup (n : pmnode) (pos : Z) (attrs : obj) : option pmnode :=
  match n with
  | PText _ | PLeaf _ _ => None
  | PBranch t a c =>
      option_map (PBranch t a)
        ((fix change (l : list pmnode) (pos : Z) : option (list pmnode) :=
            match l with
            | [] => None
            | child :: l' =>
                if (pos <? 0)%Z then None
                else if (pos <? nodeSize child)%Z then
                  match child with
                  | PText _ => None
                  | PLeaf ct _ =>
                      if (pos =? 0)%Z then Some (PLeaf ct attrs :: l') else None
                  | PBranch ct _ cc =>
                      if (pos =? 0)%Z then Some (PBranch ct attrs cc :: l')
                      else option_map (fun child' => child' :: l')
                             (setNodeMarkup child (pos - 1) attrs)
                  end
                else option_map (cons child) (change l' (pos - nodeSize child)%Z)
            end) c pos)
  end.

(** The nodes of type [customImage] that a range query can reach in the
    content of [n], each with its position, in document order; [start] is
    the position at which the content of [n] begins. This is what "the
    media nodes of the document" means below. *)
Definition is_image (n : pmnode) : bool := String.eqb (type_name n) "customImage".

Fixpoint images (n : pmnode) (start : Z) : list (pmnode * Z) :=
  match n with
  | PText _ | PLeaf _ _ => []
  | PBranch _ _ c =>
      (fix go (l : list pmnode) (pos : Z) : list (pmnode * Z) :=
         match l with
         | [] => []
         | child :: l' =>
             ((if is_image child then [(child, start + pos)]
               else images child (start + pos + 1))
              ++ go l' (pos + nodeSize child))%list
         end%Z) c 0%Z
  end.

(** A node at [p] touches the range from [from] to [to]: it starts before
    [to] and ends after [from]. *)
Definition touches (from to : Z) (x : pmnode * Z) : bool :=
  ((snd x <? to) && (from <? snd x + nodeSize (fst x)))%Z.

(** The media nodes in the range. *)
Definition images_between (doc : pmnode) (from to : Z) : list (pmnode * Z) :=
  List.filter (touches from to) (images doc 0).

End Doc.

(** ** The link button of the menu bar *)

Module LinkButton.
Import Doc Regex.

(** What the handlers read of the editor: the document, the selection, and
    [editor.getAttributes("link").href]. *)
Record Editor := {
  doc : pmnode;
  selection_from : Z;
  selection_to : Z;
  link_href : value;
}.

(** The dialog's state. *)
Record Dialog := {
  linkUrl : value;
  isLinkDialogOpen : bool;
  linkError : option string;
}.

(** The variables [node] and [pos] of the handlers, both [null] at first. *)
Definition found := option (pmnode * Z).

(** The callback the three handlers pass to [nodesBetween]. *)
Definition findImage (n : pmnode) (p : Z) (st : found) : found * bool :=
  if String.eqb (type_name n) "customImage"
  then (Some (n, p), false)
  else (st, true).

(** [editor.state.doc.nodesBetween($from.pos, $to.pos, ...)] and the
    variables after it. *)
Definition scan (editor : Editor) : option found :=
  nodesBetween findImage (doc editor)
    (selection_from editor) (selection_to editor) 0 None.

(** [setLink]: the dialog it opens; [None] when the scan throws. *)
Definition setLink (editor : Editor) (dialog : Dialog) : option Dialog :=
  match scan editor with
  | Some (Some (currentNode, _)) =>
      let currentHref := or_else (get (node_attrs currentNode) "href") (VStr EmptyString) in
      Some {| linkUrl := currentHref; isLinkDialogOpen := true;
              linkError := linkError dialog |}
  | Some None =>
      let previousUrl := or_else (link_href editor) (VStr EmptyString) in
      Some {| linkUrl := previousUrl; isLinkDialogOpen := true;
              linkError := linkError dialog |}
  | None => None
  end.

(** [/^https?:\/\/.+$/] *)
Definition urlRegex : re :=
  Seq Bol
   (Seq (Lit "http")
   (Seq (Opt (Lit "s"))
   (Seq (Lit "://")
   (Seq (Plus (Chr dot)) Eol)))).

(** What a handler asks of the editor. *)
Inductive command :=
| SetNodeMarkup (pos : Z) (attrs : obj)   (* tr.setNodeMarkup(pos, undefined, attrs) *)
| UnsetLink                               (* extendMarkRange("link").unsetLink() *)
| SetLinkMark (href : value).             (* extendMarkRange("link").setLink({ href }) *)

Definition urlError : string :=
  "Please enter a valid URL (e.g., https://example.com)".

Definition closed : Dialog :=
  {| linkUrl := VStr EmptyString; isLinkDialogOpen := false; linkError := None |}.

(** [handleSaveLink]: the dialog after it and the command it ran, if any;
    [None] when the scan throws. *)
Definition handleSaveLink (editor : Editor) (dialog : Dialog)
    : option (Dialog * option command) :=
  if truthy (linkUrl dialog) && negb (test urlRegex (to_string (linkUrl dialog)))
  then Some ({| linkUrl := linkUrl dialog;
                isLinkDialogOpen := isLinkDialogOpen dialog;
                linkError := Some urlError |}, None)
  else
    match scan editor with
    | Some (Some (currentNode, pos)) =>
        let newAttrs :=
          <[ "href" := or_else (linkUrl dialog) VNull ]> (node_attrs currentNode) in
        Some (closed, Some (SetNodeMarkup pos newAttrs))
    | Some None =>
        if bool_decide (linkUrl dialog = VStr EmptyString)
        then Some (closed, Some UnsetLink)
        else Some (closed, Some (SetLinkMark (linkUrl dialog)))
    | None => None
    end.

(** [unsetLink]: the command it runs; [None] when the scan throws. *)
Definition unsetLink (editor : Editor) : option command :=
  match scan editor with
  | Some (Some (currentNode, pos)) =>
      let newAttrs := <[ "href" := VNull ]> (node_attrs currentNode) in
      Some (SetNodeMarkup pos newAttrs)
  | Some None => Some UnsetLink
  | None => None
  end.

(** engine: the document after a command; a link mark does not change what
    this model keeps of the document. *)
Definition apply (c : command) (d : pmnode) : option pmnode :=
  match c with
  | SetNodeMarkup pos attrs => setNodeMarkup d pos attrs
  | UnsetLink | SetLinkMark _ => Some d
  end.

End LinkButton.

(** ** The video dialog of the menu bar *)

Module VideoButton.
Import Regex.

(** [a{n}]. *)
Fixpoint Repeat (n : nat) (a : re) : re :=
  match n with
  | O => Eps
  | S n' => Seq a (Repeat n' a)
  end.

(** [[A-Za-z0-9_-]]. *)
Definition id_char (c : ascii) : bool :=
  let n := nat_of_ascii c in
  ((65 <=? n) && (n <=? 90))%nat || ((97 <=? n) && (n <=? 122))%nat ||
  ((48 <=? n) && (n <=? 57))%nat || Ascii.eqb c "_"%char || Ascii.eqb c "-"%char.

(** [/^(https?:\/\/)?(www\.)?(youtube\.com|youtu\.be)\/(watch\?v=)?([A-Za-z0-9_-]{11})/] *)
Definition youtubeRegex : re :=
  Seq Bol
   (Seq (Opt (Group 1 (Seq (Lit "http") (Seq (Opt (Lit "s")) (Lit "://")))))
   (Seq (Opt (Group 2 (Lit "www.")))
   (Seq (Group 3 (Alt (Lit "youtube.com") (Lit "youtu.be")))
   (Seq (Lit "/")
   (Seq (Opt (Group 4 (Lit "watch?v=")))
        (Group 5 (Repeat 11 (Chr id_char)))))))).

Definition is_digit (c : ascii) : bool :=
  let n := nat_of_ascii c in ((48 <=? n) && (n <=? 57))%nat.

(** The value of a run of decimal digits after [acc], and whether there was
    a digit at all. *)
Fixpoint digits (s : string) (acc : Z) (seen : bool) : Z * bool :=
  match s with
  | String c s' =>
      if is_digit c
      then digits s' (10 * acc + Z.of_nat (nat_of_ascii c - 48))%Z true
      else (acc, seen)
  | EmptyString => (acc, seen)
  end.

Fixpoint skip_space (s : string) : string :=
  match s with
  | String c s' => if space c then skip_space s' else s
  | EmptyString => s
  end.

(** A number as [parseInt] and [Math.max] give it here: [NaN], an integer
    that a double holds exactly, or a number beyond those, of which only
    the sign is kept. *)
Inductive num :=
| NaN
| Exact (n : Z)
| Beyond (negative : bool).

(** [parseInt(s, 10)]: leading white space, a sign, then the longest run
    of digits. *)
Definition parseInt (s : string) : num :=
  let s := skip_space s in
  let '(negative, s) :=
    match s with
    | String c s' =>
        if Ascii.eqb c "-"%char then (true, s')
        else if Ascii.eqb c "+"%char then (false, s')
        else (false, s)
    | EmptyString => (false, s)
    end in
  match digits s 0 false with
  | (n, true) =>
      if (n <=? 2 ^ 53)%Z then Exact (if negative then (- n)%Z else n)
      else Beyond negative
  | (_, false) => NaN
  end.

(** [Math.max(low, x)], [low] being an integer held exactly. *)
Definition max_with (low : Z) (x : num) : num :=
  match x with
  | NaN => NaN
  | Exact n => Exact (Z.max low n)
  | Beyond true => Exact low
  | Beyond false => Beyond false
  end.

(** [x || fallback]: NaN and 0 are falsy. *)
Definition or_fallback (x : num) (fallback : Z) : num :=
  match x with
  | NaN => Exact fallback
  | Exact n => if (n =? 0)%Z then Exact fallback else x
  | Beyond _ => x
  end.

(** [Math.max(low, parseInt(s, 10)) || fallback]. *)
Definition dimension (low fallback : Z) (s : string) : num :=
  or_fallback (max_with low (parseInt s)) fallback.

(** The state of the video dialog. *)
Record VideoDialog := {
  isVideoDialogOpen : bool;
  videoUrl : string;
  height : string;
  width : string;
  videoError : option string;
}.

(** The options of [editor.commands.setYoutubeVideo({ src, width, height })]. *)
Record YoutubeVideo := {
  video_src : string;
  video_width : num;
  video_height : num;
}.

Definition videoUrlError : string :=
  "Please enter a valid YouTube URL (e.g., https://www.youtube.com/watch?v=VIDEO_ID)".

Definition openVideoDialog (d : VideoDialog) : VideoDialog :=
  {| isVideoDialogOpen := true; videoUrl := EmptyString;
     height := "240"; width := "300"; videoError := videoError d |}.

Section Command.

(** engine: [editor.commands.setYoutubeVideo(options)]: what it returns, or
    [None] when it throws. *)
Variable setYoutubeVideo : YoutubeVideo -> option bool.

(** [handleSaveVideo]: the dialog after it and the options it called the
    command with, if it did. [editor] tells whether the editor is there.
    The handler does not catch: when the command throws, what follows the
    call does not run. *)
Definition handleSaveVideo (editor : bool) (d : VideoDialog)
    : VideoDialog * option YoutubeVideo :=
  if negb editor || String.eqb (videoUrl d) EmptyString then (d, None)
  else if negb (test youtubeRegex (videoUrl d))
  then ({| isVideoDialogOpen := isVideoDialogOpen d; videoUrl := videoUrl d;
           height := height d; width := width d;
           videoError := Some videoUrlError |}, None)
  else
    let widthNum := dimension 320 640 (width d) in
    let heightNum := dimension 180 480 (height d) in
    let options := {| video_src := videoUrl d; video_width := widthNum;
                      video_height := heightNum |} in
    match setYoutubeVideo options with
    | Some _ =>
        ({| isVideoDialogOpen := false; videoUrl := EmptyString;
            height := height d; width := width d; videoError := videoError d |},
         Some options)
    | None => (d, Some options)
    end.

End Command.

Definition handleCancelVideo (d : VideoDialog) : VideoDialog :=
  {| isVideoDialogOpen := false; videoUrl := EmptyString;
     height := height d; width := width d; videoError := videoError d |}.

(** The [onChange] of the dialog's URL field:
    [setVideoUrl(e.target.value); setVideoError(null)]. *)
Definition changeVideoUrl (d : VideoDialog) (v : string) : VideoDialog :=
  {| isVideoDialogOpen := isVideoDialogOpen d; videoUrl := v;
     height := height d; width := width d; videoError := None |}.

End VideoButton.

(** ** Definitions used to state the properties *)

Module Spec.
Import Engine CustomImage.

(** What [getRenderedAttributes] holds for each key. *)
Definition rendered_spec (attrs : obj) (k : string) : option value :=
  if decide (k = "src") then Some (get attrs k)
  else if decide (k = "alt") then Some (get attrs k)
  else if decide (k = "title") then Some (get attrs k)
  else if decide (k = "width") then (if truthy (get attrs k) then Some (get attrs k) else None)
  else if decide (k = "height") then (if truthy (get attrs k) then Some (get attrs k) else None)
  else if decide (k = "href") then (if truthy (get attrs k) then Some (get attrs k) else None)
  else None.

(** The attributes of the [img] element a node serializes to. *)
Definition img_attributes (options : CustomImageOptions) (attrs : obj) : gmap string string :=
  omap render_attribute
    (mergeAttributes (VStr <$> HTMLAttributes options)
       (delete "href" (getRenderedAttributes addAttributes attrs))).

(** An attribute read back from the DOM. *)
Definition attr_value (o : option string) : value :=
  match o with Some s => VStr s | None => VNull end.

(** A node whose [alt] is numeric text. *)
Definition numeric_alt_node : obj :=
  create {[ "src" := VStr "u.png"; "alt" := VStr "007" ]}.

(** A node with a link and a width that are empty strings. *)
Definition empty_href_node : obj :=
  create {[ "src" := VStr "u.png"; "href" := VStr EmptyString;
            "width" := VStr EmptyString ]}.

(** A node whose source is a base64 [data:] URL. *)
Definition base64_node : obj :=
  create {[ "src" := VStr "data:image/png;base64,AAAA" ]}.

Import Doc LinkButton.

(** The variables [node] and [pos] after a scan that met the given media
    nodes in this order. *)
Definition pick (hits : list (pmnode * Z)) (st : found) : found :=
  fold_left (fun _ x => Some x) hits st.

(** A node with its attributes replaced. *)
Definition set_attrs (m : pmnode) (attrs : obj) : pmnode :=
  match m with
  | PText s => PText s
  | PLeaf name _ => PLeaf name attrs
  | PBranch name _ c => PBranch name attrs c
  end.

(** A paragraph holding a text, an image and a text; a selection over all
    three; a dialog holding a URL. *)
Definition example_doc : pmnode :=
  PBranch "doc" ∅
    [ PBranch "paragraph" ∅
        [ PText "ab";
          PLeaf "customImage" (CustomImage.create {[ "src" := VStr "a.png" ]});
          PText "cd" ] ].

Definition example_editor : Editor :=
  {| doc := example_doc; selection_from := 2; selection_to := 5;
     link_href := VUndefined |}.

Definition example_dialog : Dialog :=
  {| linkUrl := VStr "https://example.com"; isLinkDialogOpen := true;
     linkError := None |}.

Import Effects Upload.

(** The position is read once, and before every upload. *)
Definition reads_once_before_uploads (pos : Z) (effs : list effect) : Prop :=
  exists before uploads,
    effs = (before ++ ReadSelection pos :: uploads)%list /\
    (forall e, In e before -> (forall p, e <> ReadSelection p) /\ (forall f, e <> UploadFile f)) /\
    (forall e, In e uploads -> exists f, e = UploadFile f).

(** Nothing reads the selection, and every insertion is at [pos]. *)
Definition inserts_only_at (pos : Z) (effs : list effect) : Prop :=
  forall e, In e effs ->
    (forall p, e <> ReadSelection p) /\ (forall p node, e = Dispatch p node -> p = pos).

Definition is_toast_error (e : effect) : bool :=
  match e with ToastError _ => true | _ => false end.

Definition is_dispatch (e : effect) : bool :=
  match e with Dispatch _ _ => true | _ => false end.

(** A view whose state is the selection alone; an insertion moves it on. *)
Definition toy_insert (st : Z) (pos : Z) (node : obj) : option Z := Some (st + 1)%Z.

Definition png : File := {| file_name := "a.png"; file_type := "image/png" |}.
Definition txt : File := {| file_name := "b.txt"; file_type := "text/plain" |}.

(** Every started upload inserts at [pos] when it resolves: its
    continuation dispatches the node made of the returned URL at [pos],
    from whatever state the view has by then, and in a schedule its first
    settlement does so whatever came before and comes after. *)
Definition inserts_at_captured {EditorState : Type}
    (insert : EditorState -> Z -> obj -> option EditorState)
    (pos : Z) (tasks : list UploadTask) (state : EditorState) : Prop :=
  (forall task fileUrl st st',
     In task tasks ->
     insert st pos (CustomImage.create {[ "src" := VStr fileUrl ]}) = Some st' ->
     settle insert task (Resolved fileUrl) st =
       (st', [Dispatch pos (CustomImage.create {[ "src" := VStr fileUrl ]});
              ToastSuccess (uploadedMessage (task_file task))])) /\
  (forall i task fileUrl pre post st',
     tasks !! i = Some task ->
     (forall o, ~ In (Settle i o) pre) ->
     insert (fst (run insert tasks [] pre state)) pos
            (CustomImage.create {[ "src" := VStr fileUrl ]}) = Some st' ->
     In (Dispatch pos (CustomImage.create {[ "src" := VStr fileUrl ]}))
        (snd (run insert tasks [] (pre ++ Settle i (Resolved fileUrl) :: post) state))).

(** What C8 says of one handler's result [h], [warning] being its text. *)
Definition rejected_batch_semantics {EditorState : Type}
    (selection_from : EditorState -> Z)
    (insert : EditorState -> Z -> obj -> option EditorState)
    (state : EditorState) (files : list File) (warning : string) (h : Handled) : Prop :=
  (* one warning, whatever the number of rejected files *)
  List.filter is_toast_error (effects h) = [ToastError warning] /\
  (* all rejected: the warning and nothing else, now or later *)
  ((forall file, In file files -> accepted file = false) ->
   h = {| returned := false; effects := [ToastError warning]; pending := [] |} /\
   forall events st, snd (run insert (pending h) [] events st) = []) /\
  (* some accepted: every accepted file is uploaded, and inserted when its
     upload resolves and the engine takes the insertion *)
  ((exists file, In file files /\ accepted file = true) ->
   returned h = true /\
   map task_file (pending h) = List.filter accepted files /\
   List.filter (fun e => match e with UploadFile _ => true | _ => false end) (effects h)
     = map UploadFile (List.filter accepted files) /\
   forall i task fileUrl st st',
     pending h !! i = Some task ->
     insert st (task_pos task) (CustomImage.create {[ "src" := VStr fileUrl ]}) = Some st' ->
     run insert (pending h) [] [Settle i (Resolved fileUrl)] st =
       (st', [Dispatch (selection_from state) (CustomImage.create {[ "src" := VStr fileUrl ]});
              ToastSuccess (uploadedMessage (task_file task))])).

Import LinkPolicy.

(** The text [isAllowedUri] hands to the URL parser. *)
Definition parsed_text (url : string) (ctx : Ctx) : string :=
  if str_includes url ":" then url else defaultProtocol ctx +:+ "://" +:+ url.

(** The protocol of a parsed URL without its colon. *)
Definition scheme_of (u : URL) : string := remove_first_colon (protocol u).

(** The schemes the caller allows. *)
Definition allowed_schemes (ctx : Ctx) : list string :=
  map (fun p => match p with inl s => s | inr o => scheme o end) (protocols ctx).

Import Regex InputRule.

(** Every character of [s] is in the class [p]. *)
Fixpoint every (p : ascii -> bool) (s : string) : bool :=
  match s with
  | EmptyString => true
  | String c s' => p c && every p s'
  end.

(** The state reached from [s] by consuming [m], with [r] left and the
    groups [g]. *)
Definition after_ (s : mstate) (m r : string) (g : gmap nat string) : mstate :=
  {| consumed := consumed s +:+ m; rest := r; groups := g |}.

(** [realizes r Phi]: the matches of [r] are exactly the ways of consuming
    a text [m] and turning the groups [g] into [g'] with [Phi m g g']. *)
Definition realizes (r : re)
    (Phi : string -> gmap nat string -> gmap nat string -> Prop) : Prop :=
  forall s s',
    In s' (run r s) <->
    exists m r' g', Phi m (groups s) g' /\ rest s = m +:+ r' /\ s' = after_ s m r' g'.

(** The optional title: nothing, or white space, a quote, a run of
    non-space characters and a quote. *)
Definition title_part (tp : string) (title : option string) : Prop :=
  (tp = EmptyString /\ title = None) \/
  exists ws q t q',
    tp = ws +:+ String q (t +:+ String q' EmptyString) /\
    ws <> EmptyString /\ every space ws = true /\
    quote_char q = true /\ quote_char q' = true /\
    t <> EmptyString /\ every non_space t = true /\
    title = Some t.

Definition with_title (title : option string) (g : gmap nat string) : gmap nat string :=
  match title with
  | Some t => <[ 4%nat := t ]> g
  | None => g
  end.

(** The token [![alt](src tp)]. *)
Definition token (alt src tp : string) : string :=
  "![" +:+ alt +:+ "](" +:+ src +:+ tp +:+ ")".

Definition TITLE : re :=
  Opt (Seq (Plus (Chr space))
      (Seq (Chr quote_char)
      (Seq (Group 4 (Plus (Chr non_space)))
           (Chr quote_char)))).

Definition ALT : re := Alt (Plus (Chr dot)) (Opt (Lit ":")).

Definition TOKEN : re :=
  Seq (Lit "![")
  (Seq (Group 2 ALT)
  (Seq (Lit "](")
  (Seq (Group 3 (Plus (Chr non_space)))
  (Seq TITLE (Lit ")"))))).

(** [text] ends in the shorthand for [alt], [src] and [title], which
    stands at the start of the text or after a white-space character. *)
Definition is_shorthand (text alt src : string) (title : option string) : Prop :=
  exists pre lead tp,
    text = pre +:+ lead +:+ token alt src tp /\
    ((pre = EmptyString /\ lead = EmptyString) \/
     (exists c, lead = String c EmptyString /\ space c = true)) /\
    every dot alt = true /\
    src <> EmptyString /\ every non_space src = true /\
    title_part tp title.

Definition title_value (title : option string) : value :=
  match title with
  | Some t => VStr t
  | None => VUndefined
  end.

(** The node the input rule makes for [alt], [src] and [title]. *)
Definition shorthand_node (alt src : string) (title : option string) : obj :=
  {[ "src" := VStr src; "alt" := VStr alt;
     "title" := match title with Some t => VStr t | None => VNull end;
     "width" := VNull; "height" := VNull; "href" := VNull ]}.


(** ** Definitions used to state the further properties *)

Definition is_toast_success (e : effect) : bool :=
  match e with ToastSuccess _ => true | _ => false end.

Definition is_notice (e : effect) : bool := is_toast_success e || is_toast_error e.

Definition is_settle {EditorState : Type} (ev : event EditorState) : bool :=
  match ev with Settle _ _ => true | Edit _ => false end.

(** [x] with its attributes replaced when it stands at [pos]. *)
Definition retag (attrs : obj) (pos : Z) (x : pmnode * Z) : pmnode * Z :=
  if (snd x =? pos)%Z then (set_attrs (fst x) attrs, snd x) else x.

(** The editor with another document, the selection kept. *)
Definition with_doc (editor : Editor) (d : pmnode) : Editor :=
  {| doc := d; selection_from := selection_from editor;
     selection_to := selection_to editor; link_href := link_href editor |}.

(** Two images in one paragraph, both selected. *)
Definition two_images_doc : pmnode :=
  PBranch "doc" ∅
    [ PBranch "paragraph" ∅
        [ PLeaf "customImage" (CustomImage.create {[ "src" := VStr "a.png" ]});
          PText "and";
          PLeaf "customImage" (CustomImage.create {[ "src" := VStr "b.png" ]}) ] ].

Definition two_images_editor : Editor :=
  {| doc := two_images_doc; selection_from := 1; selection_to := 6;
     link_href := VUndefined |}.

(** The names of the schema attributes. *)
Definition schema_keys : list string := ["src"; "alt"; "title"; "width"; "height"; "href"].

Section DomInd.
Variable P : Dom.node -> Prop.
Hypothesis Htext : forall s, P (Dom.Text s).
Hypothesis Helement : forall t a c, Forall P c -> P (Dom.Element t a c).

Fixpoint dom_nested_ind (d : Dom.node) : P d :=
  match d with
  | Dom.Text s => Htext s
  | Dom.Element t a c =>
      Helement t a c
        ((fix all (l : list Dom.node) : Forall P l :=
            match l with
            | [] => @List.Forall_nil _ P
            | x :: l' => @List.Forall_cons _ P x l' (dom_nested_ind x) (all l')
            end) c)
  end.
End DomInd.

(** An image below an anchor, with a [span] in between. *)
Definition indirectly_wrapped_anchor : Dom.node :=
  Dom.Element "a" {[ "href" := "https://example.com" ]} [].
Definition indirectly_wrapped_parent : Dom.node :=
  Dom.Element "span" ∅ [].

(** [recognizes r Q]: the texts [r] can consume are those of [Q], whatever
    the groups. *)
Definition recognizes (r : re) (Q : string -> Prop) : Prop :=
  exists P, realizes r P /\ forall m g, Q m <-> exists g', P m g g'.

Import VideoButton.

(** The text of a YouTube address as the video dialog takes it: an optional
    scheme, an optional [www.], one of the two hosts, a slash, an optional
    [watch?v=], eleven characters of an id, and anything after that. *)
Definition is_youtube_url (url : string) : Prop :=
  exists sch www host watch id tail,
    url = sch +:+ www +:+ host +:+ "/" +:+ watch +:+ id +:+ tail /\
    (sch = EmptyString \/ sch = "http://" \/ sch = "https://") /\
    (www = EmptyString \/ www = "www.") /\
    (host = "youtube.com" \/ host = "youtu.be") /\
    (watch = EmptyString \/ watch = "watch?v=") /\
    String.length id = 11%nat /\ every id_char id = true.

(** [low <= x]. *)
Definition at_least (low : Z) (x : num) : Prop :=
  match x with
  | NaN => False
  | Exact n => (low <= n)%Z
  | Beyond negative => negative = false
  end.

(** A command that returns, and one that throws. *)
Definition returning : YoutubeVideo -> option bool := fun _ => Some true.
Definition throwing : YoutubeVideo -> option bool := fun _ => None.

Definition example_video_dialog : VideoDialog :=
  {| isVideoDialogOpen := true;
     videoUrl := "https://www.youtube.com/watch?v=dQw4w9WgXcQ";
     height := "240"; width := "300"; videoError := None |}.

End Spec.

(** * Properties *)

Import Engine CustomImage Spec.

(** ** The node schema: rendering and parsing *)

Lemma render_if_set_lookup k (a : obj) k' :
  render_if_set k a !! k' =
  if decide (k = k') then (if truthy (get a k) then Some (get a k) else None) else None.
Proof.
  unfold render_if_set. destruct (truthy (get a k)); simpl.
  - rewrite lookup_singleton. by case_decide.
  - rewrite lookup_empty. by case_decide.
Qed.

Ltac key_cases :=
  repeat (case_decide; subst; simpl); try congruence.

Lemma rendered_lookup (attrs : obj) k :
  getRenderedAttributes addAttributes attrs !! k = rendered_spec attrs k.
Proof.
  unfold getRenderedAttributes, mergeAttributes, rendered_spec.
  cbn [fold_left addAttributes attr_renderHTML].
  rewrite !lookup_union, !render_if_set_lookup, !lookup_singleton, lookup_empty.
  key_cases.
  all: repeat match goal with |- context [truthy ?v] => destruct (truthy v) end; simpl; try reflexivity.
Qed.

Lemma truthy_not_nullish v : truthy v = true -> is_nullish v = false.
Proof. by destruct v. Qed.

Lemma img_attributes_lookup options attrs k :
  img_attributes options attrs !! k =
  if decide (k = "src") then render_attribute (get attrs k)
  else if decide (k = "alt") then render_attribute (get attrs k)
  else if decide (k = "title") then render_attribute (get attrs k)
  else if decide (k = "width") then
    (if truthy (get attrs k) then Some (to_string (get attrs k)) else HTMLAttributes options !! k)
  else if decide (k = "height") then
    (if truthy (get attrs k) then Some (to_string (get attrs k)) else HTMLAttributes options !! k)
  else HTMLAttributes options !! k.
Proof.
  unfold img_attributes, mergeAttributes.
  rewrite lookup_omap, lookup_union, lookup_delete, lookup_fmap, rendered_lookup.
  unfold rendered_spec.
  key_cases.
  all: try (destruct (HTMLAttributes options !! _); reflexivity).
  all: destruct (truthy _) eqn:E; destruct (HTMLAttributes options !! _); simpl;
    unfold render_attribute; rewrite ?(truthy_not_nullish _ E); reflexivity.
Qed.

Lemma get_rendered_href attrs :
  get (getRenderedAttributes addAttributes attrs) "href" =
  if truthy (get attrs "href") then get attrs "href" else VUndefined.
Proof.
  unfold get at 1. rewrite rendered_lookup. unfold rendered_spec. key_cases.
  by destruct (truthy _).
Qed.

Lemma serialize_unfold options attrs :
  serialize options attrs =
  if truthy (get attrs "href")
  then Dom.Element "a" {[ "href" := to_string (get attrs "href") ]}
         [Dom.Element "img" (img_attributes options attrs) []]
  else Dom.Element "img" (img_attributes options attrs) [].
Proof.
  unfold serialize, renderHTML. rewrite get_rendered_href.
  destruct (truthy (get attrs "href")) eqn:E; simpl.
  - rewrite E. simpl. f_equal.
    rewrite omap_singleton_Some with (y := to_string (get attrs "href")); [done|].
    unfold render_attribute. by rewrite (truthy_not_nullish _ E).
  - reflexivity.
Qed.

Lemma to_string_nonempty v : truthy v = true -> to_string v <> EmptyString.
Proof.
  destruct v as [| |b|s|n|r]; simpl; try discriminate.
  - by destruct b.
  - destruct s; [discriminate|done].
  - intros _. destruct (Z.to_int n) as [d|d]; simpl.
    + destruct d; discriminate.
    + discriminate.
  - destruct r; [by rewrite orb_true_r|done].
Qed.

Lemma truthy_VStr s : truthy (VStr s) = negb (String.eqb s EmptyString).
Proof. reflexivity. Qed.

Lemma truthy_to_string v : truthy v = true -> truthy (VStr (to_string v)) = true.
Proof.
  intros H. simpl. apply to_string_nonempty in H.
  destruct (String.eqb_spec (to_string v) EmptyString); [done|reflexivity].
Qed.

(* attributes of the node a matching rule creates *)
Lemma get_computeAttrs_key g k :
  k ∈ ["src"; "alt"; "title"; "width"; "height"; "href"] ->
  get (computeAttrs addAttributes g) k =
  match get g k with VUndefined => VNull | v => v end.
Proof.
  intros Hk. repeat (apply elem_of_cons in Hk as [-> | Hk]); [reflexivity..|].
  by apply elem_of_nil in Hk.
Qed.

Section Parsing.

(** platform: [Number]. *)
Variable Number : string -> number.

Lemma fromString_VStr_not_nullish s : is_nullish (fromString Number (VStr s)) = false.
Proof.
  unfold fromString. destruct (Regex.test numberRegex s); [by destruct (Number s)|].
  destruct (String.eqb s "true"); [done|]. by destruct (String.eqb s "false").
Qed.

Lemma fromString_plain s :
  Regex.test numberRegex s = false -> s <> "true" -> s <> "false" ->
  fromString Number (VStr s) = VStr s.
Proof.
  intros Hn Ht Hf. unfold fromString. rewrite Hn.
  destruct (String.eqb_spec s "true"); [done|].
  by destruct (String.eqb_spec s "false").
Qed.

Lemma fromString_getAttribute_nullish el k :
  is_nullish (fromString Number (Dom.getAttribute el k)) = is_nullish (Dom.getAttribute el k).
Proof.
  destruct el as [t a c|]; cbn [Dom.getAttribute]; [|reflexivity].
  destruct (a !! k); [apply fromString_VStr_not_nullish|reflexivity].
Qed.

(** What the schema attributes add to a rule's attributes, key by key. *)
Lemma inject_fold_lookup el (schema : list (string * AttributeSpec)) : forall (items : obj) k,
  NoDup schema.*1 ->
  fold_left
    (fun items '(name, spec) =>
       let v := match attr_parseHTML spec with
                | Some hook => hook el
                | None => fromString Number (Dom.getAttribute el name)
                end in
       if is_nullish v then items else <[ name := v ]> items)
    schema items !! k =
  match (list_to_map schema : gmap string AttributeSpec) !! k with
  | Some spec =>
      let v := match attr_parseHTML spec with
               | Some hook => hook el
               | None => fromString Number (Dom.getAttribute el k)
               end in
      if is_nullish v then items !! k else Some v
  | None => items !! k
  end.
Proof.
  induction schema as [|[name spec] schema IH]; intros items k Hnd; [reflexivity|].
  apply NoDup_cons in Hnd as [Hname Hnd]. cbn [fold_left].
  match goal with |- fold_left _ _ ?i !! _ = _ => set (items' := i) end.
  rewrite IH by done. rewrite list_to_map_cons.
  destruct (decide (name = k)) as [->|Hne].
  - rewrite lookup_insert_eq.
    rewrite (not_elem_of_list_to_map_1 (M := gmap string) schema k Hname).
    unfold items'. cbv zeta.
    destruct (is_nullish _); [reflexivity|]. by rewrite lookup_insert_eq.
  - rewrite lookup_insert_ne by done.
    assert (Hitems : items' !! k = items !! k).
    { unfold items'. cbv zeta. destruct (is_nullish _); [reflexivity|].
      by rewrite lookup_insert_ne. }
    rewrite Hitems. reflexivity.
Qed.

Lemma list_to_map_find {A} (l : list (string * A)) k :
  (list_to_map l : gmap string A) !! k =
  snd <$> List.find (fun ns => String.eqb (fst ns) k) l.
Proof.
  induction l as [|[name x] l IH]; [reflexivity|].
  rewrite list_to_map_cons. cbn [List.find fst].
  destruct (String.eqb_spec name k) as [->|Hne].
  - by rewrite lookup_insert_eq.
  - by rewrite lookup_insert_ne.
Qed.

Lemma get_inject r parent el k :
  get (injectExtensionAttributes Number addAttributes r parent el) k =
  if bool_decide (k = "width" \/ k = "height" \/ k = "href") then
    (if is_nullish (Dom.getAttribute el k)
     then get (rule_getAttrs r parent el) k else Dom.getAttribute el k)
  else if bool_decide (k = "src" \/ k = "alt" \/ k = "title") then
    (if is_nullish (Dom.getAttribute el k)
     then get (rule_getAttrs r parent el) k else fromString Number (Dom.getAttribute el k))
  else get (rule_getAttrs r parent el) k.
Proof.
  unfold injectExtensionAttributes, get.
  rewrite lookup_union, inject_fold_lookup.
  2:{ cbn. repeat (apply NoDup_cons; split; [set_solver|]). apply NoDup_nil_2. }
  rewrite lookup_empty, list_to_map_find.
  case_bool_decide as Hh.
  { destruct Hh as [-> | [-> | ->]]; cbn;
      destruct (is_nullish (Dom.getAttribute el _)); cbn;
      by destruct (rule_getAttrs r parent el !! _). }
  case_bool_decide as Hs.
  { destruct Hs as [-> | [-> | ->]]; cbn; rewrite fromString_getAttribute_nullish;
      destruct (is_nullish (Dom.getAttribute el _)); cbn;
      by destruct (rule_getAttrs r parent el !! _). }
  assert (Hnone : List.find (fun ns : string * AttributeSpec => String.eqb (fst ns) k)
                    addAttributes = None).
  { cbn [List.find addAttributes fst].
    repeat match goal with
           | |- context [String.eqb ?x k] =>
               destruct (String.eqb_spec x k) as [<-|?];
               [exfalso; first [apply Hh; auto; fail | apply Hs; auto; fail]|]
           end.
    reflexivity. }
  rewrite Hnone. cbn. by destruct (rule_getAttrs r parent el !! k).
Qed.

Lemma getAttribute_Element t a ch k :
  Dom.getAttribute (Dom.Element t a ch) k = attr_value (a !! k).
Proof. reflexivity. Qed.

Lemma render_attr_value o : render_attribute (attr_value o) = o.
Proof. by destruct o. Qed.

Lemma roundtrip_img options (n n' : obj) :
  (forall k, k = "src" \/ k = "alt" \/ k = "title" ->
     render_attribute (get n' k) = render_attribute (get n k)) ->
  (forall k, k = "width" \/ k = "height" ->
     get n' k = attr_value (img_attributes options n !! k)) ->
  img_attributes options n' = img_attributes options n.
Proof.
  intros Hs Hw. apply map_eq. intros k.
  rewrite !img_attributes_lookup.
  destruct (decide (k = "src")) as [->|]; [apply Hs; auto|].
  destruct (decide (k = "alt")) as [->|]; [apply Hs; auto|].
  destruct (decide (k = "title")) as [->|]; [apply Hs; auto|].
  assert (Hdim : forall d, d = "width" \/ d = "height" ->
            (if truthy (get n' d) then Some (to_string (get n' d))
             else HTMLAttributes options !! d) =
            (if truthy (get n d) then Some (to_string (get n d))
             else HTMLAttributes options !! d)).
  { intros d Hd. rewrite (Hw d Hd), img_attributes_lookup.
    assert (img_dim : (if decide (d = "src") then render_attribute (get n d)
        else if decide (d = "alt") then render_attribute (get n d)
        else if decide (d = "title") then render_attribute (get n d)
        else if decide (d = "width") then
          if truthy (get n d) then Some (to_string (get n d)) else HTMLAttributes options !! d
        else if decide (d = "height") then
          if truthy (get n d) then Some (to_string (get n d)) else HTMLAttributes options !! d
        else HTMLAttributes options !! d) =
        (if truthy (get n d) then Some (to_string (get n d)) else HTMLAttributes options !! d)).
    { destruct Hd as [-> | ->]; reflexivity. }
    rewrite img_dim. clear img_dim.
    destruct (truthy (get n d)) eqn:E.
    - cbn [attr_value]. rewrite (truthy_to_string _ E). reflexivity.
    - destruct (HTMLAttributes options !! d) as [s|]; cbn [attr_value]; [|reflexivity].
      rewrite truthy_VStr. destruct (String.eqb_spec s EmptyString); simpl; congruence. }
  destruct (decide (k = "width")) as [->|]; [apply Hdim; auto|].
  destruct (decide (k = "height")) as [->|]; [apply Hdim; auto|].
  reflexivity.
Qed.

Lemma matchTag_not_img options anc t a ch :
  String.eqb t "img" = false ->
  matchTag Number addAttributes (parseHTML options) anc (Dom.Element t a ch) = None.
Proof.
  intros Ht. unfold parseHTML, matchTag, Dom.matches, anchor_image_rule, bare_image_rule.
  cbn [rule_tag]. destruct (allowBase64 options); cbn; rewrite Ht; reflexivity.
Qed.

Lemma anchor_rule_matches anc t a ch (ia : gmap string string) ich :
  is_Some (ia !! "src") ->
  String.eqb t "a" = true -> is_Some (a !! "href") ->
  Dom.matches (Dom.Element t a ch :: anc) (Dom.Element "img" ia ich)
    (rule_tag anchor_image_rule) = true.
Proof.
  intros Hs Ht Hh. cbn. rewrite Ht.
  rewrite !bool_decide_eq_true_2 by done. reflexivity.
Qed.

Lemma get_anchor_rule parent img k :
  get (rule_getAttrs anchor_image_rule parent img) k =
  if decide (k = "src") then Dom.getAttribute img "src"
  else if decide (k = "href") then
    match parent with Some p => Dom.getAttribute p "href" | None => VNull end
  else if decide (k = "alt") then Dom.getAttribute img "alt"
  else if decide (k = "title") then Dom.getAttribute img "title"
  else if decide (k = "width") then Dom.getAttribute img "width"
  else if decide (k = "height") then Dom.getAttribute img "height"
  else VUndefined.
Proof.
  unfold get, anchor_image_rule. cbn [rule_getAttrs].
  rewrite !lookup_insert, lookup_singleton. key_cases.
Qed.

Lemma get_bare_rule options parent img k :
  get (rule_getAttrs (bare_image_rule options) parent img) k =
  if decide (k = "src") then Dom.getAttribute img "src"
  else if decide (k = "href") then VNull
  else if decide (k = "alt") then Dom.getAttribute img "alt"
  else if decide (k = "title") then Dom.getAttribute img "title"
  else if decide (k = "width") then Dom.getAttribute img "width"
  else if decide (k = "height") then Dom.getAttribute img "height"
  else VUndefined.
Proof.
  unfold get, bare_image_rule. cbn [rule_getAttrs].
  rewrite !lookup_insert, lookup_singleton. key_cases.
Qed.

Lemma bare_rule_matches options anc (ia : gmap string string) ich s :
  ia !! "src" = Some s ->
  (allowBase64 options = true \/ String.prefix "data:" s = false) ->
  Dom.matches anc (Dom.Element "img" ia ich) (rule_tag (bare_image_rule options)) = true.
Proof.
  intros Hs Hp. unfold bare_image_rule. cbn [rule_tag].
  destruct (allowBase64 options); cbn; rewrite Hs;
    rewrite bool_decide_eq_true_2 by eauto; [reflexivity|].
  destruct Hp as [? | ->]; [discriminate|reflexivity].
Qed.

(** The attributes of the node a rule of the extension makes of an
    element, key by key. *)
Lemma rule_reads_img options r parent el k :
  r = anchor_image_rule \/ r = bare_image_rule options ->
  k ∈ ["src"; "alt"; "title"; "width"; "height"] ->
  get (rule_getAttrs r parent el) k = Dom.getAttribute el k.
Proof.
  intros Hr Hk. destruct Hr as [-> | ->]; [rewrite get_anchor_rule|rewrite get_bare_rule];
    repeat (apply elem_of_cons in Hk as [-> | Hk]); try reflexivity;
    by apply elem_of_nil in Hk.
Qed.

Lemma getAttribute_cases el k :
  Dom.getAttribute el k = VNull \/ exists s, Dom.getAttribute el k = VStr s.
Proof.
  destruct el as [t a c|]; cbn; [|by left]. destruct (a !! k); [right; eauto|by left].
Qed.

Lemma get_parsed_read options r parent el k :
  r = anchor_image_rule \/ r = bare_image_rule options ->
  k = "src" \/ k = "alt" \/ k = "title" ->
  get (computeAttrs addAttributes
         (injectExtensionAttributes Number addAttributes r parent el)) k =
  fromString Number (Dom.getAttribute el k).
Proof.
  intros Hr Hk.
  rewrite get_computeAttrs_key by (destruct Hk as [-> | [-> | ->]]; set_solver).
  rewrite get_inject.
  rewrite bool_decide_eq_false_2
    by (destruct Hk as [-> | [-> | ->]]; intros [?|[?|?]]; discriminate).
  rewrite bool_decide_eq_true_2 by done.
  rewrite (rule_reads_img options) by (try done; destruct Hk as [-> | [-> | ->]]; set_solver).
  destruct (getAttribute_cases el k) as [-> | [s ->]]; [reflexivity|].
  cbn [is_nullish]. pose proof (fromString_VStr_not_nullish s).
  by destruct (fromString Number (VStr s)).
Qed.

Lemma get_parsed_dim options r parent el k :
  r = anchor_image_rule \/ r = bare_image_rule options ->
  k = "width" \/ k = "height" ->
  get (computeAttrs addAttributes
         (injectExtensionAttributes Number addAttributes r parent el)) k =
  Dom.getAttribute el k.
Proof.
  intros Hr Hk.
  rewrite get_computeAttrs_key by (destruct Hk as [-> | ->]; set_solver).
  rewrite get_inject.
  rewrite bool_decide_eq_true_2 by (destruct Hk; auto).
  rewrite (rule_reads_img options) by (try done; destruct Hk as [-> | ->]; set_solver).
  by destruct (getAttribute_cases el k) as [-> | [s ->]].
Qed.

Lemma get_parsed_href_anchor parent el :
  get (computeAttrs addAttributes
         (injectExtensionAttributes Number addAttributes anchor_image_rule parent el)) "href" =
  if is_nullish (Dom.getAttribute el "href")
  then match parent with Some p => Dom.getAttribute p "href" | None => VNull end
  else Dom.getAttribute el "href".
Proof.
  rewrite get_computeAttrs_key by set_solver.
  rewrite get_inject.
  rewrite bool_decide_eq_true_2 by auto.
  destruct (getAttribute_cases el "href") as [-> | [s ->]]; cbn [is_nullish]; [|reflexivity].
  rewrite get_anchor_rule. cbn.
  destruct parent as [p|]; [|reflexivity].
  by destruct (getAttribute_cases p "href") as [-> | [s ->]].
Qed.

Lemma get_parsed_href_bare options parent el :
  get (computeAttrs addAttributes
         (injectExtensionAttributes Number addAttributes (bare_image_rule options)
            parent el)) "href" =
  Dom.getAttribute el "href".
Proof.
  rewrite get_computeAttrs_key by set_solver.
  rewrite get_inject.
  rewrite bool_decide_eq_true_2 by auto.
  destruct (getAttribute_cases el "href") as [-> | [s ->]]; cbn [is_nullish]; [|reflexivity].
  rewrite get_bare_rule. reflexivity.
Qed.

Lemma computeAttrs_lookup g k :
  computeAttrs addAttributes g !! k =
  if decide (k ∈ schema_keys) then Some (get (computeAttrs addAttributes g) k) else None.
Proof.
  case_decide as Hk.
  - unfold get. assert (H : is_Some (computeAttrs addAttributes g !! k)).
    { apply elem_of_dom. unfold computeAttrs. rewrite dom_list_to_map_L.
      cbn. unfold schema_keys in Hk. set_solver. }
    by destruct H as [v ->].
  - apply not_elem_of_dom. unfold computeAttrs. rewrite dom_list_to_map_L.
    cbn. unfold schema_keys in Hk. set_solver.
Qed.

(** C3 (amended): a node without a link whose [src] is present round-trips
    through serialize, parse, serialize, provided the bare-image rule can
    take it back (base64 sources are allowed, or its [src] does not start
    with [data:]) and the engine's reader gives back [src], [alt] and
    [title] as they were written: a text it takes for a number or a
    boolean must print as that same text. The static default attributes
    are assumed not to set [href]. The parse yields exactly one node, and
    that node serializes to the same fragment. *)
Theorem serialize_parse_serialize options (n : obj) :
  is_nullish (get n "src") = false ->
  truthy (get n "href") = false ->
  HTMLAttributes options !! "href" = None ->
  (allowBase64 options = true \/
   String.prefix "data:" (to_string (get n "src")) = false) ->
  (forall k, k = "src" \/ k = "alt" \/ k = "title" ->
     is_nullish (get n k) = false ->
     to_string (fromString Number (VStr (to_string (get n k)))) = to_string (get n k)) ->
  exists n', parse Number options (serialize options n) = [n'] /\
             serialize options n' = serialize options n.
Proof.
  intros Hsrc Hhref Hstatic Hpolicy Hstable.
  assert (Himg_src : img_attributes options n !! "src" = Some (to_string (get n "src"))).
  { rewrite img_attributes_lookup. simpl. unfold render_attribute. by rewrite Hsrc. }
  assert (Himg_href : img_attributes options n !! "href" = None).
  { rewrite img_attributes_lookup. simpl. done. }
  rewrite serialize_unfold, Hhref.
  eexists. split.
  - unfold parse. cbn [parseDOM]. unfold parseHTML. cbn [matchTag].
    cbn [Dom.matches anchor_image_rule rule_tag existsb]. rewrite andb_false_r.
    rewrite (bare_rule_matches _ _ _ _ _ Himg_src Hpolicy). reflexivity.
  - rewrite serialize_unfold. cbn [head].
    set (img := Dom.Element "img" (img_attributes options n) []).
    rewrite get_parsed_href_bare.
    unfold img at 1. rewrite getAttribute_Element, Himg_href. cbn [attr_value truthy].
    f_equal.
    apply roundtrip_img.
    + intros k Hk. rewrite (get_parsed_read options) by auto.
      unfold img. rewrite getAttribute_Element.
      assert (Himg : img_attributes options n !! k = render_attribute (get n k)).
      { rewrite img_attributes_lookup. by destruct Hk as [-> | [-> | ->]]. }
      rewrite Himg. unfold render_attribute at 2 3.
      destruct (is_nullish (get n k)) eqn:En; cbn [attr_value]; [reflexivity|].
      unfold render_attribute. rewrite fromString_VStr_not_nullish.
      by rewrite (Hstable k Hk En).
    + intros k Hk. by rewrite (get_parsed_dim options) by auto.
Qed.

(** C2 (amended): the fragment [<a href="X"><img src="Y"></a>] parses to
    exactly one node, whatever the options: the anchor-wraps-image rule
    comes first and takes the image. Its [href] is the text X. Its [src] is
    Y as the engine's reader gives it: the text Y itself unless Y is
    numeric text, [true] or [false], which it turns into the number or the
    boolean. *)
Theorem parse_anchor_wrapped_image options X Y :
  parse Number options
    (Dom.Element "a" {[ "href" := X ]} [Dom.Element "img" {[ "src" := Y ]} []])
  = [ {[ "src" := fromString Number (VStr Y); "href" := VStr X; "alt" := VNull;
         "title" := VNull; "width" := VNull; "height" := VNull ]} ] /\
  (Regex.test numberRegex Y = false -> Y <> "true" -> Y <> "false" ->
   parse Number options
     (Dom.Element "a" {[ "href" := X ]} [Dom.Element "img" {[ "src" := Y ]} []])
   = [ {[ "src" := VStr Y; "href" := VStr X; "alt" := VNull;
          "title" := VNull; "width" := VNull; "height" := VNull ]} ]).
Proof.
  assert (H : parse Number options
    (Dom.Element "a" {[ "href" := X ]} [Dom.Element "img" {[ "src" := Y ]} []])
  = [ {[ "src" := fromString Number (VStr Y); "href" := VStr X; "alt" := VNull;
         "title" := VNull; "width" := VNull; "height" := VNull ]} ]).
  { unfold parse. cbn [parseDOM]. rewrite matchTag_not_img by reflexivity.
    cbn [parseDOM]. unfold parseHTML at 1. cbn [matchTag].
    rewrite anchor_rule_matches;
      [|by rewrite lookup_singleton_eq; eauto|reflexivity|by rewrite lookup_singleton_eq; eauto].
    cbn [head app]. f_equal. apply map_eq. intros k.
    rewrite computeAttrs_lookup. case_decide as Hk.
    - unfold schema_keys in Hk.
      repeat (apply elem_of_cons in Hk as [-> | Hk]); [..|by apply elem_of_nil in Hk].
      + rewrite (get_parsed_read options) by auto. reflexivity.
      + rewrite (get_parsed_read options) by auto. reflexivity.
      + rewrite (get_parsed_read options) by auto. reflexivity.
      + rewrite (get_parsed_dim options) by auto. reflexivity.
      + rewrite (get_parsed_dim options) by auto. reflexivity.
      + rewrite get_parsed_href_anchor. reflexivity.
    - rewrite !lookup_insert_ne, lookup_singleton_ne; [done|..];
        intros <-; apply Hk; unfold schema_keys; set_solver. }
  split; [exact H|]. intros Hn Ht Hf. rewrite H. by rewrite fromString_plain.
Qed.

End Parsing.

(** C4 (amended): a node serializes to an [a] element around an [img]
    exactly when its [href] is truthy (neither nullish nor empty), and to a
    bare [img] otherwise. The [img] carries [src], [alt], [title] when they
    are not nullish, [width] and [height] when they are truthy, and
    otherwise what the static default attributes give; so no attribute of
    the node that is null shows in the output. *)
Theorem serialize_wraps_iff_href_truthy options (attrs : obj) :
  exists img : gmap string string,
    serialize options attrs =
      (if truthy (get attrs "href")
       then Dom.Element "a" {[ "href" := to_string (get attrs "href") ]}
              [Dom.Element "img" img []]
       else Dom.Element "img" img []) /\
    (forall k, k = "src" \/ k = "alt" \/ k = "title" ->
       img !! k = if is_nullish (get attrs k) then None
                  else Some (to_string (get attrs k))) /\
    (forall k, k = "width" \/ k = "height" ->
       img !! k = if truthy (get attrs k) then Some (to_string (get attrs k))
                  else HTMLAttributes options !! k) /\
    (forall k, k ∉ ["src"; "alt"; "title"; "width"; "height"] ->
       img !! k = HTMLAttributes options !! k).
Proof.
  exists (img_attributes options attrs). split; [apply serialize_unfold|].
  split; [|split]; intros k Hk; rewrite img_attributes_lookup.
  - destruct Hk as [-> | [-> | ->]]; reflexivity.
  - destruct Hk as [-> | ->]; reflexivity.
  - repeat case_decide; subst; try reflexivity; exfalso; apply Hk; set_solver.
Qed.

(** C4, as stated, fails: this node's [href] and [width] are not null (they
    are empty strings), yet it serializes to a bare [img] with no [width]. *)
Lemma serialize_empty_href_is_bare :
  get empty_href_node "href" <> VNull /\
  get empty_href_node "width" <> VNull /\
  serialize addOptions empty_href_node
  = Dom.Element "img" {[ "src" := "u.png" ]} [].
Proof. split; [|split]; [discriminate|discriminate|vm_compute; reflexivity]. Qed.

(** C3, as stated, fails: with the default options a node whose source is a
    [data:] URL serializes to an image that no parse rule takes back. *)
Lemma base64_node_does_not_round_trip :
  is_nullish (get base64_node "src") = false /\
  serialize addOptions base64_node
  = Dom.Element "img" {[ "src" := "data:image/png;base64,AAAA" ]} [] /\
  parse decimalNumber addOptions (serialize addOptions base64_node) = [].
Proof. split; [|split]; vm_compute; reflexivity. Qed.

(** C3 fails as well on a node whose [alt] is numeric text: the reader
    turns it into a number, which prints without the leading zeros. *)
Lemma numeric_alt_does_not_round_trip :
  decimalNumber "007" = Int 7 /\
  serialize addOptions numeric_alt_node
  = Dom.Element "img" {[ "src" := "u.png"; "alt" := "007" ]} [] /\
  parse decimalNumber addOptions (serialize addOptions numeric_alt_node)
  = [ {[ "src" := VStr "u.png"; "alt" := VNum 7; "title" := VNull;
         "width" := VNull; "height" := VNull; "href" := VNull ]} ] /\
  serialize addOptions
    {[ "src" := VStr "u.png"; "alt" := VNum 7; "title" := VNull;
       "width" := VNull; "height" := VNull; "href" := VNull ]}
  = Dom.Element "img" {[ "src" := "u.png"; "alt" := "7" ]} [].
Proof. repeat split; vm_compute; reflexivity. Qed.

(** C2, as stated, fails: a source that is numeric text comes back as a
    number, not as the text. *)
Lemma numeric_src_is_read_as_a_number :
  decimalNumber "007" = Int 7 /\
  parse decimalNumber addOptions
    (Dom.Element "a" {[ "href" := "https://example.com" ]}
       [Dom.Element "img" {[ "src" := "007" ]} []])
  = [ {[ "src" := VNum 7; "href" := VStr "https://example.com"; "alt" := VNull;
         "title" := VNull; "width" := VNull; "height" := VNull ]} ] /\
  VNum 7 <> VStr "007" /\
  to_string (VNum 7) <> "007".
Proof. repeat split; try (vm_compute; reflexivity); discriminate. Qed.

(** A node the theorem above applies to, with the default options. *)
Lemma serialize_parse_serialize_witness :
  exists n', parse decimalNumber addOptions
               (serialize addOptions (create {[ "src" := VStr "u.png"; "width" := VNum 100 ]}))
             = [n'] /\
             serialize addOptions n'
             = serialize addOptions (create {[ "src" := VStr "u.png"; "width" := VNum 100 ]}).
Proof.
  apply (serialize_parse_serialize decimalNumber addOptions
           (create {[ "src" := VStr "u.png"; "width" := VNum 100 ]})).
  - reflexivity.
  - reflexivity.
  - reflexivity.
  - right. reflexivity.
  - intros k [-> | [-> | ->]] _; vm_compute; reflexivity.
Defined.

(** ** The node schema: what parsing and creation guarantee *)

Section ParsedNodes.

Variable Number : string -> number.

Lemma matchTag_Some options anc el a :
  matchTag Number addAttributes (parseHTML options) anc el = Some a ->
  exists r, (r = anchor_image_rule \/ r = bare_image_rule options) /\
            Dom.matches anc el (rule_tag r) = true /\
            a = computeAttrs addAttributes
                  (injectExtensionAttributes Number addAttributes r (head anc) el).
Proof.
  unfold parseHTML. cbn [matchTag].
  destruct (Dom.matches anc el (rule_tag anchor_image_rule)) eqn:E1.
  - intros [= <-]. exists anchor_image_rule. auto.
  - destruct (Dom.matches anc el (rule_tag (bare_image_rule options))) eqn:E2; [|done].
    intros [= <-]. exists (bare_image_rule options). auto.
Qed.

Lemma rule_matches_has_src options anc el r :
  r = anchor_image_rule \/ r = bare_image_rule options ->
  Dom.matches anc el (rule_tag r) = true ->
  exists s, Dom.getAttribute el "src" = VStr s /\
            (r = bare_image_rule options -> allowBase64 options = false ->
             String.prefix "data:" s = false).
Proof.
  intros [-> | ->]; cbn [rule_tag anchor_image_rule bare_image_rule Dom.matches].
  - intros H. apply andb_true_iff in H as [H _]. cbn in H.
    apply andb_true_iff in H as [_ H]. apply andb_true_iff in H as [H _].
    destruct el as [t a c|]; [|done]. cbn in *.
    apply bool_decide_eq_true in H as [s Hs]. rewrite Hs. exists s. split; [done|].
    intros Hr. exfalso. revert Hr. unfold anchor_image_rule, bare_image_rule.
    destruct (allowBase64 options); intros [=].
  - destruct (allowBase64 options) eqn:Eb; cbn; intros H.
    + apply andb_true_iff in H as [_ H]. apply andb_true_iff in H as [H _].
      destruct el as [t a c|]; [|done]. cbn in *.
      apply bool_decide_eq_true in H as [s Hs]. rewrite Hs. exists s. split; [done|]. done.
    + apply andb_true_iff in H as [_ H]. apply andb_true_iff in H as [H H'].
      apply andb_true_iff in H' as [H' _].
      destruct el as [t a c|]; [|done]. cbn in *.
      apply bool_decide_eq_true in H as [s Hs]. rewrite Hs in *. exists s. split; [done|].
      intros _ _. by apply negb_true_iff.
Qed.

Lemma getAttribute_values el k :
  Dom.getAttribute el k = VNull \/ exists s, Dom.getAttribute el k = VStr s.
Proof.
  destruct el as [t a c|]; cbn; [|by left]. destruct (a !! k); [right; eauto|by left].
Qed.

Lemma dom_computeAttrs g : dom (computeAttrs addAttributes g) = list_to_set schema_keys.
Proof.
  unfold computeAttrs. rewrite dom_list_to_map_L. f_equal.
Qed.

(** X8: every node the parser makes from a fragment is well formed. It
    has exactly the six schema attributes, none of them undefined; its
    [src] is not null (both rules select on [img[src]]); [width], [height]
    and [href] are null or the attribute's text; [src], [alt] and [title]
    are null or what the engine's reader makes of the attribute's text,
    which may be a number or a boolean. *)
Theorem parsed_nodes_are_well_formed options fragment n :
  In n (parse Number options fragment) ->
  is_nullish (get n "src") = false /\
  dom n = list_to_set schema_keys /\
  (forall k, k ∈ schema_keys -> get n k <> VUndefined) /\
  (forall k, k = "width" \/ k = "height" \/ k = "href" ->
     get n k = VNull \/ exists s, get n k = VStr s) /\
  (forall k, k = "src" \/ k = "alt" \/ k = "title" ->
     get n k = VNull \/ exists s, get n k = fromString Number (VStr s)).
Proof.
  unfold parse. generalize (@nil Dom.node) as anc. revert n.
  induction fragment as [s|t a c IH] using dom_nested_ind; intros n anc; cbn [parseDOM];
    [intros []|].
  destruct (matchTag Number addAttributes (parseHTML options) anc (Dom.Element t a c))
    as [m|] eqn:Em.
  - intros [<-|[]]. apply matchTag_Some in Em as (r & Hr & Hm & ->).
    destruct (rule_matches_has_src _ _ _ _ Hr Hm) as (s & Hs & _).
    assert (Hhooked : forall k, k = "width" \/ k = "height" \/ k = "href" ->
              get (computeAttrs addAttributes
                     (injectExtensionAttributes Number addAttributes r (head anc)
                        (Dom.Element t a c))) k = VNull \/
              exists s, get (computeAttrs addAttributes
                     (injectExtensionAttributes Number addAttributes r (head anc)
                        (Dom.Element t a c))) k = VStr s).
    { intros k [-> | [-> | ->]].
      - rewrite (get_parsed_dim Number options) by auto. apply getAttribute_values.
      - rewrite (get_parsed_dim Number options) by auto. apply getAttribute_values.
      - destruct Hr as [-> | ->];
          [rewrite get_parsed_href_anchor|rewrite get_parsed_href_bare; apply getAttribute_values].
        destruct (getAttribute_values (Dom.Element t a c) "href") as [E | [s' E]];
          rewrite E; cbn [is_nullish]; [|right; eauto].
        destruct (head anc) as [p|]; [apply getAttribute_values|by left]. }
    assert (Hread : forall k, k = "src" \/ k = "alt" \/ k = "title" ->
              get (computeAttrs addAttributes
                     (injectExtensionAttributes Number addAttributes r (head anc)
                        (Dom.Element t a c))) k =
              fromString Number (Dom.getAttribute (Dom.Element t a c) k)).
    { intros k Hk. by apply (get_parsed_read Number options). }
    split; [rewrite Hread by auto; rewrite Hs; apply fromString_VStr_not_nullish|].
    split; [apply dom_computeAttrs|]. split; [|split; [exact Hhooked|]].
    + intros k Hk. unfold schema_keys in Hk.
      assert (Hcases : (k = "src" \/ k = "alt" \/ k = "title") \/
                       (k = "width" \/ k = "height" \/ k = "href")) by set_solver.
      destruct Hcases as [Hc|Hc].
      * rewrite Hread by done.
        destruct (getAttribute_values (Dom.Element t a c) k) as [-> | [s' ->]]; [done|].
        pose proof (fromString_VStr_not_nullish Number s') as Hnn.
        intros E. rewrite E in Hnn. discriminate.
      * destruct (Hhooked k Hc) as [-> | [s' ->]]; done.
    + intros k Hk. rewrite Hread by done.
      destruct (getAttribute_values (Dom.Element t a c) k) as [-> | [s' ->]];
        [by left|right; eauto].
  - clear Em. generalize (Dom.Element t a c :: anc) as anc'. intros anc'.
    induction IH as [|child l Hc _ IHl]; simpl; [tauto|].
    rewrite in_app_iff. intros [Hin|Hin]; [exact (Hc _ _ Hin)|exact (IHl Hin)].
Qed.

Lemma matches_anchor_rule_img anc a c :
  is_Some (a !! "src") ->
  existsb (fun e => Dom.matches_compound e [Dom.STag "a"; Dom.SHasAttr "href"]) anc = true ->
  Dom.matches anc (Dom.Element "img" a c) (rule_tag anchor_image_rule) = true.
Proof.
  intros Hs Ha. cbn [rule_tag anchor_image_rule Dom.matches]. rewrite Ha.
  cbn. rewrite bool_decide_eq_true_2 by done. reflexivity.
Qed.

(** X9: the anchor rule asks for an anchor somewhere above the image but
    reads the link from the image's direct parent only. An image with a
    source and no [href] of its own, below an anchor with [href], always
    becomes a node, whether or not its source is a [data:] URL, and the
    node's [href] is the [href] attribute of the direct parent: null when
    an element without one stands between the anchor and the image. Its
    [src] is the attribute as the engine's reader gives it. *)
Theorem link_read_from_direct_parent options anc parent a c :
  is_Some (a !! "src") ->
  a !! "href" = None ->
  existsb (fun e => Dom.matches_compound e [Dom.STag "a"; Dom.SHasAttr "href"])
          (parent :: anc) = true ->
  exists n,
    parseDOM Number addAttributes (parseHTML options) (parent :: anc) (Dom.Element "img" a c)
      = [n] /\
    get n "href" = Dom.getAttribute parent "href" /\
    get n "src" = fromString Number (Dom.getAttribute (Dom.Element "img" a c) "src").
Proof.
  intros Hs Hh Ha. cbn [parseDOM]. unfold parseHTML. cbn [matchTag].
  rewrite (matches_anchor_rule_img _ _ _ Hs Ha). eexists. split; [reflexivity|].
  cbn [head]. split.
  - rewrite get_parsed_href_anchor.
    rewrite getAttribute_Element, Hh. reflexivity.
  - by rewrite (get_parsed_read Number options) by auto.
Qed.

End ParsedNodes.

(** A bare image, parsed with the default options. *)
Lemma parsed_nodes_are_well_formed_witness :
  is_nullish (get (create {[ "src" := VStr "u.png" ]}) "src") = false /\
  dom (create {[ "src" := VStr "u.png" ]}) = list_to_set schema_keys /\
  (forall k, k ∈ schema_keys -> get (create {[ "src" := VStr "u.png" ]}) k <> VUndefined) /\
  (forall k, k = "width" \/ k = "height" \/ k = "href" ->
     get (create {[ "src" := VStr "u.png" ]}) k = VNull \/
     exists s, get (create {[ "src" := VStr "u.png" ]}) k = VStr s) /\
  (forall k, k = "src" \/ k = "alt" \/ k = "title" ->
     get (create {[ "src" := VStr "u.png" ]}) k = VNull \/
     exists s, get (create {[ "src" := VStr "u.png" ]}) k = fromString decimalNumber (VStr s)).
Proof.
  apply (parsed_nodes_are_well_formed decimalNumber addOptions
           (Dom.Element "img" {[ "src" := "u.png" ]} [])
           (create {[ "src" := VStr "u.png" ]})).
  vm_compute. left. reflexivity.
Defined.

Lemma link_read_from_direct_parent_witness :
  exists n,
    parseDOM decimalNumber addAttributes (parseHTML addOptions)
      [indirectly_wrapped_parent; indirectly_wrapped_anchor]
      (Dom.Element "img" {[ "src" := "data:image/png;base64,AAAA" ]} []) = [n] /\
    get n "href" = Dom.getAttribute indirectly_wrapped_parent "href" /\
    get n "src" =
      fromString decimalNumber
        (Dom.getAttribute
           (Dom.Element "img" {[ "src" := "data:image/png;base64,AAAA" ]} []) "src").
Proof.
  apply (link_read_from_direct_parent decimalNumber addOptions [indirectly_wrapped_anchor]
           indirectly_wrapped_parent {[ "src" := "data:image/png;base64,AAAA" ]} []).
  - vm_compute. eauto.
  - reflexivity.
  - reflexivity.
Defined.

Lemma get_create given k :
  k ∈ schema_keys ->
  get (create given) k = match get given k with VUndefined => VNull | v => v end.
Proof.
  intros Hk. unfold create. rewrite get_computeAttrs_key by done. reflexivity.
Qed.

Lemma dom_create g : dom (create g) = list_to_set schema_keys.
Proof.
  unfold create, computeAttrs. rewrite dom_list_to_map_L. f_equal.
Qed.

(** X10: a node created from any attribute object has exactly the six
    schema attributes, none of them undefined: a property given takes its
    value, one that is missing or undefined takes null, and properties the
    schema does not know are dropped. Creating a node from a node's own
    attributes gives the same node. *)
Theorem created_node_is_well_formed (given : obj) :
  dom (create given) = list_to_set schema_keys /\
  (forall k, k ∈ schema_keys ->
     get (create given) k <> VUndefined /\
     (get given k <> VUndefined -> get (create given) k = get given k) /\
     (get given k = VUndefined -> get (create given) k = VNull)) /\
  create (create given) = create given.
Proof.
  split; [apply dom_create|]. split.
  - intros k Hk. rewrite get_create by done.
    destruct (get given k); repeat split; try done.
  - apply map_eq. intros k.
    destruct (decide (k ∈ schema_keys)) as [Hk|Hk].
    + pose proof (get_create (create given) k Hk) as H1.
      pose proof (get_create given k Hk) as H2.
      assert (Hd1 : is_Some (create (create given) !! k)).
      { apply elem_of_dom. rewrite dom_create. by apply elem_of_list_to_set. }
      assert (Hd2 : is_Some (create given !! k)).
      { apply elem_of_dom. rewrite dom_create. by apply elem_of_list_to_set. }
      destruct Hd1 as [v1 E1], Hd2 as [v2 E2]. rewrite E1, E2.
      unfold get in H1, H2. rewrite E1, E2 in H1. rewrite E2 in H2. simpl in *.
      f_equal. rewrite H1. destruct v2; try done.
      destruct (given !! k) as [[]|]; simpl in H2; done.
    + assert (create (create given) !! k = None) as ->.
      { apply not_elem_of_dom. rewrite dom_create. by rewrite elem_of_list_to_set. }
      symmetry. apply not_elem_of_dom. rewrite dom_create. by rewrite elem_of_list_to_set.
Qed.

(** ** The link policy *)

Import LinkPolicy.

Lemma isAllowedUri_unfold newURL url ctx :
  isAllowedUri newURL url ctx =
  match newURL (parsed_text url ctx) with
  | Some parsed =>
      negb (includes disallowedProtocols (scheme_of parsed)) &&
      includes (allowed_schemes ctx) (scheme_of parsed) &&
      negb (includes disallowedDomains (hostname parsed))
  | None => false
  end.
Proof.
  unfold isAllowedUri, parsed_text, scheme_of, allowed_schemes.
  destruct (str_includes url ":");
    (destruct (newURL _) as [parsed|]; [|reflexivity]);
    destruct (includes disallowedProtocols _); simpl; try reflexivity;
    destruct (includes (map _ _) _); simpl; try reflexivity;
    destruct (includes disallowedDomains _); reflexivity.
Qed.

(** C7: [isAllowedUri] parses the raw URL as it stands when it holds a
    colon and with the default protocol and [://] before it otherwise; it
    accepts exactly when that text parses, the protocol is neither in the
    fixed disallowed set nor outside the caller's allowed set, and the host
    is not denylisted. With the platform parsing the three texts as stated,
    [javascript:alert(1)] and [ftp://host/x] are rejected, the latter under
    every context and whatever its host, and [example.com] is parsed as
    [https://example.com] and accepted. *)
Theorem isAllowedUri_policy (newURL : string -> option URL) :
  newURL "javascript:alert(1)" = Some {| protocol := "javascript:"; hostname := EmptyString |} ->
  newURL "ftp://host/x" = Some {| protocol := "ftp:"; hostname := "host" |} ->
  newURL "https://example.com" = Some {| protocol := "https:"; hostname := "example.com" |} ->
  (* what is parsed *)
  (forall url ctx,
     parsed_text url ctx =
       if str_includes url ":" then url else defaultProtocol ctx +:+ "://" +:+ url) /\
  (* accepted exactly when the text parses and passes the three checks *)
  (forall url ctx,
     isAllowedUri newURL url ctx = true <->
     exists parsed,
       newURL (parsed_text url ctx) = Some parsed /\
       includes disallowedProtocols (scheme_of parsed) = false /\
       includes (allowed_schemes ctx) (scheme_of parsed) = true /\
       includes disallowedDomains (hostname parsed) = false) /\
  (* the three examples *)
  isAllowedUri newURL "javascript:alert(1)" linkContext = false /\
  (forall ctx, isAllowedUri newURL "ftp://host/x" ctx = false) /\
  (forall url ctx parsed,
     newURL (parsed_text url ctx) = Some parsed -> protocol parsed = "ftp:" ->
     isAllowedUri newURL url ctx = false) /\
  parsed_text "example.com" linkContext = "https://example.com" /\
  isAllowedUri newURL "example.com" linkContext = true.
Proof.
  intros Hjs Hftp Hhttps.
  split; [reflexivity|]. split.
  { intros url ctx. rewrite isAllowedUri_unfold.
    destruct (newURL (parsed_text url ctx)) as [parsed|]; split.
    - intros H. exists parsed. split; [done|].
      destruct (includes disallowedProtocols _); [discriminate|].
      destruct (includes (allowed_schemes ctx) _); [|discriminate].
      destruct (includes disallowedDomains _); [discriminate|]. done.
    - intros (p & [= <-] & -> & -> & ->). reflexivity.
    - discriminate.
    - intros (p & [=] & _). }
  split; [rewrite isAllowedUri_unfold; change (parsed_text _ _) with "javascript:alert(1)"; by rewrite Hjs|].
  split; [intros ctx; rewrite isAllowedUri_unfold; change (parsed_text _ _) with "ftp://host/x"; by rewrite Hftp|].
  split; [intros url ctx parsed Hp Hf; rewrite isAllowedUri_unfold, Hp; unfold scheme_of; by rewrite Hf|].
  split; [reflexivity|].
  rewrite isAllowedUri_unfold. change (parsed_text _ _) with "https://example.com".
  by rewrite Hhttps.
Qed.

(** The stand-in parser parses the three texts as the theorem assumes. *)
Lemma isAllowedUri_policy_witness :
  (forall url ctx,
     parsed_text url ctx =
       if str_includes url ":" then url else defaultProtocol ctx +:+ "://" +:+ url) /\
  (forall url ctx,
     isAllowedUri simpleURL url ctx = true <->
     exists parsed,
       simpleURL (parsed_text url ctx) = Some parsed /\
       includes disallowedProtocols (scheme_of parsed) = false /\
       includes (allowed_schemes ctx) (scheme_of parsed) = true /\
       includes disallowedDomains (hostname parsed) = false) /\
  isAllowedUri simpleURL "javascript:alert(1)" linkContext = false /\
  (forall ctx, isAllowedUri simpleURL "ftp://host/x" ctx = false) /\
  (forall url ctx parsed,
     simpleURL (parsed_text url ctx) = Some parsed -> protocol parsed = "ftp:" ->
     isAllowedUri simpleURL url ctx = false) /\
  parsed_text "example.com" linkContext = "https://example.com" /\
  isAllowedUri simpleURL "example.com" linkContext = true.
Proof.
  apply (isAllowedUri_policy simpleURL); reflexivity.
Defined.

(** ** The link policy: automatic linking *)

Lemma shouldAutoLink_unfold newURL url :
  shouldAutoLink newURL url =
  match newURL (if str_includes url ":" then url else "https://" +:+ url) with
  | Some parsed => negb (includes noAutoLinkDomains (hostname parsed))
  | None => false
  end.
Proof. unfold shouldAutoLink. by destruct (str_includes url ":"). Qed.

(** X11: with [https] as the default protocol, as the editor configures
    it, [shouldAutoLink] parses the same text as [isAllowedUri]. It accepts
    exactly when that text parses and the host is not on the no-autolink
    list, without looking at the protocol; a URL that is allowed is
    auto-linked unless its host is on that list; and a text that does not
    parse is neither allowed nor auto-linked. *)
Theorem autolink_follows_policy (newURL : string -> option URL) url ctx :
  defaultProtocol ctx = "https" ->
  (shouldAutoLink newURL url = true <->
   exists parsed, newURL (parsed_text url ctx) = Some parsed /\
                  includes noAutoLinkDomains (hostname parsed) = false) /\
  (isAllowedUri newURL url ctx = true ->
   exists parsed, newURL (parsed_text url ctx) = Some parsed /\
                  shouldAutoLink newURL url =
                    negb (includes noAutoLinkDomains (hostname parsed))) /\
  (newURL (parsed_text url ctx) = None ->
   shouldAutoLink newURL url = false /\ isAllowedUri newURL url ctx = false).
Proof.
  intros Hd. rewrite shouldAutoLink_unfold, isAllowedUri_unfold.
  assert (Ht : parsed_text url ctx = if str_includes url ":" then url else "https://" +:+ url).
  { unfold parsed_text. by rewrite Hd. }
  rewrite <- Ht. destruct (newURL (parsed_text url ctx)) as [parsed|].
  - split; [|split].
    + split.
      * intros H. exists parsed. split; [done|]. by apply negb_true_iff.
      * intros (p & [= <-] & H). by rewrite H.
    + intros _. by exists parsed.
    + discriminate.
  - split; [|split].
    + split; [discriminate|]. by intros (p & [=] & _).
    + discriminate.
    + done.
Qed.

Lemma autolink_follows_policy_witness :
  (shouldAutoLink simpleURL "example-no-autolink.com/page" = true <->
   exists parsed, simpleURL (parsed_text "example-no-autolink.com/page" linkContext) = Some parsed /\
                  includes noAutoLinkDomains (hostname parsed) = false) /\
  (isAllowedUri simpleURL "example-no-autolink.com/page" linkContext = true ->
   exists parsed, simpleURL (parsed_text "example-no-autolink.com/page" linkContext) = Some parsed /\
                  shouldAutoLink simpleURL "example-no-autolink.com/page" =
                    negb (includes noAutoLinkDomains (hostname parsed))) /\
  (simpleURL (parsed_text "example-no-autolink.com/page" linkContext) = None ->
   shouldAutoLink simpleURL "example-no-autolink.com/page" = false /\
   isAllowedUri simpleURL "example-no-autolink.com/page" linkContext = false).
Proof.
  apply (autolink_follows_policy simpleURL "example-no-autolink.com/page" linkContext).
  reflexivity.
Defined.

(** ** The upload pipeline *)

Import Effects Upload.
Open Scope Z_scope.

Section UploadFacts.
Context {EditorState : Type}.
Variable selection_from : EditorState -> Z.
Variable insert : EditorState -> Z -> obj -> option EditorState.

Lemma filter_nonempty_exists {A} (p : A -> bool) l :
  (exists x, In x l /\ p x = true) -> (0 <? length (List.filter p l))%nat = true.
Proof.
  intros (x & Hin & Hp).
  assert (In x (List.filter p l)) by (apply filter_In; done).
  destruct (List.filter p l); [done|reflexivity].
Qed.

Lemma filter_empty_forall {A} (p : A -> bool) l :
  (forall x, In x l -> p x = false) -> List.filter p l = [].
Proof.
  intros H. induction l as [|x l IH]; simpl; [done|].
  rewrite (H x) by (by left). apply IH. intros; apply H; by right.
Qed.

Lemma handleFiles_accepted warning state files :
  (exists file, In file files /\ accepted file = true) ->
  handleFiles selection_from warning state files =
  {| returned := true;
     effects :=
       ((if (0 <? length (List.filter (fun file => negb (accepted file)) files))%nat
         then [ToastError warning] else [])
        ++ [PreventDefault; ReadSelection (selection_from state)]
        ++ map UploadFile (List.filter accepted files))%list;
     pending := map (fun file => {| task_file := file; task_pos := selection_from state |})
                    (List.filter accepted files) |}.
Proof.
  intros Hacc. pose proof (filter_nonempty_exists _ _ Hacc) as Hne.
  unfold handleFiles.
  destruct files as [|f0 files']; [by destruct Hacc as (? & [] & _)|].
  change (length (f0 :: files') =? 0)%nat with false. cbv iota.
  destruct (List.filter accepted (f0 :: files')) as [|a l] eqn:E; [discriminate|].
  change (length (a :: l) =? 0)%nat with false.
  rewrite andb_false_r. reflexivity.
Qed.

Lemma handleFiles_all_rejected warning state files :
  files <> [] ->
  (forall file, In file files -> accepted file = false) ->
  handleFiles selection_from warning state files =
  {| returned := false; effects := [ToastError warning]; pending := [] |}.
Proof.
  intros Hne Hrej. unfold handleFiles.
  destruct files as [|f0 files']; [done|].
  change (length (f0 :: files') =? 0)%nat with false. cbv iota.
  rewrite (filter_empty_forall accepted) by done.
  assert (Hinv : (0 <? length (List.filter (fun file => negb (accepted file)) (f0 :: files')))%nat = true).
  { apply filter_nonempty_exists. exists f0. split; [by left|].
    rewrite (Hrej f0) by (by left). done. }
  rewrite Hinv. reflexivity.
Qed.

Lemma settle_inserts_only_at task o st :
  inserts_only_at (task_pos task) (snd (settle insert task o st)).
Proof.
  unfold settle, inserts_only_at.
  destruct o as [url|]; [destruct (insert _ _ _) as [st'|]|]; simpl;
    intros x Hx; repeat (destruct Hx as [<- | Hx]); try done; split; congruence.
Qed.

Lemma run_inserts_only_at pos tasks :
  Forall (fun t => task_pos t = pos) tasks ->
  forall events settled st,
    inserts_only_at pos (snd (run insert tasks settled events st)).
Proof.
  intros Htasks events. induction events as [|ev events IH]; intros settled st; simpl.
  - intros e [].
  - destruct ev as [i o|st'']; [|apply IH].
    destruct (tasks !! i) as [task|] eqn:Hi; [|apply IH].
    case_bool_decide; [apply IH|].
    destruct (settle insert task o st) as [st1 e1] eqn:Hs.
    destruct (run insert tasks (i :: settled) events st1) as [st2 e2] eqn:Hr.
    simpl. intros e He. apply in_app_iff in He as [He|He].
    + pose proof (settle_inserts_only_at task o st) as H1. rewrite Hs in H1.
      rewrite Forall_forall in Htasks.
      rewrite <- (Htasks task) by (by eapply list_elem_of_lookup_2).
      by apply H1.
    + specialize (IH (i :: settled) st1). rewrite Hr in IH. by apply IH.
Qed.

Lemma run_first_settlement tasks i task fileUrl post : forall pre settled st st',
  tasks !! i = Some task ->
  i ∉ settled ->
  (forall o, ~ In (Settle i o) pre) ->
  insert (fst (run insert tasks settled pre st)) (task_pos task)
         (CustomImage.create {[ "src" := VStr fileUrl ]}) = Some st' ->
  In (Dispatch (task_pos task) (CustomImage.create {[ "src" := VStr fileUrl ]}))
     (snd (run insert tasks settled (pre ++ Settle i (Resolved fileUrl) :: post) st)).
Proof.
  induction pre as [|ev pre IH]; intros settled st st' Hi Hns Hpre Hins.
  - cbn [app run]. rewrite Hi. rewrite bool_decide_eq_false_2 by done.
    cbn [run fst] in Hins. unfold settle at 1. rewrite Hins.
    destruct (run insert tasks (i :: settled) post st') as [st2 e2]. cbn. by left.
  - assert (Hpre' : forall o, ~ In (Settle i o) pre).
    { intros o Ho. apply (Hpre o). by right. }
    destruct ev as [j o|st'']; cbn [app run] in *.
    + assert (Hji : j <> i).
      { intros ->. apply (Hpre o). by left. }
      destruct (tasks !! j) as [tj|] eqn:Hj; [|by eapply IH].
      case_bool_decide as Hs; [by eapply IH|].
      destruct (settle insert tj o st) as [st1 e1].
      specialize (IH (j :: settled) st1 st' Hi).
      destruct (run insert tasks (j :: settled) pre st1) as [st2 e2] eqn:Hr.
      destruct (run insert tasks (j :: settled)
                  (pre ++ Settle i (Resolved fileUrl) :: post) st1) as [st3 e3].
      cbn [fst snd] in *. apply in_app_iff. right.
      apply IH; [set_solver|done|done].
    + by eapply IH.
Qed.

Lemma handler_inserts_at_captured pos files state :
  inserts_at_captured insert pos
    (map (fun file => {| task_file := file; task_pos := pos |}) files) state.
Proof.
  split.
  - intros task fileUrl st st' Hin Hins.
    apply in_map_iff in Hin as (f & <- & _). unfold settle. cbn [task_pos task_file].
    by rewrite Hins.
  - intros i task fileUrl pre post st' Hi Hpre Hins.
    assert (Hpos : task_pos task = pos).
    { pose proof Hi as Hi'.
      apply list_elem_of_lookup_2, list_elem_of_In, in_map_iff in Hi' as (f & <- & _).
      reflexivity. }
    subst pos.
    eapply run_first_settlement; [exact Hi|apply not_elem_of_nil|exact Hpre|exact Hins].
Qed.

(** C1: in a drop or paste with at least one accepted file the selection
    is read once, before any upload starts; every upload task carries that
    position; every upload that resolves has its node inserted at that
    position, from whatever state the view has by then; and however the
    uploads settle afterwards, in whatever order and with whatever edits in
    between, nothing reads the selection again and every insertion
    dispatched is at the position captured. *)
Theorem gesture_position_captured_once state files events :
  (exists file, In file files /\ accepted file = true) ->
  Forall (fun h : Handled =>
            returned h = true /\
            reads_once_before_uploads (selection_from state) (effects h) /\
            Forall (fun t => task_pos t = selection_from state) (pending h) /\
            map task_file (pending h) = List.filter accepted files /\
            inserts_at_captured insert (selection_from state) (pending h) state /\
            inserts_only_at (selection_from state)
              (snd (run insert (pending h) [] events state)))
         [handleDrop selection_from state files; handlePaste selection_from state files].
Proof.
  intros Hacc.
  assert (H : forall warning,
    let h := handleFiles selection_from warning state files in
    returned h = true /\
    reads_once_before_uploads (selection_from state) (effects h) /\
    Forall (fun t => task_pos t = selection_from state) (pending h) /\
    map task_file (pending h) = List.filter accepted files /\
    inserts_at_captured insert (selection_from state) (pending h) state /\
    inserts_only_at (selection_from state)
      (snd (run insert (pending h) [] events state))).
  { intros warning. cbv zeta. rewrite handleFiles_accepted by done. simpl.
    assert (Hp : Forall (fun t => task_pos t = selection_from state)
                   (map (fun file => {| task_file := file; task_pos := selection_from state |})
                      (List.filter accepted files))).
    { apply Forall_forall. intros t Ht. apply list_elem_of_In, in_map_iff in Ht as (f & <- & _). done. }
    split; [done|]. split; [|split; [done|split; [|split]]].
    - exists ((if (0 <? length (List.filter (fun file => negb (accepted file)) files))%nat
               then [ToastError warning] else []) ++ [PreventDefault])%list,
             (map UploadFile (List.filter accepted files)).
      split; [by rewrite <- app_assoc|]. split.
      + intros e He. apply in_app_iff in He as [He|[<-|[]]]; [|done].
        destruct (0 <? _)%nat; [destruct He as [<-|[]]; done|destruct He].
      + intros e He. apply in_map_iff in He as (f & <- & _). eauto.
    - rewrite map_map. simpl. apply map_id.
    - apply handler_inserts_at_captured.
    - by apply run_inserts_only_at. }
  constructor; [apply H|constructor; [apply H|constructor]].
Qed.

Lemma run_no_tasks events : forall settled st,
  snd (run insert [] settled events st) = [].
Proof.
  induction events as [|ev events IH]; intros settled st; simpl; [done|].
  destruct ev; apply IH.
Qed.

Lemma filter_upload_map l :
  List.filter (fun e => match e with UploadFile _ => true | _ => false end) (map UploadFile l)
  = map UploadFile l.
Proof. induction l; simpl; [done|]. by rewrite IHl. Qed.

Lemma filter_toast_upload_map l :
  List.filter is_toast_error (map UploadFile l) = [].
Proof. induction l; simpl; done. Qed.

Lemma handleFiles_rejected_batch warning state files :
  (exists file, In file files /\ accepted file = false) ->
  rejected_batch_semantics selection_from insert state files warning
    (handleFiles selection_from warning state files).
Proof.
  intros (bad & Hbad & Hrej).
  assert (Hinv : (0 <? length (List.filter (fun file => negb (accepted file)) files))%nat = true).
  { apply filter_nonempty_exists. exists bad. by rewrite Hrej. }
  assert (Hne : files <> []) by (intros ->; destruct Hbad).
  assert (Hcases : (forall file, In file files -> accepted file = false) \/
                   (exists file, In file files /\ accepted file = true)).
  { clear -files. induction files as [|f l IH]; [left; intros ? []|].
    destruct (accepted f) eqn:E; [right; exists f; split; [by left|done]|].
    destruct IH as [IH|(g & ? & ?)].
    - left. intros x [<-|?]; auto.
    - right. exists g. split; [by right|done]. }
  unfold rejected_batch_semantics.
  destruct Hcases as [Hall|Hsome].
  - rewrite handleFiles_all_rejected by done. simpl.
    split; [done|]. split.
    + intros _. split; [done|]. intros. apply run_no_tasks.
    + intros (f & Hin & Hf). rewrite Hall in Hf by done. discriminate.
  - rewrite handleFiles_accepted by done. simpl. rewrite Hinv.
    split; [|split].
    + simpl. by rewrite filter_toast_upload_map.
    + intros Hall. destruct Hsome as (f & Hin & Hf). rewrite Hall in Hf by done. discriminate.
    + intros _. split; [done|]. split; [rewrite map_map; apply map_id|].
      split; [simpl; apply filter_upload_map|].
      intros i task url st st' Hi Hins. cbn [run]. rewrite Hi.
      rewrite Hins.
      apply list_elem_of_lookup_2, list_elem_of_In, in_map_iff in Hi as (f & <- & _).
      reflexivity.
Qed.

(** C8: when a gesture holds a rejected file there is exactly one warning;
    when every file is rejected the handler returns false with the warning
    as its only effect, starts nothing and nothing follows; when some file
    is accepted each accepted file is uploaded and, once its upload
    resolves, inserted. For a PNG and a text file that is one warning and
    one insertion. *)
Theorem rejected_files_warn_once state files :
  (exists file, In file files /\ accepted file = false) ->
  rejected_batch_semantics selection_from insert state files dropWarning
    (handleDrop selection_from state files) /\
  rejected_batch_semantics selection_from insert state files pasteWarning
    (handlePaste selection_from state files) /\
  (forall fileUrl state',
     insert state (selection_from state) (CustomImage.create {[ "src" := VStr fileUrl ]})
       = Some state' ->
     List.filter (fun e => is_toast_error e || is_dispatch e)
       (effects (handleDrop selection_from state [png; txt]) ++
        snd (run insert (pending (handleDrop selection_from state [png; txt])) []
               [Settle 0 (Resolved fileUrl)] state))
     = [ToastError dropWarning;
        Dispatch (selection_from state) (CustomImage.create {[ "src" := VStr fileUrl ]})]).
Proof.
  intros Hrej. split; [by apply handleFiles_rejected_batch|].
  split; [by apply handleFiles_rejected_batch|].
  intros url st' Hins. simpl. rewrite Hins. reflexivity.
Qed.

End UploadFacts.

(** Three files dropped, the uploads settling in reverse order around an edit. *)
Lemma gesture_position_captured_once_witness :
  Forall (fun h : Handled =>
            returned h = true /\
            reads_once_before_uploads 7 (effects h) /\
            Forall (fun t => task_pos t = 7) (pending h) /\
            map task_file (pending h) = List.filter accepted [png; txt; png] /\
            inserts_at_captured toy_insert 7 (pending h) 7 /\
            inserts_only_at 7
              (snd (run toy_insert (pending h) []
                      [Settle 1 (Resolved "https://cdn/2.png"); Edit 42;
                       Settle 0 (Resolved "https://cdn/1.png")] 7)))
         [handleDrop (fun st : Z => st) 7 [png; txt; png];
          handlePaste (fun st : Z => st) 7 [png; txt; png]] /\
  snd (run toy_insert (pending (handleDrop (fun st : Z => st) 7 [png; txt; png])) []
         [Settle 1 (Resolved "https://cdn/2.png"); Edit 42;
          Settle 0 (Resolved "https://cdn/1.png")] 7)
  = [Dispatch 7 (CustomImage.create {[ "src" := VStr "https://cdn/2.png" ]});
     ToastSuccess (uploadedMessage png);
     Dispatch 7 (CustomImage.create {[ "src" := VStr "https://cdn/1.png" ]});
     ToastSuccess (uploadedMessage png)].
Proof.
  split.
  - apply (gesture_position_captured_once (fun st : Z => st) toy_insert 7 [png; txt; png]
             [Settle 1 (Resolved "https://cdn/2.png"); Edit 42;
              Settle 0 (Resolved "https://cdn/1.png")]).
    exists png. split; [by left|reflexivity].
  - vm_compute. reflexivity.
Defined.

Lemma rejected_files_warn_once_witness :
  rejected_batch_semantics (fun st : Z => st) toy_insert 7 [png; txt] dropWarning
    (handleDrop (fun st : Z => st) 7 [png; txt]) /\
  rejected_batch_semantics (fun st : Z => st) toy_insert 7 [png; txt] pasteWarning
    (handlePaste (fun st : Z => st) 7 [png; txt]) /\
  (forall fileUrl state',
     toy_insert 7 7 (CustomImage.create {[ "src" := VStr fileUrl ]}) = Some state' ->
     List.filter (fun e => is_toast_error e || is_dispatch e)
       (effects (handleDrop (fun st : Z => st) 7 [png; txt]) ++
        snd (run toy_insert (pending (handleDrop (fun st : Z => st) 7 [png; txt])) []
               [Settle 0 (Resolved fileUrl)] 7))
     = [ToastError dropWarning;
        Dispatch 7 (CustomImage.create {[ "src" := VStr fileUrl ]})]).
Proof.
  apply (rejected_files_warn_once (fun st : Z => st) toy_insert 7 [png; txt]).
  exists txt. split; [right; by left|reflexivity].
Defined.

(** ** The upload pipeline: who handles the event, and how uploads end *)

Section UploadExtras.
Context {EditorState : Type}.
Variable selection_from : EditorState -> Z.
Variable insert : EditorState -> Z -> obj -> option EditorState.

Lemma accepted_cases files :
  (forall file, In file files -> accepted file = false) \/
  (exists file, In file files /\ accepted file = true).
Proof.
  induction files as [|f l IH]; [left; intros ? []|].
  destruct (accepted f) eqn:E; [right; exists f; split; [by left|done]|].
  destruct IH as [IH|(g & ? & ?)].
  - left. intros x [<-|?]; auto.
  - right. exists g. split; [by right|done].
Qed.

Lemma handleFiles_none_accepted warning state files :
  (forall file, In file files -> accepted file = false) ->
  handleFiles selection_from warning state files =
  {| returned := false;
     effects := if (length files =? 0)%nat then [] else [ToastError warning];
     pending := [] |}.
Proof.
  intros Hrej. destruct files as [|f0 files']; [reflexivity|].
  rewrite (handleFiles_all_rejected selection_from) by done. reflexivity.
Qed.

(** X1: [handleDrop] and [handlePaste] take the event over exactly when
    some file is of an accepted type: only then do they return [true],
    call [preventDefault] and start uploads. When they decline, all they
    may have done is show the warning, and with no file at all they do
    nothing. *)
Theorem handler_takes_over_iff_accepted state files :
  Forall (fun h : Handled =>
            (returned h = true <-> exists file, In file files /\ accepted file = true) /\
            (In PreventDefault (effects h) <-> returned h = true) /\
            (pending h <> [] <-> returned h = true) /\
            (returned h = false ->
             forall e, In e (effects h) -> is_toast_error e = true) /\
            (files = [] -> effects h = []))
         [handleDrop selection_from state files; handlePaste selection_from state files].
Proof.
  assert (H : forall warning,
    let h := handleFiles selection_from warning state files in
    (returned h = true <-> exists file, In file files /\ accepted file = true) /\
    (In PreventDefault (effects h) <-> returned h = true) /\
    (pending h <> [] <-> returned h = true) /\
    (returned h = false -> forall e, In e (effects h) -> is_toast_error e = true) /\
    (files = [] -> effects h = [])).
  { intros warning. cbv zeta. destruct (accepted_cases files) as [Hrej|Hacc].
    - rewrite handleFiles_none_accepted by done. simpl.
      split; [split; [done|]; intros (f & Hin & Hf); rewrite Hrej in Hf; done|].
      split; [split; [|done]; destruct (length files =? 0)%nat; simpl; intuition discriminate|].
      split; [done|].
      split; [intros _ e; destruct (length files =? 0)%nat; simpl; [tauto|]; by intros [<-|[]]|].
      by intros ->.
    - rewrite handleFiles_accepted by done. simpl.
      split; [done|]. split.
      { split; [done|]. intros _. apply in_app_iff. right. by left. }
      split.
      { split; [done|]. intros _. destruct Hacc as (f & Hin & Hf).
        assert (Hin' : In f (List.filter accepted files)) by (by apply filter_In).
        destruct (List.filter accepted files); [destruct Hin'|done]. }
      split; [done|]. intros ->. by destruct Hacc as (? & [] & _). }
  constructor; [apply H|constructor; [apply H|constructor]].
Qed.

Lemma settle_counts task o st :
  let effs := snd (settle insert task o st) in
  length (List.filter is_dispatch effs) = length (List.filter is_toast_success effs) /\
  length (List.filter is_notice effs) = 1%nat.
Proof.
  unfold settle. destruct o as [url|]; [destruct (insert _ _ _)|]; simpl; lia.
Qed.

Lemma run_counts tasks events : forall settled st,
  let effs := snd (run insert tasks settled events st) in
  length (List.filter is_dispatch effs) = length (List.filter is_toast_success effs) /\
  (length (List.filter is_notice effs) <= length (List.filter is_settle events))%nat.
Proof.
  induction events as [|ev events IH]; intros settled st; cbv zeta; simpl.
  - lia.
  - destruct ev as [i o|st'']; [|apply IH]. cbn [is_settle].
    destruct (tasks !! i) as [task|] eqn:Hi;
      [|pose proof (IH settled st) as Hr; cbv zeta in Hr; simpl; lia].
    case_bool_decide as Hs;
      [pose proof (IH settled st) as Hr; cbv zeta in Hr; simpl; lia|].
    pose proof (settle_counts task o st) as Hc. cbv zeta in Hc.
    destruct (settle insert task o st) as [st1 e1].
    pose proof (IH (i :: settled) st1) as Hr. cbv zeta in Hr.
    destruct (run insert tasks (i :: settled) events st1) as [st2 e2].
    simpl in *. rewrite !List.filter_app, !length_app. lia.
Qed.

(** X2: the continuation of an upload ends in exactly one notice. It is
    the success notice exactly when the upload resolved and the engine took
    the insertion, and only then is a node dispatched, at the task's
    position; in every other case it is the failure notice for that file
    and the view's state is left as it was. So in any schedule the
    insertions are as many as the success notices, and the notices are at
    most as many as the settlements. *)
Theorem settlement_ends_in_one_notice tasks events task o st :
  (exists e, List.filter is_notice (snd (settle insert task o st)) = [e] /\
             (e = ToastSuccess (uploadedMessage (task_file task)) \/
              e = ToastError (failedMessage (task_file task)))) /\
  (In (ToastSuccess (uploadedMessage (task_file task))) (snd (settle insert task o st)) <->
   exists fileUrl st',
     o = Resolved fileUrl /\
     insert st (task_pos task) (CustomImage.create {[ "src" := VStr fileUrl ]}) = Some st' /\
     settle insert task o st =
       (st', [Dispatch (task_pos task) (CustomImage.create {[ "src" := VStr fileUrl ]});
              ToastSuccess (uploadedMessage (task_file task))])) /\
  (~ In (ToastSuccess (uploadedMessage (task_file task))) (snd (settle insert task o st)) ->
   settle insert task o st = (st, [ToastError (failedMessage (task_file task))])) /\
  length (List.filter is_dispatch (snd (run insert tasks [] events st)))
    = length (List.filter is_toast_success (snd (run insert tasks [] events st))) /\
  (length (List.filter is_notice (snd (run insert tasks [] events st)))
     <= length (List.filter is_settle events))%nat.
Proof.
  split; [|split; [|split; [|apply run_counts]]].
  - unfold settle. destruct o as [url|]; [destruct (insert _ _ _)|]; simpl; eauto.
  - unfold settle. destruct o as [url|]; [destruct (insert _ _ _) as [st'|] eqn:Hi|]; simpl.
    + split; [|tauto]. intros _. exists url, st'. done.
    + split; [by intros [[=]|[]]|]. by intros (u & s' & [= <-] & Hi' & _); rewrite Hi in Hi'.
    + split; [by intros [[=]|[]]|]. by intros (u & s' & [=] & _).
  - unfold settle. destruct o as [url|]; [destruct (insert _ _ _)|]; simpl; [|done..].
    intros H. exfalso. apply H. right. by left.
Qed.

End UploadExtras.

Import ImageButton.

(** C10: the file picker looks at the first file only. With no file or no
    editor nothing happens; a first file of an unsupported type is reported
    and not uploaded; otherwise exactly that file is uploaded, and at most
    one node is inserted, holding the returned URL as [src] and null in
    every other attribute. The files after the first play no part. *)
Theorem file_picker_first_file_only (file : File) (rest : list File) (o : outcome) :
  (forall editor, gesture editor [] o = []) /\
  (* without an editor nothing happens *)
  gesture false (file :: rest) o = [] /\
  (* a first file of another type is reported; nothing is uploaded *)
  (accepted file = false ->
   gesture true (file :: rest) o = [ToastError invalidMessage]) /\
  (* otherwise the first file, and only it, is uploaded, and one step
     follows: the insertion of a node holding the returned URL, or the
     failure notice *)
  (accepted file = true ->
   exists step,
     gesture true (file :: rest) o =
       [SetIsUploading true; UploadFile file; step; SetIsUploading false; ResetFileInput] /\
     match o with
     | Resolved fileUrl =>
         exists options,
           step = SetImage options /\
           setImage_node options =
             {[ "src" := VStr fileUrl; "alt" := VNull; "title" := VNull;
                "width" := VNull; "height" := VNull; "href" := VNull ]}
     | Rejected => step = ToastError failedMessage
     end).
Proof.
  split; [by intros []|]. split; [reflexivity|]. split.
  - intros H. unfold gesture, handleFileChange. simpl. by rewrite H.
  - intros H. unfold gesture, handleFileChange. simpl. rewrite H. simpl.
    destruct o as [url|]; simpl.
    + eexists. split; [reflexivity|]. eexists. split; [reflexivity|].
      vm_compute. reflexivity.
    + eexists. split; reflexivity.
Qed.

(** ** The link button: which node a selection addresses *)

Import Doc LinkButton.
Open Scope Z_scope.

Lemma nodeSize_branch name a c : nodeSize (PBranch name a c) = 2 + fragment_size c.
Proof.
  reflexivity.
Qed.

Lemma nodeSize_nonneg n : 0 <= nodeSize n.
Proof.
  induction n as [s|name a|name a c IH] using pmnode_nested_ind.
  - simpl. lia.
  - simpl. lia.
  - rewrite nodeSize_branch. induction IH; simpl in *; lia.
Qed.

Lemma fragment_size_nonneg c : 0 <= fragment_size c.
Proof.
  induction c as [|x c IH]; simpl; [lia|]. pose proof (nodeSize_nonneg x). lia.
Qed.

Lemma image_size_pos n : is_image n = true -> 1 <= nodeSize n.
Proof.
  destruct n as [s|name a|name a c]; simpl.
  - discriminate.
  - lia.
  - intros _. fold (fragment_size c). change (1 <= nodeSize (PBranch name a c)).
    rewrite nodeSize_branch. pose proof (fragment_size_nonneg c). lia.
Qed.

(** Every image listed lies inside the content it was found in. *)
Lemma images_bounds n : forall start x,
  In x (images n start) ->
  is_image (fst x) = true /\ start <= snd x /\ snd x + nodeSize (fst x) <= start + content_size n.
Proof.
  induction n as [s|name a|name a c IH] using pmnode_nested_ind; intros start x; simpl; try tauto.
  unfold content_size; simpl.
  assert (Hgo : forall pos, 0 <= pos ->
    In x ((fix go (l : list pmnode) (pos : Z) : list (pmnode * Z) :=
         match l with
         | [] => []
         | child :: l' =>
             ((if is_image child then [(child, start + pos)]
               else images child (start + pos + 1))
              ++ go l' (pos + nodeSize child))%list
         end) c pos) ->
    is_image (fst x) = true /\ start + pos <= snd x /\ snd x + nodeSize (fst x) <= start + pos + fragment_size c).
  { induction IH as [|child l' Hc _ IHl]; intros pos Hpos; simpl; [tauto|].
    rewrite in_app_iff. pose proof (nodeSize_nonneg child) as Hsz.
    pose proof (fragment_size_nonneg l') as Hfs.
    intros [Hin|Hin].
    - destruct (is_image child) eqn:Ei.
      + destruct Hin as [<-|[]]. simpl. split; [done|]. lia.
      + apply Hc in Hin as (? & ? & ?). split; [done|].
        assert (nodeSize child = 2 + content_size child \/ content_size child = 0) as Hcs.
        { destruct child; [right; reflexivity|right; reflexivity|left; apply nodeSize_branch]. }
        pose proof (image_size_pos (fst x) H). lia.
    - apply IHl in Hin as (? & ? & ?); [|lia]. split; [done|]. lia. }
  intros Hin. apply Hgo in Hin; [|lia]. destruct Hin as (? & ? & ?). split; [done|]. lia.
Qed.

Lemma pick_app h1 h2 st : pick (h1 ++ h2) st = pick h2 (pick h1 st).
Proof. apply fold_left_app. Qed.

Lemma content_size_zero_images n start : content_size n = 0 -> images n start = [].
Proof.
  intros Hz. destruct (images n start) as [|x l] eqn:E; [done|].
  assert (Hin : In x (images n start)) by (rewrite E; left; done).
  apply images_bounds in Hin as (Hi & ? & ?).
  pose proof (image_size_pos _ Hi). lia.
Qed.

Lemma filter_touches_clamp n s from to A B :
  A = s + from -> B = s + to ->
  List.filter (touches (s + Z.max 0 from) (s + Z.min (content_size n) to)) (images n s)
  = List.filter (touches A B) (images n s).
Proof.
  intros -> ->. apply filter_ext_in. intros x Hin.
  apply images_bounds in Hin as (Hi & ? & ?).
  pose proof (image_size_pos _ Hi). unfold touches.
  destruct (Z.ltb_spec (snd x) (s + Z.min (content_size n) to));
  destruct (Z.ltb_spec (snd x) (s + to));
  destruct (Z.ltb_spec (s + Z.max 0 from) (snd x + nodeSize (fst x)));
  destruct (Z.ltb_spec (s + from) (snd x + nodeSize (fst x))); simpl; try reflexivity; lia.
Qed.

Lemma filter_touches_none l A B :
  (forall x, In x l -> B <= snd x \/ snd x + nodeSize (fst x) <= A) ->
  List.filter (touches A B) l = [].
Proof.
  intros H. induction l as [|x l IH]; simpl; [done|].
  rewrite IH by (intros; apply H; by right).
  destruct (H x (or_introl eq_refl)); unfold touches;
    [destruct (Z.ltb_spec (snd x) B); [lia|reflexivity]|].
  destruct (Z.ltb_spec A (snd x + nodeSize (fst x))); [lia|].
  by rewrite andb_false_r.
Qed.

Lemma walk_spec n : forall from to nodeStart st,
  to <= content_size n ->
  nodesBetween findImage n from to nodeStart st =
  Some (pick (List.filter (touches (nodeStart + from) (nodeStart + to))
                (images n nodeStart)) st).
Proof.
  induction n as [s|name a|name a c IH] using pmnode_nested_ind;
    intros from to nodeStart st Hto.
  - simpl. unfold content_size in Hto; simpl in Hto.
    destruct (Z.ltb_spec 0 to); [lia|done].
  - simpl. unfold content_size in Hto; simpl in Hto.
    destruct (Z.ltb_spec 0 to); [lia|done].
  - unfold content_size in Hto. simpl in Hto. simpl.
    set (go := fix go (l : list pmnode) (pos : Z) : list (pmnode * Z) := _).
    set (loop := fix loop (l : list pmnode) (pos : Z) (st : found) : option found := _).
    assert (Hgo_lb : forall l pos x, In x (go l pos) -> nodeStart + pos <= snd x).
    { induction l as [|child l' IHl]; intros pos x; simpl; [tauto|].
      rewrite in_app_iff. intros [Hin|Hin].
      - destruct (is_image child); [destruct Hin as [<-|[]]; simpl; lia|].
        apply images_bounds in Hin. lia.
      - apply IHl in Hin. pose proof (nodeSize_nonneg child). lia. }
    assert (Hloop : forall pos st, to <= pos + fragment_size c ->
      loop c pos st =
      Some (pick (List.filter (touches (nodeStart + from) (nodeStart + to)) (go c pos)) st)).
    { clear Hto. induction IH as [|child l' Hc _ IHl]; intros pos st0 Hto; simpl in *.
      - destruct (Z.ltb_spec pos to); [lia|done].
      - destruct (Z.ltb_spec pos to) as [Hlt|Hge].
        + rewrite List.filter_app, pick_app.
          destruct (Z.ltb_spec from (pos + nodeSize child)) as [Hf|Hf].
          * unfold findImage. fold (is_image child).
            destruct (is_image child) eqn:Ei; simpl.
            -- rewrite IHl by lia. f_equal. f_equal. unfold touches; simpl.
               destruct (Z.ltb_spec (nodeStart + pos) (nodeStart + to)); [|lia].
               destruct (Z.ltb_spec (nodeStart + from) (nodeStart + pos + nodeSize child)); [|lia].
               reflexivity.
            -- destruct (Z.eqb_spec (content_size child) 0) as [Hz|Hz]; simpl.
               ++ rewrite IHl by lia. rewrite content_size_zero_images by done. reflexivity.
               ++ rewrite Hc by lia. rewrite IHl by lia.
                  replace (nodeStart + pos + 1) with (nodeStart + (pos + 1)) by lia.
                  rewrite (filter_touches_clamp child (nodeStart + (pos + 1))
                             (from - (pos + 1)) (to - (pos + 1))
                             (nodeStart + from) (nodeStart + to)) by lia.
                  reflexivity.
          * rewrite IHl by lia. f_equal. f_equal.
            rewrite filter_touches_none; [reflexivity|].
            intros x Hin. right. destruct (is_image child) eqn:Ei.
            -- destruct Hin as [<-|[]]. simpl. lia.
            -- apply images_bounds in Hin as (Hi & ? & ?).
               assert (nodeSize child = 2 + content_size child \/ content_size child = 0) as Hcs.
               { destruct child; [right; reflexivity|right; reflexivity|left; apply nodeSize_branch]. }
               pose proof (image_size_pos _ Hi). lia.
        + rewrite filter_touches_none; [reflexivity|].
          intros x Hin. left.
          change (In x (go (child :: l') pos)) in Hin.
          apply Hgo_lb in Hin. lia. }
    rewrite Hloop by lia. reflexivity.
Qed.

Lemma pick_last hits st :
  pick hits st = match last hits with Some x => Some x | None => st end.
Proof.
  induction hits as [|x hits _] using rev_ind; [done|].
  rewrite pick_app, last_snoc. reflexivity.
Qed.

Lemma nodeSize_set_attrs m attrs : nodeSize (set_attrs m attrs) = nodeSize m.
Proof. destruct m; reflexivity. Qed.

Lemma images_not_branch n start x :
  In x (images n start) -> exists name a c, n = PBranch name a c.
Proof. destruct n; simpl; try tauto. eauto. Qed.

#[local] Arguments nodeSize : simpl never.

(** An image listed at [p] is the node that starts at [p], and setting
    its markup there replaces its attributes and nothing else of it. *)
Lemma images_nodeAt attrs n : forall start x,
  In x (images n start) ->
  nodeAt n (snd x - start) = Some (fst x) /\
  exists n', setNodeMarkup n (snd x - start) attrs = Some n' /\
             nodeAt n' (snd x - start) = Some (set_attrs (fst x) attrs) /\
             nodeSize n' = nodeSize n.
Proof.
  induction n as [s|name a|name a c IH] using pmnode_nested_ind; intros start x;
    simpl; try tauto.
  set (go := fix go (l : list pmnode) (pos : Z) : list (pmnode * Z) := _).
  set (find := fix find (l : list pmnode) (pos : Z) : option pmnode := _).
  set (change := fix change (l : list pmnode) (pos : Z) : option (list pmnode) := _).
  assert (Hgo_lb : forall l pos y, In y (go l pos) -> start + pos <= snd y).
  { induction l as [|child l' IHl]; intros pos y; simpl; [tauto|].
    rewrite in_app_iff. intros [Hin|Hin].
    - destruct (is_image child); [destruct Hin as [<-|[]]; simpl; lia|].
      apply images_bounds in Hin. lia.
    - apply IHl in Hin. pose proof (nodeSize_nonneg child). lia. }
  assert (Hgo : forall pos, In x (go c pos) ->
    find c (snd x - start - pos) = Some (fst x) /\
    exists c', change c (snd x - start - pos) = Some c' /\
               find c' (snd x - start - pos) = Some (set_attrs (fst x) attrs) /\
               fragment_size c' = fragment_size c).
  { induction IH as [|child l' Hc _ IHl]; intros pos; simpl; [tauto|].
    rewrite in_app_iff. pose proof (nodeSize_nonneg child) as Hsz. intros [Hin|Hin].
    - destruct (is_image child) eqn:Ei.
      + destruct Hin as [<-|[]]. simpl.
        replace (start + pos - start - pos) with 0 by lia.
        pose proof (image_size_pos _ Ei) as Hpos. simpl.
        destruct (Z.ltb_spec 0 (nodeSize child)); [|lia].
        split; [reflexivity|].
        destruct child as [s|cn ca|cn ca cc]; [discriminate|..]; simpl.
        * eexists. split; [reflexivity|]. simpl. done.
        * eexists. split; [reflexivity|]. simpl.
          rewrite nodeSize_branch in Hpos |- *.
          destruct (Z.ltb_spec 0 (2 + fragment_size cc)); [done|lia].
      + pose proof Hin as Hb. apply images_bounds in Hb as (Hi & Hlo & Hhi).
        pose proof (image_size_pos _ Hi) as Hpos.
        destruct (images_not_branch _ _ _ Hin) as (cn & ca & cc & ->).
        rewrite !nodeSize_branch. rewrite nodeSize_branch in Hsz. unfold content_size in Hhi. simpl in Hhi.
        destruct (Hc _ _ Hin) as (Hat & n' & Hset & Hat' & Hsz').
        replace (snd x - (start + pos + 1)) with (snd x - start - pos - 1) in * by lia.
        destruct (Z.ltb_spec (snd x - start - pos) 0); [lia|].
        destruct (Z.ltb_spec (snd x - start - pos) (2 + fragment_size cc)); [|lia].
        destruct (Z.eqb_spec (snd x - start - pos) 0); [lia|].
        split; [exact Hat|].
        rewrite Hset. simpl. eexists. split; [reflexivity|]. simpl.
        destruct (Z.ltb_spec (snd x - start - pos) 0); [lia|].
        rewrite Hsz', nodeSize_branch.
        destruct (Z.ltb_spec (snd x - start - pos) (2 + fragment_size cc)); [|lia].
        destruct (Z.eqb_spec (snd x - start - pos) 0); [lia|].
        split; [|done].
        destruct n'; [discriminate Hat'|discriminate Hat'|exact Hat'].
    - pose proof (Hgo_lb _ _ _ Hin) as Hlb.
      destruct (IHl _ Hin) as (Hat & c' & Hset & Hat' & Hsz').
      replace (snd x - start - (pos + nodeSize child))
        with (snd x - start - pos - nodeSize child) in * by lia.
      destruct (Z.ltb_spec (snd x - start - pos) 0); [lia|].
      destruct (Z.ltb_spec (snd x - start - pos) (nodeSize child)); [lia|].
      split; [exact Hat|].
      rewrite Hset. simpl. eexists. split; [reflexivity|]. simpl.
      destruct (Z.ltb_spec (snd x - start - pos) 0); [lia|].
      destruct (Z.ltb_spec (snd x - start - pos) (nodeSize child)); [lia|].
      split; [exact Hat'|]. lia. }
  intros Hin. destruct (Hgo 0 Hin) as (Hat & c' & Hset & Hat' & Hsz').
  replace (snd x - start - 0) with (snd x - start) in * by lia.
  split; [exact Hat|]. rewrite Hset. simpl. eexists. split; [reflexivity|].
  simpl. split; [exact Hat'|]. rewrite !nodeSize_branch. lia.
Qed.

Lemma scan_spec editor :
  selection_to editor <= content_size (doc editor) ->
  scan editor =
  Some (last (images_between (doc editor) (selection_from editor) (selection_to editor))).
Proof.
  intros H. unfold scan. rewrite walk_spec by done. rewrite pick_last.
  unfold images_between. simpl. by destruct (last _).
Qed.

Lemma images_between_image doc from to x :
  In x (images_between doc from to) -> is_image (fst x) = true /\ In x (images doc 0).
Proof.
  unfold images_between. rewrite filter_In. intros [Hin _].
  split; [|done]. by apply images_bounds in Hin as (? & _).
Qed.

Lemma last_In {A} (l : list A) x : last l = Some x -> In x l.
Proof.
  intros H. apply last_Some in H as [l' ->]. apply in_app_iff. right. by left.
Qed.

(** C5: when the selection range holds at least one media node, attach
    works on a node: the dialog is prefilled with the [href] of a media
    node of the range (the last one the scan meets), and saving rewrites
    that node's attributes, with [href] the URL entered or null when it is
    empty, whenever the URL passes the check; it reports the URL error and
    does nothing else when the URL fails it; it never sets a link mark.
    Only when the range holds no media node does the prefill come from the
    link mark and saving unset the link mark (empty URL) or set it. *)
Theorem attach_resolves_to_node editor dialog :
  selection_to editor <= content_size (doc editor) ->
  (images_between (doc editor) (selection_from editor) (selection_to editor) <> [] ->
   exists node pos,
     last (images_between (doc editor) (selection_from editor) (selection_to editor))
       = Some (node, pos) /\
     is_image node = true /\
     setLink editor dialog =
       Some {| linkUrl := or_else (get (node_attrs node) "href") (VStr EmptyString);
               isLinkDialogOpen := true; linkError := linkError dialog |} /\
     ((truthy (linkUrl dialog) = false \/
       Regex.test urlRegex (to_string (linkUrl dialog)) = true) ->
      handleSaveLink editor dialog =
        Some (closed,
              Some (SetNodeMarkup pos
                      (<[ "href" := or_else (linkUrl dialog) VNull ]> (node_attrs node))))) /\
     (truthy (linkUrl dialog) = true ->
      Regex.test urlRegex (to_string (linkUrl dialog)) = false ->
      handleSaveLink editor dialog =
        Some ({| linkUrl := linkUrl dialog; isLinkDialogOpen := isLinkDialogOpen dialog;
                 linkError := Some urlError |}, None))) /\
  (images_between (doc editor) (selection_from editor) (selection_to editor) = [] ->
   setLink editor dialog =
     Some {| linkUrl := or_else (link_href editor) (VStr EmptyString);
             isLinkDialogOpen := true; linkError := linkError dialog |} /\
   (linkUrl dialog = VStr EmptyString ->
    handleSaveLink editor dialog = Some (closed, Some UnsetLink)) /\
   (linkUrl dialog <> VStr EmptyString ->
    (truthy (linkUrl dialog) = false \/
     Regex.test urlRegex (to_string (linkUrl dialog)) = true) ->
    handleSaveLink editor dialog = Some (closed, Some (SetLinkMark (linkUrl dialog)))) /\
   (truthy (linkUrl dialog) = true ->
    Regex.test urlRegex (to_string (linkUrl dialog)) = false ->
    handleSaveLink editor dialog =
      Some ({| linkUrl := linkUrl dialog; isLinkDialogOpen := isLinkDialogOpen dialog;
               linkError := Some urlError |}, None))).
Proof.
  intros Hsel. pose proof (scan_spec editor Hsel) as Hscan.
  split.
  - intros Hne.
    destruct (last (images_between _ _ _)) as [[node pos]|] eqn:Hlast.
    + exists node, pos. split; [done|].
      split; [by apply last_In, images_between_image in Hlast as [? _]|].
      unfold setLink, handleSaveLink. rewrite Hscan. split; [done|]. split.
      * intros [-> | ->]; [reflexivity|]. by rewrite andb_false_r.
      * intros -> ->. reflexivity.
    + apply last_None in Hlast. done.
  - intros Hnil. rewrite Hnil in Hscan. simpl in Hscan.
    unfold setLink, handleSaveLink. rewrite Hscan. split; [done|]. split; [|split].
    + intros ->. reflexivity.
    + intros Hne [-> | ->]; rewrite ?andb_false_r; cbn [andb];
        by rewrite bool_decide_eq_false_2.
    + intros -> ->. reflexivity.
Qed.

(** An image between two texts, the selection spanning all three: saving
    a valid URL rewrites the image at position 3. *)
Lemma attach_resolves_to_node_witness :
  (exists node pos,
    last (images_between example_doc 2 5) = Some (node, pos) /\
    is_image node = true /\
    setLink example_editor example_dialog =
      Some {| linkUrl := or_else (get (node_attrs node) "href") (VStr EmptyString);
              isLinkDialogOpen := true; linkError := None |} /\
    ((truthy (linkUrl example_dialog) = false \/
      Regex.test urlRegex (to_string (linkUrl example_dialog)) = true) ->
     handleSaveLink example_editor example_dialog =
       Some (closed,
             Some (SetNodeMarkup pos
                     (<[ "href" := or_else (linkUrl example_dialog) VNull ]>
                        (node_attrs node))))) /\
    (truthy (linkUrl example_dialog) = true ->
     Regex.test urlRegex (to_string (linkUrl example_dialog)) = false ->
     handleSaveLink example_editor example_dialog =
       Some ({| linkUrl := linkUrl example_dialog; isLinkDialogOpen := true;
                linkError := Some urlError |}, None))) /\
  handleSaveLink example_editor example_dialog =
    Some (closed,
          Some (SetNodeMarkup 3
                  (<[ "href" := VStr "https://example.com" ]>
                     (CustomImage.create {[ "src" := VStr "a.png" ]})))).
Proof.
  split.
  - apply (proj1 (attach_resolves_to_node example_editor example_dialog
                    ltac:(vm_compute; discriminate))).
    vm_compute. discriminate.
  - vm_compute. reflexivity.
Defined.

(** C6: when saving rewrites a node, the node is a media node of the
    range and the one at the position addressed; the new attribute set has
    [href] equal to the submitted URL, or null when that is empty, and every
    other attribute as before; and the document after the command holds, at
    that position, the same node with exactly the new attributes. *)
Theorem node_commit_changes_only_href editor dialog dialog' pos newAttrs :
  selection_to editor <= content_size (doc editor) ->
  handleSaveLink editor dialog = Some (dialog', Some (SetNodeMarkup pos newAttrs)) ->
  exists node,
    In (node, pos)
       (images_between (doc editor) (selection_from editor) (selection_to editor)) /\
    nodeAt (doc editor) pos = Some node /\
    get newAttrs "href" = (if truthy (linkUrl dialog) then linkUrl dialog else VNull) /\
    (linkUrl dialog = VStr EmptyString -> get newAttrs "href" = VNull) /\
    (forall k, k <> "href" -> newAttrs !! k = node_attrs node !! k) /\
    exists doc',
      apply (SetNodeMarkup pos newAttrs) (doc editor) = Some doc' /\
      nodeAt doc' pos = Some (set_attrs node newAttrs) /\
      node_attrs (set_attrs node newAttrs) = newAttrs.
Proof.
  intros Hsel Hsave. pose proof (scan_spec editor Hsel) as Hscan.
  unfold handleSaveLink in Hsave. rewrite Hscan in Hsave.
  destruct (truthy (linkUrl dialog) && negb (Regex.test urlRegex (to_string (linkUrl dialog))));
    [discriminate|].
  destruct (last (images_between _ _ _)) as [[node p]|] eqn:Hlast.
  2:{ case_bool_decide; discriminate. }
  injection Hsave as _ <- <-. exists node.
  pose proof (last_In _ _ Hlast) as Hin.
  destruct (images_between_image _ _ _ _ Hin) as [Himg Hall]. simpl in Himg.
  destruct (images_nodeAt (<["href":=or_else (linkUrl dialog) VNull]> (node_attrs node))
              _ _ _ Hall) as (Hat & doc' & Hset & Hat' & _).
  simpl in Hat, Hset, Hat'. replace (p - 0) with p in * by lia.
  split; [done|]. split; [done|].
  split; [unfold get; by rewrite lookup_insert_eq|].
  split; [intros ->; unfold get; by rewrite lookup_insert_eq|].
  split; [intros k Hk; by rewrite lookup_insert_ne|].
  exists doc'. split; [done|]. split; [done|].
  destruct node; [discriminate Himg|reflexivity|reflexivity].
Qed.

(** Saving [https://example.com] on the image of the example document. *)
Lemma node_commit_changes_only_href_witness :
  exists node,
    In (node, 3) (images_between example_doc 2 5) /\
    nodeAt example_doc 3 = Some node /\
    get (<[ "href" := VStr "https://example.com" ]>
           (CustomImage.create {[ "src" := VStr "a.png" ]})) "href"
    = VStr "https://example.com" /\
    (linkUrl example_dialog = VStr EmptyString ->
     get (<[ "href" := VStr "https://example.com" ]>
            (CustomImage.create {[ "src" := VStr "a.png" ]})) "href" = VNull) /\
    (forall k, k <> "href" ->
       (<[ "href" := VStr "https://example.com" ]>
          (CustomImage.create {[ "src" := VStr "a.png" ]}) : obj) !! k
       = node_attrs node !! k) /\
    exists doc',
      apply (SetNodeMarkup 3 (<[ "href" := VStr "https://example.com" ]>
                                (CustomImage.create {[ "src" := VStr "a.png" ]})))
            example_doc = Some doc' /\
      nodeAt doc' 3 =
        Some (set_attrs node (<[ "href" := VStr "https://example.com" ]>
                                (CustomImage.create {[ "src" := VStr "a.png" ]}))) /\
      node_attrs (set_attrs node (<[ "href" := VStr "https://example.com" ]>
                                    (CustomImage.create {[ "src" := VStr "a.png" ]})))
      = <[ "href" := VStr "https://example.com" ]>
          (CustomImage.create {[ "src" := VStr "a.png" ]}).
Proof.
  apply (node_commit_changes_only_href example_editor example_dialog closed 3
           (<[ "href" := VStr "https://example.com" ]>
              (CustomImage.create {[ "src" := VStr "a.png" ]}))).
  - vm_compute. discriminate.
  - vm_compute. reflexivity.
Defined.

(** ** The link button: repeated and untouched edits *)

Lemma map_retag_id attrs pos l :
  (forall x, In x l -> snd x <> pos) -> map (retag attrs pos) l = l.
Proof.
  intros H. induction l as [|x l IH]; simpl; [done|].
  rewrite IH by (intros; apply H; by right). f_equal. unfold retag.
  destruct (Z.eqb_spec (snd x) pos) as [E|]; [|done]. by apply H in E; [|left].
Qed.

Lemma images_set_attrs_branch name a a' c start :
  images (PBranch name a c) start = images (PBranch name a' c) start.
Proof. reflexivity. Qed.

Lemma set_attrs_id m : set_attrs m (node_attrs m) = m.
Proof. by destruct m. Qed.

Lemma setNodeMarkup_branch n p attrs n' :
  setNodeMarkup n p attrs = Some n' ->
  exists name a c c', n = PBranch name a c /\ n' = PBranch name a c'.
Proof.
  destruct n as [s|name a|name a c]; simpl; try discriminate.
  destruct ((fix change (l : list pmnode) (pos : Z) : option (list pmnode) := _) c p)
    as [c'|]; simpl; [|discriminate].
  intros [= <-]. by exists name, a, c, c'.
Qed.

(** Setting the markup of a listed media node: the result keeps every
    size, lists the same media nodes with the one at the position
    re-attributed, is unchanged when the attributes are the node's own, and
    is reproduced by setting the same markup again. *)
Lemma images_setNodeMarkup attrs n : forall start x,
  In x (images n start) ->
  exists n',
    setNodeMarkup n (snd x - start) attrs = Some n' /\
    nodeSize n' = nodeSize n /\
    images n' start = map (retag attrs (snd x)) (images n start) /\
    (attrs = node_attrs (fst x) -> n' = n) /\
    setNodeMarkup n' (snd x - start) attrs = Some n'.
Proof.
  induction n as [s|name a|name a c IH] using pmnode_nested_ind; intros start x;
    simpl; try tauto.
  set (go := fun st => fix go (l : list pmnode) (pos : Z) : list (pmnode * Z) :=
         match l with
         | [] => []
         | child :: l' =>
             ((if is_image child then [(child, st + pos)]
               else images child (st + pos + 1))
              ++ go l' (pos + nodeSize child))%list
         end).
  change (In x (go start c 0) ->
          exists n', option_map (PBranch name a)
                       ((fix change (l : list pmnode) (pos : Z) : option (list pmnode) :=
                           match l with
                           | [] => None
                           | child :: l' =>
                               if pos <? 0 then None
                               else if pos <? nodeSize child then
                                 match child with
                                 | PText _ => None
                                 | PLeaf ct _ =>
                                     if pos =? 0 then Some (PLeaf ct attrs :: l') else None
                                 | PBranch ct _ cc =>
                                     if pos =? 0 then Some (PBranch ct attrs cc :: l')
                                     else option_map (fun child' => child' :: l')
                                            (setNodeMarkup child (pos - 1) attrs)
                                 end
                               else option_map (cons child) (change l' (pos - nodeSize child))
                           end) c (snd x - start)) = Some n' /\
            nodeSize n' = nodeSize (PBranch name a c) /\
            images n' start = map (retag attrs (snd x)) (go start c 0) /\
            (attrs = node_attrs (fst x) -> n' = PBranch name a c) /\
            setNodeMarkup n' (snd x - start) attrs = Some n').
  set (change := fix change (l : list pmnode) (pos : Z) : option (list pmnode) := _).
  assert (Hgo_lb : forall l pos y, In y (go start l pos) -> start + pos <= snd y).
  { induction l as [|child l' IHl]; intros pos y; simpl; [tauto|].
    rewrite in_app_iff. intros [Hin|Hin].
    - destruct (is_image child); [destruct Hin as [<-|[]]; simpl; lia|].
      apply images_bounds in Hin. lia.
    - apply IHl in Hin. pose proof (nodeSize_nonneg child). lia. }
  assert (Hhead_ub : forall child pos y,
            In y (if is_image child then [(child, start + pos)]
                  else images child (start + pos + 1)) ->
            snd y < start + pos + nodeSize child /\ start + pos <= snd y).
  { intros child pos y Hin. destruct (is_image child) eqn:Ei.
    - destruct Hin as [<-|[]]. simpl. pose proof (image_size_pos _ Ei). lia.
    - pose proof Hin as Hb. apply images_bounds in Hb as (Hi & ? & ?).
      pose proof (image_size_pos _ Hi).
      destruct (images_not_branch _ _ _ Hin) as (cn & ca & cc & ->).
      rewrite nodeSize_branch. unfold content_size in *. simpl in *. lia. }
  assert (Hgo : forall pos, In x (go start c pos) ->
    exists c',
      change c (snd x - start - pos) = Some c' /\
      fragment_size c' = fragment_size c /\
      go start c' pos = map (retag attrs (snd x)) (go start c pos) /\
      (attrs = node_attrs (fst x) -> c' = c) /\
      change c' (snd x - start - pos) = Some c').
  { induction IH as [|child l' Hc _ IHl]; intros pos; simpl; [tauto|].
    rewrite in_app_iff. pose proof (nodeSize_nonneg child) as Hsz. intros [Hin|Hin].
    - (* the node is this child or inside it *)
      pose proof (Hhead_ub _ _ _ Hin) as [Hub Hlb].
      assert (Hrest : map (retag attrs (snd x)) (go start l' (pos + nodeSize child))
                      = go start l' (pos + nodeSize child)).
      { apply map_retag_id. intros y Hy. apply Hgo_lb in Hy. lia. }
      destruct (is_image child) eqn:Ei.
      + destruct Hin as [<-|[]]. cbn [fst snd] in *.
        replace (start + pos - start - pos) with 0 by lia.
        pose proof (image_size_pos _ Ei) as Hpos.
        destruct (Z.ltb_spec 0 0); [lia|].
        destruct (Z.ltb_spec 0 (nodeSize child)); [|lia].
        destruct child as [s|cn ca|cn ca cc]; [discriminate|..]; cbn [Z.eqb].
        * eexists. split; [reflexivity|]. split; [reflexivity|].
          split; [|split].
          -- simpl. change (is_image (PLeaf cn attrs)) with (is_image (PLeaf cn ca)).
             rewrite Ei. simpl. unfold retag at 1. cbn [fst snd].
             rewrite Z.eqb_refl. f_equal. symmetry. exact Hrest.
          -- simpl. intros ->. reflexivity.
          -- simpl. destruct (Z.ltb_spec 0 0); [lia|].
             change (nodeSize (PLeaf cn attrs)) with 1. reflexivity.
        * eexists. split; [reflexivity|]. split; [reflexivity|].
          split; [|split].
          -- simpl. change (is_image (PBranch cn attrs cc)) with (is_image (PBranch cn ca cc)).
             rewrite Ei. simpl. unfold retag at 1. cbn [fst snd].
             rewrite Z.eqb_refl.
             change (nodeSize (PBranch cn attrs cc)) with (nodeSize (PBranch cn ca cc)).
             f_equal. symmetry. exact Hrest.
          -- simpl. intros ->. reflexivity.
          -- simpl. destruct (Z.ltb_spec 0 0); [lia|].
             change (nodeSize (PBranch cn attrs cc)) with (nodeSize (PBranch cn ca cc)).
             destruct (Z.ltb_spec 0 (nodeSize (PBranch cn ca cc))); [reflexivity|lia].
      + pose proof Hin as Hb. apply images_bounds in Hb as (Hi & Hlo & Hhi).
        pose proof (image_size_pos _ Hi) as Hpos.
        destruct (images_not_branch _ _ _ Hin) as (cn & ca & cc & ->).
        destruct (Hc _ _ Hin) as (n' & Hset & Hsz' & Himgs & Hid & Hagain).
        replace (snd x - (start + pos + 1)) with (snd x - start - pos - 1) in * by lia.
        destruct (Z.ltb_spec (snd x - start - pos) 0); [lia|].
        destruct (Z.ltb_spec (snd x - start - pos) (nodeSize (PBranch cn ca cc))); [|lia].
        destruct (Z.eqb_spec (snd x - start - pos) 0); [lia|].
        rewrite Hset. cbn [option_map]. eexists. split; [reflexivity|].
        split; [simpl; lia|]. split; [|split].
        * simpl. rewrite Hsz'.
          assert (Ei' : is_image n' = false).
          { destruct (setNodeMarkup_branch _ _ _ _ Hset) as (? & ? & ? & ? & [= <- <- <-] & ->).
            exact Ei. }
          rewrite Ei', Himgs, map_app, Hrest. reflexivity.
        * intros Ha. by rewrite (Hid Ha).
        * simpl. destruct (Z.ltb_spec (snd x - start - pos) 0); [lia|].
          rewrite Hsz'.
          destruct (Z.ltb_spec (snd x - start - pos) (nodeSize (PBranch cn ca cc))); [|lia].
          destruct (setNodeMarkup_branch _ _ _ _ Hset) as (? & ? & ? & cc' & _ & ->).
          destruct (Z.eqb_spec (snd x - start - pos) 0); [lia|].
          rewrite Hagain. reflexivity.
    - (* the node is further on *)
      pose proof (Hgo_lb _ _ _ Hin) as Hlb.
      destruct (IHl _ Hin) as (c' & Hset & Hsz' & Himgs & Hid & Hagain).
      replace (snd x - start - (pos + nodeSize child))
        with (snd x - start - pos - nodeSize child) in * by lia.
      destruct (Z.ltb_spec (snd x - start - pos) 0); [lia|].
      destruct (Z.ltb_spec (snd x - start - pos) (nodeSize child)); [lia|].
      rewrite Hset. cbn [option_map]. eexists. split; [reflexivity|].
      split; [simpl; lia|]. split; [|split].
      * simpl. rewrite map_app, Himgs. f_equal.
        symmetry. apply map_retag_id. intros y Hy.
        apply Hhead_ub in Hy. lia.
      * intros Ha. by rewrite (Hid Ha).
      * simpl. destruct (Z.ltb_spec (snd x - start - pos) 0); [lia|].
        destruct (Z.ltb_spec (snd x - start - pos) (nodeSize child)); [lia|].
        rewrite Hagain. reflexivity. }
  intros Hin. destruct (Hgo 0 Hin) as (c' & Hset & Hsz' & Himgs & Hid & Hagain).
  replace (snd x - start - 0) with (snd x - start) in * by lia.
  rewrite Hset. cbn [option_map]. eexists. split; [reflexivity|].
  split; [rewrite !nodeSize_branch; lia|]. split; [exact Himgs|].
  split; [intros Ha; by rewrite (Hid Ha)|].
  simpl. fold change. rewrite Hagain. reflexivity.
Qed.

Lemma touches_retag attrs pos from to x :
  touches from to (retag attrs pos x) = touches from to x.
Proof.
  unfold retag, touches. destruct (snd x =? pos); [|done].
  simpl. by rewrite nodeSize_set_attrs.
Qed.

Lemma filter_map_retag attrs pos from to l :
  List.filter (touches from to) (map (retag attrs pos) l)
  = map (retag attrs pos) (List.filter (touches from to) l).
Proof.
  induction l as [|x l IH]; simpl; [done|]. rewrite touches_retag.
  destruct (touches from to x); simpl; by rewrite IH.
Qed.

Lemma last_map {A B} (f : A -> B) l : last (map f l) = f <$> last l.
Proof.
  induction l as [|x l _] using rev_ind; [done|].
  rewrite map_app. simpl. by rewrite !last_snoc.
Qed.

Lemma content_size_branch n : (exists name a c, n = PBranch name a c) ->
  nodeSize n = 2 + content_size n.
Proof. intros (name & a & c & ->). apply nodeSize_branch. Qed.

Lemma images_between_setNodeMarkup attrs d from to x :
  In x (images_between d from to) ->
  exists d',
    setNodeMarkup d (snd x) attrs = Some d' /\
    content_size d' = content_size d /\
    images_between d' from to = map (retag attrs (snd x)) (images_between d from to) /\
    (attrs = node_attrs (fst x) -> d' = d) /\
    setNodeMarkup d' (snd x) attrs = Some d'.
Proof.
  intros Hin. apply images_between_image in Hin as [_ Hin].
  destruct (images_setNodeMarkup attrs _ _ _ Hin) as (d' & Hset & Hsz & Himgs & Hid & Hagain).
  replace (snd x - 0) with (snd x) in * by lia.
  exists d'. split; [done|]. split.
  { destruct (setNodeMarkup_branch _ _ _ _ Hset) as (nm & a & c & c' & -> & ->).
    rewrite !nodeSize_branch in Hsz. unfold content_size. simpl. lia. }
  split; [|done]. unfold images_between. by rewrite Himgs, filter_map_retag.
Qed.

(** X3: removing the link of a selection is idempotent. The command
    [unsetLink] runs sets [href] to null on the media node it addresses
    (or unsets the link mark); in the document that results the same
    selection gives the same command, and running it again changes
    nothing. *)
Theorem unsetLink_twice editor :
  selection_to editor <= content_size (doc editor) ->
  exists c doc',
    unsetLink editor = Some c /\
    apply c (doc editor) = Some doc' /\
    unsetLink (with_doc editor doc') = Some c /\
    apply c doc' = Some doc' /\
    (forall pos attrs, c = SetNodeMarkup pos attrs ->
       get attrs "href" = VNull /\
       exists node, nodeAt doc' pos = Some node /\ node_attrs node = attrs).
Proof.
  intros Hsel. pose proof (scan_spec editor Hsel) as Hscan.
  unfold unsetLink. rewrite Hscan.
  destruct (last (images_between _ _ _)) as [[node pos]|] eqn:Hlast.
  - pose proof (last_In _ _ Hlast) as Hin.
    set (attrs := <["href":=VNull]> (node_attrs node)).
    destruct (images_between_setNodeMarkup attrs _ _ _ _ Hin)
      as (d' & Hset & Hsz & Himgs & _ & Hagain). simpl in Hset, Hagain, Himgs.
    exists (SetNodeMarkup pos attrs), d'. split; [done|]. split; [exact Hset|].
    assert (Hsel' : selection_to (with_doc editor d') <= content_size (doc (with_doc editor d')))
      by (simpl; lia).
    rewrite (scan_spec _ Hsel'). simpl. rewrite Himgs, last_map, Hlast. simpl.
    unfold retag. simpl. rewrite Z.eqb_refl. simpl.
    assert (Himg : is_image node = true).
    { by apply images_between_image in Hin as [? _]. }
    assert (Hattrs : node_attrs (set_attrs node attrs) = attrs).
    { destruct node; [discriminate Himg|done|done]. }
    rewrite Hattrs. unfold attrs at 1. rewrite insert_insert_eq. fold attrs.
    split; [done|]. split; [exact Hagain|].
    intros pos' attrs' [= <- <-]. split; [unfold get, attrs; by rewrite lookup_insert_eq|].
    apply images_between_image in Hin as [_ Hin].
    destruct (images_nodeAt attrs _ _ _ Hin) as (_ & d'' & Hset' & Hat & _).
    simpl in Hset', Hat. replace (pos - 0) with pos in * by lia.
    rewrite Hset in Hset'. injection Hset' as <-.
    exists (set_attrs node attrs). done.
  - exists UnsetLink, (doc editor). split; [done|]. split; [done|].
    assert (Hsel' : selection_to (with_doc editor (doc editor))
                    <= content_size (doc (with_doc editor (doc editor)))) by done.
    rewrite (scan_spec _ Hsel'). simpl. rewrite Hlast. done.
Qed.

Lemma unsetLink_twice_witness :
  exists c doc',
    unsetLink example_editor = Some c /\
    apply c (doc example_editor) = Some doc' /\
    unsetLink (with_doc example_editor doc') = Some c /\
    apply c doc' = Some doc' /\
    (forall pos attrs, c = SetNodeMarkup pos attrs ->
       get attrs "href" = VNull /\
       exists node, nodeAt doc' pos = Some node /\ node_attrs node = attrs).
Proof.
  apply (unsetLink_twice example_editor). vm_compute. discriminate.
Defined.

(** X4: opening the link dialog on a media node and saving it untouched
    leaves the document as it is: the prefilled URL is the node's own
    [href], so saving either reports it as invalid or rewrites the node
    with the attributes it already has. *)
Theorem open_then_save_changes_nothing editor dialog node pos v :
  selection_to editor <= content_size (doc editor) ->
  last (images_between (doc editor) (selection_from editor) (selection_to editor))
    = Some (node, pos) ->
  node_attrs node !! "href" = Some v ->
  (v = VNull \/ exists s, s <> EmptyString /\ v = VStr s) ->
  exists opened,
    setLink editor dialog = Some opened /\
    ((truthy v = true /\ Regex.test urlRegex (to_string v) = false /\
      handleSaveLink editor opened =
        Some ({| linkUrl := v; isLinkDialogOpen := true; linkError := Some urlError |}, None))
     \/
     ((truthy v = false \/ Regex.test urlRegex (to_string v) = true) /\
      handleSaveLink editor opened =
        Some (closed, Some (SetNodeMarkup pos (node_attrs node))) /\
      apply (SetNodeMarkup pos (node_attrs node)) (doc editor) = Some (doc editor))).
Proof.
  intros Hsel Hlast Hhref Hv. pose proof (scan_spec editor Hsel) as Hscan.
  unfold setLink, handleSaveLink. rewrite Hscan, Hlast.
  eexists. split; [reflexivity|]. cbn [linkUrl isLinkDialogOpen].
  assert (Hget : get (node_attrs node) "href" = v) by (unfold get; by rewrite Hhref).
  rewrite Hget.
  pose proof (last_In _ _ Hlast) as Hin.
  destruct (images_between_setNodeMarkup (node_attrs node) _ _ _ _ Hin)
    as (d' & Hset & _ & _ & Hid & _). simpl in Hset, Hid.
  rewrite (Hid eq_refl) in Hset.
  destruct Hv as [->|(s & Hs & ->)].
  - right. simpl. split; [by left|]. split; [|exact Hset].
    rewrite insert_id by done. reflexivity.
  - assert (Ht : truthy (VStr s) = true).
    { simpl. destruct (String.eqb_spec s EmptyString); done. }
    unfold or_else. rewrite !Ht. change (to_string (VStr s)) with s.
    destruct (Regex.test urlRegex s) eqn:Er; simpl.
    + right. split; [by right|]. split; [|exact Hset].
      rewrite insert_id by done. reflexivity.
    + left. done.
Qed.

Lemma open_then_save_changes_nothing_witness :
  exists opened,
    setLink example_editor example_dialog = Some opened /\
    ((truthy VNull = true /\ Regex.test urlRegex (to_string VNull) = false /\
      handleSaveLink example_editor opened =
        Some ({| linkUrl := VNull; isLinkDialogOpen := true; linkError := Some urlError |}, None))
     \/
     ((truthy VNull = false \/ Regex.test urlRegex (to_string VNull) = true) /\
      handleSaveLink example_editor opened =
        Some (closed, Some (SetNodeMarkup 3 (CustomImage.create {[ "src" := VStr "a.png" ]}))) /\
      apply (SetNodeMarkup 3 (CustomImage.create {[ "src" := VStr "a.png" ]}))
            (doc example_editor) = Some (doc example_editor))).
Proof.
  apply (open_then_save_changes_nothing example_editor example_dialog
           (PLeaf "customImage" (CustomImage.create {[ "src" := VStr "a.png" ]})) 3 VNull).
  - vm_compute. discriminate.
  - vm_compute. reflexivity.
  - vm_compute. reflexivity.
  - by left.
Defined.

Lemma StronglySorted_app_lt (l1 l2 : list (pmnode * Z)) :
  StronglySorted (fun x y => snd x < snd y) l1 ->
  StronglySorted (fun x y => snd x < snd y) l2 ->
  (forall x y, In x l1 -> In y l2 -> snd x < snd y) ->
  StronglySorted (fun x y => snd x < snd y) (l1 ++ l2).
Proof.
  intros H1 H2 H12. induction H1 as [|x l1 Hs IH Hall]; simpl; [done|].
  constructor.
  - apply IH. intros; apply H12; [by right|done].
  - apply Forall_app. split; [done|].
    apply Forall_forall. intros y Hy. apply H12; [by left|by apply list_elem_of_In].
Qed.

(** The media nodes are listed in document order. *)
Lemma images_sorted n : forall start,
  StronglySorted (fun x y => snd x < snd y) (images n start).
Proof.
  induction n as [s|name a|name a c IH] using pmnode_nested_ind; intros start;
    simpl; try constructor.
  set (go := fix go (l : list pmnode) (pos : Z) : list (pmnode * Z) := _).
  assert (Hgo_lb : forall l pos y, In y (go l pos) -> start + pos <= snd y).
  { induction l as [|child l' IHl]; intros pos y; simpl; [tauto|].
    rewrite in_app_iff. intros [Hin|Hin].
    - destruct (is_image child); [destruct Hin as [<-|[]]; simpl; lia|].
      apply images_bounds in Hin. lia.
    - apply IHl in Hin. pose proof (nodeSize_nonneg child). lia. }
  generalize 0. induction IH as [|child l' Hc _ IHl]; intros pos; simpl; [constructor|].
  apply StronglySorted_app_lt.
  - destruct (is_image child); [repeat constructor|apply Hc].
  - apply IHl.
  - intros x y Hx Hy. apply Hgo_lb in Hy.
    destruct (is_image child) eqn:Ei.
    + destruct Hx as [<-|[]]. simpl. pose proof (image_size_pos _ Ei). lia.
    + pose proof Hx as Hb. apply images_bounds in Hb as (Hi & ? & ?).
      pose proof (image_size_pos _ Hi).
      destruct (images_not_branch _ _ _ Hx) as (cn & ca & cc & ->).
      rewrite nodeSize_branch in Hy. unfold content_size in *. simpl in *. lia.
Qed.

Lemma StronglySorted_filter_lt (p : pmnode * Z -> bool) l :
  StronglySorted (fun x y => snd x < snd y) l ->
  StronglySorted (fun x y => snd x < snd y) (List.filter p l).
Proof.
  induction 1 as [|x l Hs IH Hall]; simpl; [constructor|].
  destruct (p x); [|done]. constructor; [done|].
  apply Forall_forall. intros y Hy. apply list_elem_of_In, filter_In in Hy as [Hy _].
  rewrite Forall_forall in Hall. by apply Hall, list_elem_of_In.
Qed.

Lemma sorted_last_greatest (l : list (pmnode * Z)) x :
  StronglySorted (fun x y => snd x < snd y) l ->
  last l = Some x ->
  forall y, In y l -> y = x \/ snd y < snd x.
Proof.
  intros Hs. induction Hs as [|z l Hs IH Hall]; [done|].
  intros Hlast y Hy. destruct l as [|z' l'].
  - simpl in Hlast. injection Hlast as <-. destruct Hy as [<-|[]]. by left.
  - change (last (z :: z' :: l')) with (last (z' :: l')) in Hlast.
    destruct Hy as [<-|Hy]; [|by apply IH].
    right. rewrite Forall_forall in Hall. apply Hall, list_elem_of_In, last_In. done.
Qed.

(** X7: when saving rewrites a node, that node is the one that starts
    last among the media nodes of the range: every other media node the
    range touches starts strictly before the position addressed. *)
Theorem commit_addresses_last_media_node editor dialog dialog' pos newAttrs :
  selection_to editor <= content_size (doc editor) ->
  handleSaveLink editor dialog = Some (dialog', Some (SetNodeMarkup pos newAttrs)) ->
  forall node q,
    In (node, q)
       (images_between (doc editor) (selection_from editor) (selection_to editor)) ->
    q < pos \/ (q = pos /\ nodeAt (doc editor) pos = Some node).
Proof.
  intros Hsel Hsave node q Hin. pose proof (scan_spec editor Hsel) as Hscan.
  unfold handleSaveLink in Hsave. rewrite Hscan in Hsave.
  destruct (truthy (linkUrl dialog) && negb (Regex.test urlRegex (to_string (linkUrl dialog))));
    [discriminate|].
  destruct (last (images_between _ _ _)) as [[target p]|] eqn:Hlast.
  2:{ case_bool_decide; discriminate. }
  injection Hsave as _ <- _.
  assert (Hsorted : StronglySorted (fun x y => snd x < snd y)
            (images_between (doc editor) (selection_from editor) (selection_to editor))).
  { apply StronglySorted_filter_lt, images_sorted. }
  destruct (sorted_last_greatest _ _ Hsorted Hlast _ Hin) as [[= -> ->]|Hlt].
  - right. split; [done|].
    apply images_between_image in Hin as [_ Hin].
    destruct (images_nodeAt ∅ _ _ _ Hin) as (Hat & _). simpl in Hat.
    by replace (p - 0) with p in Hat by lia.
  - left. exact Hlt.
Qed.

Lemma commit_addresses_last_media_node_witness :
  1 < 5 \/ (1 = 5 /\
            nodeAt two_images_doc 5
            = Some (PLeaf "customImage" (CustomImage.create {[ "src" := VStr "a.png" ]}))).
Proof.
  apply (commit_addresses_last_media_node two_images_editor example_dialog closed 5
           (<[ "href" := VStr "https://example.com" ]>
              (CustomImage.create {[ "src" := VStr "b.png" ]}))).
  - vm_compute. discriminate.
  - vm_compute. reflexivity.
  - vm_compute. left. reflexivity.
Defined.

(** ** The inline shorthand *)

Import Regex InputRule.

#[local] Arguments String.append !s1 s2 : simpl nomatch.

Lemma sapp_nil_r s : s +:+ EmptyString = s.
Proof. induction s; simpl; [done|]. by rewrite IHs. Qed.

Lemma sapp_assoc a b c : (a +:+ b) +:+ c = a +:+ (b +:+ c).
Proof. induction a; simpl; [done|]. by rewrite IHa. Qed.

Lemma slength_app a b : String.length (a +:+ b) = (String.length a + String.length b)%nat.
Proof. induction a; simpl; [done|]. by rewrite IHa. Qed.

Lemma drop_prefix_app a b : drop_prefix (String.length a) (a +:+ b) = b.
Proof. induction a; simpl; [by destruct b|done]. Qed.

Lemma after_nil s : after_ s EmptyString (rest s) (groups s) = s.
Proof. destruct s. unfold after_. simpl. by rewrite sapp_nil_r. Qed.

Lemma after_after s m r g m' r' g' :
  after_ (after_ s m r g) m' r' g' = after_ s (m +:+ m') r' g'.
Proof. unfold after_. simpl. by rewrite sapp_assoc. Qed.

Lemma in_run_chr p s s' :
  In s' (run (Chr p) s) <->
  exists c r, rest s = String c r /\ p c = true /\
              s' = after_ s (String c EmptyString) r (groups s).
Proof.
  simpl. destruct (rest s) as [|c r] eqn:E.
  - split; [intros []|]. intros (c & r & [=] & _).
  - destruct (p c) eqn:Ep.
    + split.
      * intros [<-|[]]. exists c, r. done.
      * intros (c' & r' & [= <- <-] & _ & ->). by left.
    + split; [intros []|]. intros (c' & r' & [= <- <-] & Hp & _). congruence.
Qed.

Lemma in_run_seq a b s s'' :
  In s'' (run (Seq a b) s) <-> exists s', In s' (run a s) /\ In s'' (run b s').
Proof. simpl. apply in_flat_map. Qed.

Lemma in_run_alt a b s s' :
  In s' (run (Alt a b) s) <-> In s' (run a s) \/ In s' (run b s).
Proof. simpl. apply in_app_iff. Qed.

Lemma in_run_eps s s' : In s' (run Eps s) <-> s' = s.
Proof. simpl. split; [by intros [<-|[]]|intros ->; by left]. Qed.

Lemma in_run_lit l : forall s s',
  In s' (run (Lit l) s) <->
  exists r, rest s = l +:+ r /\ s' = after_ s l r (groups s).
Proof.
  induction l as [|c l IH]; intros s s'.
  - change (Lit EmptyString) with Eps. rewrite in_run_eps. split.
    + intros ->. exists (rest s). split; [done|]. by rewrite after_nil.
    + intros (r & Hr & ->). simpl in Hr. subst r. apply after_nil.
  - change (Lit (String c l)) with (Seq (Chr (Ascii.eqb c)) (Lit l)).
    rewrite in_run_seq. split.
    + intros (s1 & H1 & H2). apply in_run_chr in H1 as (c' & r1 & Hr & Hc & ->).
      apply Ascii.eqb_eq in Hc as <-.
      apply IH in H2 as (r & Hr2 & ->). simpl in Hr2. subst r1.
      exists r. split; [done|]. apply after_after.
    + intros (r & Hr & ->).
      exists (after_ s (String c EmptyString) (l +:+ r) (groups s)). split.
      * apply in_run_chr. exists c, (l +:+ r). split; [done|].
        split; [apply Ascii.eqb_refl|done].
      * apply IH. exists r. split; [done|]. simpl. symmetry. apply after_after.
Qed.

Lemma in_star_chr p s' : forall fuel s,
  (String.length (rest s) <= fuel)%nat ->
  In s' (star_loop (run (Chr p)) fuel s) <->
  exists m r, rest s = m +:+ r /\ every p m = true /\ s' = after_ s m r (groups s).
Proof.
  induction fuel as [|fuel IH]; intros s Hlen.
  - assert (E : rest s = EmptyString).
    { destruct (rest s); [done|simpl in Hlen; lia]. }
    simpl. split.
    + intros [<-|[]]. exists EmptyString, (rest s). split; [done|].
      split; [done|]. symmetry. apply after_nil.
    + intros (m & r & Hr & _ & ->). left. rewrite E in Hr.
      destruct m; [|discriminate]. simpl in Hr. subst r.
      transitivity (after_ s EmptyString (rest s) (groups s));
        [symmetry; apply after_nil|by rewrite E].
  - cbn [star_loop]. rewrite in_app_iff, in_flat_map. split.
    + intros [(s1 & H1 & H2)|[<-|[]]].
      * apply in_run_chr in H1 as (c & r1 & Hr & Hc & ->).
        simpl in H2. rewrite Hr in H2. simpl in H2.
        destruct (Nat.ltb_spec (String.length r1) (S (String.length r1))); [|lia].
        apply IH in H2; [|simpl; rewrite Hr in Hlen; simpl in Hlen; lia].
        destruct H2 as (m & r & Hr2 & Hm & ->). simpl in Hr2. subst r1.
        exists (String c m), r. split; [done|]. split; [simpl; by rewrite Hc|].
        apply after_after.
      * exists EmptyString, (rest s). split; [done|]. split; [done|].
        symmetry. apply after_nil.
    + intros (m & r & Hr & Hm & ->). destruct m as [|c m].
      * right. left. simpl in Hr. subst r. symmetry. apply after_nil.
      * left. simpl in Hm. apply andb_true_iff in Hm as [Hc Hm].
        exists (after_ s (String c EmptyString) (m +:+ r) (groups s)). split.
        -- apply in_run_chr. exists c, (m +:+ r). done.
        -- simpl. rewrite Hr. simpl.
           destruct (Nat.ltb_spec (String.length (m +:+ r)) (S (String.length (m +:+ r)))); [|lia].
           apply IH; [simpl; rewrite Hr in Hlen; simpl in Hlen; lia|].
           exists m, r. split; [done|]. split; [done|]. simpl. symmetry. apply after_after.
Qed.

Lemma in_run_plus_chr p s s' :
  In s' (run (Plus (Chr p)) s) <->
  exists m r, m <> EmptyString /\ rest s = m +:+ r /\ every p m = true /\
              s' = after_ s m r (groups s).
Proof.
  unfold Plus. rewrite in_run_seq. split.
  - intros (s1 & H1 & H2). apply in_run_chr in H1 as (c & r1 & Hr & Hc & ->).
    cbn [run] in H2. apply in_star_chr in H2; [|done].
    destruct H2 as (m & r & Hr2 & Hm & ->). simpl in Hr2. subst r1.
    exists (String c m), r. split; [done|]. split; [done|].
    split; [simpl; by rewrite Hc|]. apply after_after.
  - intros (m & r & Hne & Hr & Hm & ->). destruct m as [|c m]; [done|].
    simpl in Hm. apply andb_true_iff in Hm as [Hc Hm].
    exists (after_ s (String c EmptyString) (m +:+ r) (groups s)). split.
    + apply in_run_chr. exists c, (m +:+ r). done.
    + cbn [run]. apply in_star_chr; [done|].
      exists m, r. split; [done|]. split; [done|]. simpl. symmetry. apply after_after.
Qed.

Lemma in_run_group i a s s'' :
  In s'' (run (Group i a) s) <->
  exists s', In s' (run a s) /\
    s'' = {| consumed := consumed s'; rest := rest s';
             groups := <[ i := drop_prefix (String.length (consumed s)) (consumed s') ]>
                         (groups s') |}.
Proof.
  simpl. rewrite in_map_iff. split; intros (s' & H1 & H2); exists s'; by split.
Qed.

Lemma realizes_eps : realizes Eps (fun m g g' => m = EmptyString /\ g' = g).
Proof.
  intros s s'. rewrite in_run_eps. split.
  - intros ->. exists EmptyString, (rest s), (groups s). split; [done|].
    split; [done|]. symmetry. apply after_nil.
  - intros (m & r & g' & [-> ->] & Hr & ->). simpl in Hr. subst r. apply after_nil.
Qed.

Lemma realizes_chr p :
  realizes (Chr p) (fun m g g' => exists c, m = String c EmptyString /\ p c = true /\ g' = g).
Proof.
  intros s s'. rewrite in_run_chr. split.
  - intros (c & r & Hr & Hc & ->). exists (String c EmptyString), r, (groups s).
    split; [by exists c|done].
  - intros (m & r & g' & (c & -> & Hc & ->) & Hr & ->). by exists c, r.
Qed.

Lemma realizes_lit l : realizes (Lit l) (fun m g g' => m = l /\ g' = g).
Proof.
  intros s s'. rewrite in_run_lit. split.
  - intros (r & Hr & ->). by exists l, r, (groups s).
  - intros (m & r & g' & [-> ->] & Hr & ->). by exists r.
Qed.

Lemma realizes_plus_chr p :
  realizes (Plus (Chr p))
    (fun m g g' => m <> EmptyString /\ every p m = true /\ g' = g).
Proof.
  intros s s'. rewrite in_run_plus_chr. split.
  - intros (m & r & Hne & Hr & Hm & ->). by exists m, r, (groups s).
  - intros (m & r & g' & (Hne & Hm & ->) & Hr & ->). by exists m, r.
Qed.

Lemma realizes_seq a b Pa Pb :
  realizes a Pa -> realizes b Pb ->
  realizes (Seq a b)
    (fun m g g'' => exists m1 m2 g', Pa m1 g g' /\ Pb m2 g' g'' /\ m = m1 +:+ m2).
Proof.
  intros Ha Hb s s''. rewrite in_run_seq. split.
  - intros (s' & H1 & H2).
    apply Ha in H1 as (m1 & r1 & g1 & HP1 & Hr1 & ->).
    apply Hb in H2 as (m2 & r2 & g2 & HP2 & Hr2 & ->).
    simpl in HP2, Hr2. subst r1.
    exists (m1 +:+ m2), r2, g2. split; [by exists m1, m2, g1|].
    split; [by rewrite sapp_assoc|]. apply after_after.
  - intros (m & r & g'' & (m1 & m2 & g' & HP1 & HP2 & ->) & Hr & ->).
    exists (after_ s m1 (m2 +:+ r) g'). split.
    + apply Ha. exists m1, (m2 +:+ r), g'. split; [done|]. split; [|done].
      by rewrite <- sapp_assoc.
    + apply Hb. exists m2, r, g''. split; [done|]. split; [done|].
      symmetry. apply after_after.
Qed.

Lemma realizes_alt a b Pa Pb :
  realizes a Pa -> realizes b Pb ->
  realizes (Alt a b) (fun m g g' => Pa m g g' \/ Pb m g g').
Proof.
  intros Ha Hb s s'. rewrite in_run_alt, (Ha s s'), (Hb s s'). split.
  - intros [(m & r & g' & HP & H)|(m & r & g' & HP & H)]; exists m, r, g'; tauto.
  - intros (m & r & g' & [HP|HP] & H); [left|right]; exists m, r, g'; tauto.
Qed.

Lemma realizes_group i a Pa :
  realizes a Pa ->
  realizes (Group i a) (fun m g g'' => exists g', Pa m g g' /\ g'' = <[ i := m ]> g').
Proof.
  intros Ha s s''. rewrite in_run_group. split.
  - intros (s' & H1 & ->). apply Ha in H1 as (m & r & g' & HP & Hr & ->).
    exists m, r, (<[ i := m ]> g'). split; [by exists g'|]. split; [done|].
    unfold after_. simpl. by rewrite drop_prefix_app.
  - intros (m & r & g'' & (g' & HP & ->) & Hr & ->).
    exists (after_ s m r g'). split; [apply Ha; by exists m, r, g'|].
    unfold after_. simpl. by rewrite drop_prefix_app.
Qed.

Lemma realizes_ext r P Q :
  realizes r P -> (forall m g g', P m g g' <-> Q m g g') -> realizes r Q.
Proof.
  intros H HPQ s s'. rewrite (H s s'). split;
    intros (m & r' & g' & HP & Hr); exists m, r', g'; split; try done; by apply HPQ.
Qed.

Lemma realizes_TITLE :
  realizes TITLE (fun m g g' => exists title, title_part m title /\ g' = with_title title g).
Proof.
  eapply realizes_ext.
  { unfold TITLE, Opt. apply realizes_alt; [|apply realizes_eps].
    apply realizes_seq; [apply realizes_plus_chr|].
    apply realizes_seq; [apply realizes_chr|].
    apply realizes_seq; [|apply realizes_chr].
    apply realizes_group, realizes_plus_chr. }
  intros m g g'. cbv beta. split.
  - intros [(ws & m2 & g1 & (Hws & Hsp & ->) & (m3 & m4 & g2 & (q & -> & Hq & ->) &
              (t & m6 & g3 & (g4 & (Ht & Hns & ->) & ->) & (q' & -> & Hq' & ->) & ->) & ->) & ->)
           |[-> ->]].
    + exists (Some t). split; [|done]. right. exists ws, q, t, q'. done.
    + exists None. split; [by left|done].
  - intros (title & [[-> ->]|(ws & q & t & q' & -> & Hws & Hsp & Hq & Hq' & Ht & Hns & ->)] & ->).
    + right. done.
    + left. exists ws, (String q (t +:+ String q' EmptyString)), g.
      split; [done|]. split; [|done].
      exists (String q EmptyString), (t +:+ String q' EmptyString), g.
      split; [by exists q|]. split; [|done].
      exists t, (String q' EmptyString), (<[4%nat := t]> g).
      split; [by exists g|]. split; [by exists q'|done].
Qed.

Lemma every_dot_cases m :
  every dot m = true <->
  (m <> EmptyString /\ every dot m = true) \/ m = ":" \/ m = EmptyString.
Proof.
  split.
  - intros H. destruct m; [right; by right|left; done].
  - intros [[_ H]|[->| ->]]; done.
Qed.

Lemma realizes_TOKEN :
  realizes (Group 1 TOKEN)
    (fun m g g' =>
       exists alt src tp title,
         m = token alt src tp /\
         every dot alt = true /\
         src <> EmptyString /\ every non_space src = true /\
         title_part tp title /\
         g' = <[ 1%nat := m ]> (with_title title (<[ 3%nat := src ]> (<[ 2%nat := alt ]> g)))).
Proof.
  eapply realizes_ext.
  { apply realizes_group. unfold TOKEN.
    apply realizes_seq; [apply realizes_lit|].
    apply realizes_seq; [apply realizes_group; unfold ALT, Opt;
                         apply realizes_alt; [apply realizes_plus_chr|];
                         apply realizes_alt; [apply realizes_lit|apply realizes_eps]|].
    apply realizes_seq; [apply realizes_lit|].
    apply realizes_seq; [apply realizes_group, realizes_plus_chr|].
    apply realizes_seq; [apply realizes_TITLE|apply realizes_lit]. }
  intros m g g'. cbv beta. split.
  - intros (g0 & (m1 & m2 & g1 & [-> ->] &
              (alt & m4 & g2 & (ga & Halt & ->) &
                (m5 & m6 & g3 & [-> ->] &
                  (src & m8 & g4 & (gs & (Hsrc & Hns & ->) & ->) &
                    (tp & m10 & g5 & (title & Htp & ->) & [-> ->] & ->) & ->) & ->) & ->) & ->) & ->).
    exists alt, src, tp, title.
    assert (Hd : every dot alt = true /\ ga = g).
    { destruct Halt as [(? & ? & ->)|[[-> ->]|[-> ->]]]; done. }
    destruct Hd as [Hd ->]. done.
  - intros (alt & src & tp & title & -> & Hd & Hsrc & Hns & Htp & ->).
    exists (with_title title (<[3%nat:=src]> (<[2%nat:=alt]> g))). split; [|done].
    exists "![", (alt +:+ "](" +:+ src +:+ tp +:+ ")"), g. split; [done|]. split; [|done].
    exists alt, ("](" +:+ src +:+ tp +:+ ")"), (<[2%nat:=alt]> g). split.
    { exists g. split; [|done]. apply every_dot_cases in Hd.
      destruct Hd as [[? ?]|[->| ->]]; [left|right; left|right; right]; done. }
    split; [|done].
    exists "](", (src +:+ tp +:+ ")"), (<[2%nat:=alt]> g). split; [done|]. split; [|done].
    exists src, (tp +:+ ")"), (<[3%nat:=src]> (<[2%nat:=alt]> g)).
    split; [by exists (<[2%nat:=alt]> g)|]. split; [|done].
    exists tp, ")", (with_title title (<[3%nat:=src]> (<[2%nat:=alt]> g))).
    split; [by exists title|done].
Qed.

Lemma inputRegex_eq :
  inputRegex = Seq (Alt Bol (Chr space)) (Seq (Group 1 TOKEN) Eol).
Proof. reflexivity. Qed.

Lemma in_run_inputRegex s s' :
  In s' (run inputRegex s) <->
  exists lead alt src tp title,
    ((lead = EmptyString /\ consumed s = EmptyString) \/
     (exists c, lead = String c EmptyString /\ space c = true)) /\
    rest s = lead +:+ token alt src tp /\
    every dot alt = true /\
    src <> EmptyString /\ every non_space src = true /\
    title_part tp title /\
    s' = after_ s (lead +:+ token alt src tp) EmptyString
           (<[ 1%nat := token alt src tp ]>
              (with_title title (<[ 3%nat := src ]> (<[ 2%nat := alt ]> (groups s))))).
Proof.
  rewrite inputRegex_eq, in_run_seq. split.
  - intros (s1 & H1 & H2). apply in_run_seq in H2 as (s2 & H2 & H3).
    apply realizes_TOKEN in H2
      as (m & r & g' & (alt & src & tp & title & -> & Hd & Hsrc & Hns & Htp & ->) & Hr & ->).
    simpl in H3. destruct r; [|destruct H3]. destruct H3 as [<-|[]].
    apply in_run_alt in H1 as [H1|H1].
    + simpl in H1. destruct (consumed s) eqn:Ec; [|destruct H1]. destruct H1 as [<-|[]].
      exists EmptyString, alt, src, tp, title. split; [by left|].
      rewrite sapp_nil_r in Hr. split; [done|]. do 4 (split; [done|]).
      unfold after_. simpl. done.
    + apply in_run_chr in H1 as (c & r1 & Hr1 & Hc & ->). simpl in Hr.
      rewrite sapp_nil_r in Hr. subst r1.
      exists (String c EmptyString), alt, src, tp, title. split; [right; by exists c|].
      split; [done|]. do 4 (split; [done|]). simpl. rewrite after_after. done.
  - intros (lead & alt & src & tp & title & Hlead & Hr & Hd & Hsrc & Hns & Htp & ->).
    destruct Hlead as [[-> Hc]|(c & -> & Hc)].
    + exists s. split; [apply in_run_alt; left; simpl; rewrite Hc; by left|].
      apply in_run_seq.
      exists (after_ s (token alt src tp) EmptyString
                (<[ 1%nat := token alt src tp ]>
                   (with_title title (<[ 3%nat := src ]> (<[ 2%nat := alt ]> (groups s)))))).
      split; [|by left].
      apply realizes_TOKEN. exists (token alt src tp), EmptyString,
                (<[ 1%nat := token alt src tp ]>
                   (with_title title (<[ 3%nat := src ]> (<[ 2%nat := alt ]> (groups s))))).
      split; [by exists alt, src, tp, title|].
      split; [|reflexivity]. by rewrite sapp_nil_r.
    + exists (after_ s (String c EmptyString) (token alt src tp) (groups s)). split.
      { apply in_run_alt. right. apply in_run_chr. by exists c, (token alt src tp). }
      apply in_run_seq.
      exists (after_ (after_ s (String c EmptyString) (token alt src tp) (groups s))
                (token alt src tp) EmptyString
                (<[ 1%nat := token alt src tp ]>
                   (with_title title (<[ 3%nat := src ]> (<[ 2%nat := alt ]> (groups s)))))).
      split.
      * apply realizes_TOKEN. exists (token alt src tp), EmptyString,
                (<[ 1%nat := token alt src tp ]>
                   (with_title title (<[ 3%nat := src ]> (<[ 2%nat := alt ]> (groups s))))).
        split; [by exists alt, src, tp, title|].
        split; [|reflexivity]. simpl. by rewrite sapp_nil_r.
      * rewrite after_after. by left.
Qed.

Lemma exec_from_Some r : forall after before fuel m,
  exec_from r before after fuel = Some m ->
  exists skipped after' s' l,
    after = skipped +:+ after' /\
    run r {| consumed := before +:+ skipped; rest := after'; groups := ∅ |} = s' :: l /\
    m = {| index := String.length (before +:+ skipped);
           matched := drop_prefix (String.length (before +:+ skipped)) (consumed s');
           captures := groups s' |}.
Proof.
  induction after as [|c tl IH]; intros before fuel m; simpl;
    destruct (run r {| consumed := before; rest := _; groups := ∅ |}) as [|s' l] eqn:E.
  - by destruct fuel.
  - intros [= <-]. exists EmptyString, EmptyString, s', l. repeat split; rewrite ?sapp_nil_r; done.
  - destruct fuel as [|fuel]; [done|]. intros H.
    apply IH in H as (skipped & after' & s1 & l1 & -> & Hrun & ->).
    exists (String c skipped), after', s1, l1.
    rewrite sapp_assoc in *. simpl in *. done.
  - intros [= <-]. exists EmptyString, (String c tl), s', l. repeat split; rewrite ?sapp_nil_r; done.
Qed.

Lemma exec_from_None r : forall after before fuel,
  (String.length after <= fuel)%nat ->
  exec_from r before after fuel = None ->
  forall skipped after',
    after = skipped +:+ after' ->
    run r {| consumed := before +:+ skipped; rest := after'; groups := ∅ |} = [].
Proof.
  induction after as [|c tl IH]; intros before fuel Hlen; simpl;
    destruct (run r {| consumed := before; rest := _; groups := ∅ |}) as [|s' l] eqn:E;
    try done.
  - intros _ skipped after' Heq. destruct skipped; [|discriminate].
    simpl in Heq. subst after'. rewrite sapp_nil_r. done.
  - destruct fuel as [|fuel]; [simpl in Hlen; lia|].
    intros H skipped after' Heq. destruct skipped as [|c' skipped].
    + simpl in Heq. subst after'. rewrite sapp_nil_r. done.
    + simpl in Heq. injection Heq as <- ->.
      assert (Hlen' : (String.length (skipped +:+ after') <= fuel)%nat) by (simpl in Hlen; lia).
      specialize (IH _ _ Hlen' H skipped after' eq_refl).
      rewrite sapp_assoc in IH. done.
Qed.

(** C9: the input rule fires exactly on a text that ends in
    [![alt](src)] or [![alt](src 'title')], the token standing at the start
    of the text or after a white-space character: [alt] is any run of
    characters without a line break ([:] and the empty run included), [src]
    and [title] are non-empty runs without white space, and the title is set
    off by white space and put between quotes, double or single. On a match
    the groups 2, 3 and 4 are [alt], [src] and [title], and the node made carries them as
    [alt], [src] and [title]. *)
Theorem shorthand_recognized (text : string) :
  (forall m, exec inputRegex text = Some m ->
     exists alt src title,
       is_shorthand text alt src title /\
       group m 2 = VStr alt /\ group m 3 = VStr src /\ group m 4 = title_value title /\
       addInputRules text = Some (shorthand_node alt src title)) /\
  (addInputRules text <> None <-> exists alt src title, is_shorthand text alt src title).
Proof.
  assert (Hsound : forall m, exec inputRegex text = Some m ->
     exists alt src title,
       is_shorthand text alt src title /\
       group m 2 = VStr alt /\ group m 3 = VStr src /\ group m 4 = title_value title /\
       addInputRules text = Some (shorthand_node alt src title)).
  { intros m Hm. unfold addInputRules. rewrite Hm. unfold exec in Hm.
    apply exec_from_Some in Hm as (pre & after' & s' & l & -> & Hrun & ->).
    assert (Hin : In s' (run inputRegex
                           {| consumed := EmptyString +:+ pre; rest := after'; groups := ∅ |}))
      by (rewrite Hrun; by left).
    apply in_run_inputRegex in Hin
      as (lead & alt & src & tp & title & Hlead & Hr & Hd & Hsrc & Hns & Htp & ->).
    simpl in Hlead, Hr. subst after'.
    exists alt, src, title. split.
    { exists pre, lead, tp. split; [done|]. split; [|done].
      destruct Hlead as [[-> ->]|?]; [by left|by right]. }
    assert (Hg : forall t0, with_title t0 (<[3%nat:=src]> (<[2%nat:=alt]> (∅ : gmap nat string)))
                   !! 2%nat = Some alt /\
                 with_title t0 (<[3%nat:=src]> (<[2%nat:=alt]> (∅ : gmap nat string)))
                   !! 3%nat = Some src /\
                 with_title t0 (<[3%nat:=src]> (<[2%nat:=alt]> (∅ : gmap nat string)))
                   !! 4%nat = t0).
    { intros [t0|]; simpl; repeat split; by simplify_map_eq. }
    destruct (Hg title) as (H2 & H3 & H4).
    unfold getAttributes, group. cbn [captures after_ groups].
    rewrite !lookup_insert_ne by done. rewrite H2, H3, H4.
    split; [done|]. split; [done|]. split; [by destruct title|].
    f_equal. destruct title; vm_compute; reflexivity. }
  split; [exact Hsound|]. split.
  - unfold addInputRules. destruct (exec inputRegex text) as [m|] eqn:Hm; [|done].
    intros _. destruct (Hsound m eq_refl) as (alt & src & title & H & _). eauto.
  - intros (alt & src & title & pre & lead & tp & -> & Hlead & Hd & Hsrc & Hns & Htp).
    unfold addInputRules. destruct (exec inputRegex _) as [m|] eqn:Hm; [done|].
    exfalso. unfold exec in Hm.
    pose proof (exec_from_None _ _ _ _ (Nat.le_refl _) Hm pre (lead +:+ token alt src tp) eq_refl)
      as Hnone.
    assert (Hin : In (after_ {| consumed := EmptyString +:+ pre;
                                rest := lead +:+ token alt src tp; groups := ∅ |}
                        (lead +:+ token alt src tp) EmptyString
                        (<[ 1%nat := token alt src tp ]>
                           (with_title title (<[ 3%nat := src ]> (<[ 2%nat := alt ]> ∅)))))
                     (run inputRegex {| consumed := EmptyString +:+ pre;
                                        rest := lead +:+ token alt src tp; groups := ∅ |})).
    { apply in_run_inputRegex. exists lead, alt, src, tp, title.
      split; [|done]. destruct Hlead as [[-> ->]|?]; [by left|by right]. }
    rewrite Hnone in Hin. destruct Hin.
Qed.

(** ** The link and video dialogs: what they accept *)

Import VideoButton.

(** [test] is true exactly when the pattern matches at some start. *)
Lemma test_true_iff r text :
  test r text = true <->
  exists pre post s',
    text = pre +:+ post /\
    In s' (run r {| consumed := pre; rest := post; groups := ∅ |}).
Proof.
  unfold test, exec. split.
  - destruct (exec_from r EmptyString text (String.length text)) as [m|] eqn:E; [|done].
    intros _. apply exec_from_Some in E as (pre & post & s' & l & -> & Hrun & _).
    simpl in Hrun. exists pre, post, s'. split; [done|]. rewrite Hrun. by left.
  - intros (pre & post & s' & -> & Hin).
    destruct (exec_from r EmptyString (pre +:+ post) _) as [m|] eqn:E; [done|].
    pose proof (exec_from_None _ _ _ _ (Nat.le_refl _) E pre post eq_refl) as Hnone.
    simpl in Hnone. rewrite Hnone in Hin. destruct Hin.
Qed.

(** A pattern that starts with [^] matches at the start of the text only. *)
Lemma test_anchored r text :
  test (Seq Bol r) text = true <->
  exists s', In s' (run r {| consumed := EmptyString; rest := text; groups := ∅ |}).
Proof.
  rewrite test_true_iff. split.
  - intros (pre & post & s' & -> & Hin). apply in_run_seq in Hin as (s1 & H1 & H2).
    simpl in H1. destruct pre; [|destruct H1]. destruct H1 as [<-|[]]. by exists s'.
  - intros (s' & Hin). exists EmptyString, text, s'. split; [done|].
    apply in_run_seq. eexists. split; [by left|done].
Qed.

Lemma realizes_eol_tail r P text :
  realizes r P ->
  (exists s', In s' (run (Seq r Eol) {| consumed := EmptyString; rest := text; groups := ∅ |}))
  <-> exists g', P text ∅ g'.
Proof.
  intros Hr. split.
  - intros (s' & Hin). apply in_run_seq in Hin as (s1 & H1 & H2).
    apply Hr in H1 as (m & r' & g' & HP & Hrest & ->). simpl in *.
    destruct r'; [|destruct H2]. rewrite sapp_nil_r in Hrest. subst m. by exists g'.
  - intros (g' & HP). eexists. apply in_run_seq.
    exists (after_ {| consumed := EmptyString; rest := text; groups := ∅ |} text EmptyString g').
    split; [|by left]. apply Hr. exists text, EmptyString, g'. split; [done|].
    split; [|done]. simpl. by rewrite sapp_nil_r.
Qed.

Lemma urlRegex_accepts (url : string) :
  test urlRegex url = true <->
  exists tail, tail <> EmptyString /\ every dot tail = true /\
               (url = "http://" +:+ tail \/ url = "https://" +:+ tail).
Proof.
  assert (Heq : urlRegex =
    Seq Bol (Seq (Lit "http") (Seq (Opt (Lit "s")) (Seq (Lit "://") (Seq (Plus (Chr dot)) Eol)))))
    by reflexivity.
  rewrite Heq, test_anchored.
  assert (Hr : realizes (Seq (Lit "http") (Seq (Opt (Lit "s")) (Seq (Lit "://") (Plus (Chr dot)))))
                 (fun m g g' => exists tail, tail <> EmptyString /\ every dot tail = true /\
                      (m = "http://" +:+ tail \/ m = "https://" +:+ tail) /\ g' = g)).
  { eapply realizes_ext.
    { apply realizes_seq; [apply realizes_lit|].
      apply realizes_seq; [apply realizes_alt; [apply realizes_lit|apply realizes_eps]|].
      apply realizes_seq; [apply realizes_lit|apply realizes_plus_chr]. }
    intros m g g'. cbv beta. split.
    - intros (m1 & m2 & g1 & [-> ->] & (m3 & m4 & g2 & Hs & (m5 & m6 & g3 & [-> ->] &
                (Hne & He & ->) & ->) & ->) & ->).
      exists m6. destruct Hs as [[-> ->]|[-> ->]]; (split; [done|]); (split; [done|]);
        (split; [|done]); [by right|by left].
    - intros (tail & Hne & He & [-> | ->] & ->).
      + exists "http", ("://" +:+ tail), g. split; [done|]. split; [|done].
        exists EmptyString, ("://" +:+ tail), g. split; [by right|]. split; [|done].
        exists "://", tail, g. done.
      + exists "http", ("s://" +:+ tail), g. split; [done|]. split; [|done].
        exists "s", ("://" +:+ tail), g. split; [by left|]. split; [|done].
        exists "://", tail, g. done. }
  split.
  - intros (s' & Hin).
    assert (Hin' : exists s', In s' (run (Seq (Seq (Lit "http") (Seq (Opt (Lit "s"))
                     (Seq (Lit "://") (Plus (Chr dot))))) Eol)
                     {| consumed := EmptyString; rest := url; groups := ∅ |})).
    { exists s'. apply in_run_seq in Hin as (s1 & H1 & Hin).
      apply in_run_seq in Hin as (s2 & H2 & Hin).
      apply in_run_seq in Hin as (s3 & H3 & Hin).
      apply in_run_seq in Hin as (s4 & H4 & Hin).
      apply in_run_seq. exists s4. split; [|done].
      apply in_run_seq. exists s1. split; [done|].
      apply in_run_seq. exists s2. split; [done|].
      apply in_run_seq. exists s3. done. }
    apply (realizes_eol_tail _ _ _ Hr) in Hin' as (g' & tail & ? & ? & ? & _).
    by exists tail.
  - intros (tail & Hne & He & Hurl).
    assert (Hin' : exists s', In s' (run (Seq (Seq (Lit "http") (Seq (Opt (Lit "s"))
                     (Seq (Lit "://") (Plus (Chr dot))))) Eol)
                     {| consumed := EmptyString; rest := url; groups := ∅ |})).
    { apply (realizes_eol_tail _ _ _ Hr). exists ∅, tail. done. }
    destruct Hin' as (s' & Hin). exists s'.
    apply in_run_seq in Hin as (s4 & Hin & H5).
    apply in_run_seq in Hin as (s1 & H1 & Hin).
    apply in_run_seq in Hin as (s2 & H2 & Hin).
    apply in_run_seq in Hin as (s3 & H3 & H4).
    apply in_run_seq. exists s1. split; [done|].
    apply in_run_seq. exists s2. split; [done|].
    apply in_run_seq. exists s3. split; [done|].
    apply in_run_seq. exists s4. done.
Qed.

(** X5: saving the link dialog reports the URL error exactly when the
    text entered is not empty and is not [http://] or [https://] followed
    by at least one character, none of them a line break. An empty text
    is never an error, and the check does not look at the selection. *)
Theorem save_link_validation editor dialog (url : string) :
  linkUrl dialog = VStr url ->
  (handleSaveLink editor dialog =
     Some ({| linkUrl := VStr url; isLinkDialogOpen := isLinkDialogOpen dialog;
              linkError := Some urlError |}, None)
   <->
   url <> EmptyString /\
   ~ exists tail, tail <> EmptyString /\ every dot tail = true /\
                  (url = "http://" +:+ tail \/ url = "https://" +:+ tail)).
Proof.
  intros Hurl. unfold handleSaveLink. rewrite Hurl. cbn [truthy to_string].
  rewrite <- urlRegex_accepts.
  destruct (String.eqb_spec url EmptyString) as [->|Hne]; simpl.
  - split; [|tauto]. destruct (scan editor) as [[[? ?]|]|]; try discriminate.
    all: try (case_bool_decide; discriminate).
  - destruct (test urlRegex url); simpl.
    + split; [|intros [_ H]; by destruct H].
      destruct (scan editor) as [[[? ?]|]|]; try discriminate.
      all: try (case_bool_decide; discriminate).
    + split; [|done]. intros _. split; [done|]. discriminate.
Qed.

Lemma save_link_validation_witness :
  handleSaveLink example_editor
    {| linkUrl := VStr "ftp://host/x"; isLinkDialogOpen := true; linkError := None |} =
     Some ({| linkUrl := VStr "ftp://host/x"; isLinkDialogOpen := true;
              linkError := Some urlError |}, None)
   <->
   "ftp://host/x" <> EmptyString /\
   ~ exists tail, tail <> EmptyString /\ every dot tail = true /\
                  ("ftp://host/x" = "http://" +:+ tail \/ "ftp://host/x" = "https://" +:+ tail).
Proof.
  apply (save_link_validation example_editor
           {| linkUrl := VStr "ftp://host/x"; isLinkDialogOpen := true; linkError := None |}
           "ftp://host/x").
  reflexivity.
Defined.

Lemma recognizes_eps : recognizes Eps (fun m => m = EmptyString).
Proof.
  eexists. split; [apply realizes_eps|]. intros m g. split.
  - intros ->. by exists g.
  - by intros (g' & -> & _).
Qed.

Lemma recognizes_lit l : recognizes (Lit l) (fun m => m = l).
Proof.
  eexists. split; [apply realizes_lit|]. intros m g. split.
  - intros ->. by exists g.
  - by intros (g' & -> & _).
Qed.

Lemma recognizes_chr p :
  recognizes (Chr p) (fun m => exists c, m = String c EmptyString /\ p c = true).
Proof.
  eexists. split; [apply realizes_chr|]. intros m g. split.
  - intros (c & -> & Hc). exists g, c. done.
  - intros (g' & c & -> & Hc & _). by exists c.
Qed.

Lemma recognizes_seq a b Qa Qb :
  recognizes a Qa -> recognizes b Qb ->
  recognizes (Seq a b) (fun m => exists m1 m2, Qa m1 /\ Qb m2 /\ m = m1 +:+ m2).
Proof.
  intros (Pa & Ha & HQa) (Pb & Hb & HQb).
  eexists. split; [apply (realizes_seq _ _ _ _ Ha Hb)|]. intros m g. split.
  - intros (m1 & m2 & H1 & H2 & ->).
    apply (HQa m1 g) in H1 as (g1 & H1). apply (HQb m2 g1) in H2 as (g2 & H2).
    exists g2, m1, m2, g1. done.
  - intros (g2 & m1 & m2 & g1 & H1 & H2 & ->). exists m1, m2.
    split; [apply (HQa m1 g); eauto|]. split; [apply (HQb m2 g1); eauto|done].
Qed.

Lemma recognizes_alt a b Qa Qb :
  recognizes a Qa -> recognizes b Qb ->
  recognizes (Alt a b) (fun m => Qa m \/ Qb m).
Proof.
  intros (Pa & Ha & HQa) (Pb & Hb & HQb).
  eexists. split; [apply (realizes_alt _ _ _ _ Ha Hb)|]. intros m g. split.
  - intros [H|H]; [apply (HQa m g) in H as (g' & H)|apply (HQb m g) in H as (g' & H)];
      exists g'; [by left|by right].
  - intros (g' & [H|H]); [left; apply (HQa m g)|right; apply (HQb m g)]; eauto.
Qed.

Lemma recognizes_group i a Qa : recognizes a Qa -> recognizes (Group i a) Qa.
Proof.
  intros (Pa & Ha & HQa).
  eexists. split; [apply (realizes_group i _ _ Ha)|]. intros m g. split.
  - intros H. apply (HQa m g) in H as (g' & H). eexists. exists g'. done.
  - intros (g'' & g' & H & _). apply (HQa m g). eauto.
Qed.

Lemma recognizes_opt a Qa :
  recognizes a Qa -> recognizes (Opt a) (fun m => Qa m \/ m = EmptyString).
Proof. intros Ha. apply (recognizes_alt _ _ _ _ Ha recognizes_eps). Qed.

Lemma recognizes_ext r (Q Q' : string -> Prop) :
  recognizes r Q -> (forall m, Q m <-> Q' m) -> recognizes r Q'.
Proof.
  intros (P & Hr & HQ) Hext. exists P. split; [done|]. intros m g.
  rewrite <- Hext. apply HQ.
Qed.

Lemma recognizes_repeat_chr p n :
  recognizes (Repeat n (Chr p)) (fun m => String.length m = n /\ every p m = true).
Proof.
  induction n as [|n IH]; simpl.
  - eapply recognizes_ext; [apply recognizes_eps|]. intros m. cbv beta. split.
    + by intros ->.
    + intros [H _]. by destruct m.
  - eapply recognizes_ext; [apply (recognizes_seq _ _ _ _ (recognizes_chr p) IH)|].
    intros m. cbv beta. split.
    + intros (m1 & m2 & (c & -> & Hc) & [Hl He] & ->). simpl. rewrite Hc, He, Hl. done.
    + destruct m as [|c m]; simpl; [intros [[=] _]|]. intros [[= Hl] He].
      apply andb_true_iff in He as [Hc He].
      exists (String c EmptyString), m. split; [by exists c|]. done.
Qed.

(** A pattern that starts with [^] and has no [$] tests a prefix. *)
Lemma test_prefix r Q text :
  recognizes r Q ->
  test (Seq Bol r) text = true <-> exists m tail, Q m /\ text = m +:+ tail.
Proof.
  intros (P & Hr & HQ). rewrite test_anchored. split.
  - intros (s' & Hin). apply Hr in Hin as (m & tail & g' & HP & Hrest & _).
    simpl in Hrest. exists m, tail. split; [apply (HQ m ∅); eauto|done].
  - intros (m & tail & Hm & ->). apply (HQ m ∅) in Hm as (g' & HP).
    eexists. apply Hr. exists m, tail, g'. done.
Qed.

Lemma youtubeRegex_accepts url :
  test youtubeRegex url = true <-> is_youtube_url url.
Proof.
  unfold youtubeRegex. rewrite test_prefix.
  2:{ apply recognizes_seq;
        [apply recognizes_opt, recognizes_group, recognizes_seq;
           [apply recognizes_lit|apply recognizes_seq;
              [apply recognizes_opt, recognizes_lit|apply recognizes_lit]]|].
      apply recognizes_seq; [apply recognizes_opt, recognizes_group, recognizes_lit|].
      apply recognizes_seq;
        [apply recognizes_group, recognizes_alt; apply recognizes_lit|].
      apply recognizes_seq; [apply recognizes_lit|].
      apply recognizes_seq; [apply recognizes_opt, recognizes_group, recognizes_lit|].
      apply recognizes_group, recognizes_repeat_chr. }
  cbv beta. unfold is_youtube_url. split.
  - intros (m & tail & (m1 & r1 & Hs & (m2 & r2 & Hw & (m3 & r3 & Hh &
              (m4 & r4 & -> & (m5 & m6 & Hwa & [Hl He] & ->) & ->) & ->) & ->) & ->) & ->).
    exists m1, m2, m3, m5, m6, tail. rewrite !sapp_assoc.
    split; [reflexivity|]. split.
    { destruct Hs as [(a & b & -> & (c & d & [-> | ->] & -> & ->) & ->)| ->]; simpl; auto. }
    split; [destruct Hw as [-> | ->]; auto|].
    split; [done|]. split; [destruct Hwa as [-> | ->]; auto|]. done.
  - intros (sch & www & host & watch & id & tail & -> & Hs & Hw & Hh & Hwa & Hl & He).
    exists (sch +:+ www +:+ host +:+ "/" +:+ watch +:+ id), tail.
    split; [|by rewrite !sapp_assoc].
    exists sch, (www +:+ host +:+ "/" +:+ watch +:+ id). split.
    { destruct Hs as [-> |[-> | ->]]; [by right|left..].
      - exists "http", "://". split; [done|]. split; [|done].
        exists EmptyString, "://". auto.
      - exists "http", "s://". split; [done|]. split; [|done].
        exists "s", "://". auto. }
    split; [|done].
    exists www, (host +:+ "/" +:+ watch +:+ id). split; [destruct Hw; auto|]. split; [|done].
    exists host, ("/" +:+ watch +:+ id). split; [done|]. split; [|done].
    exists "/", (watch +:+ id). split; [done|]. split; [|done].
    exists watch, id. split; [destruct Hwa; auto|]. done.
Qed.

(** X12: saving the video dialog embeds a video exactly when the editor
    is there and the URL starts as a YouTube address does: an optional
    [http://] or [https://], an optional [www.], [youtube.com] or
    [youtu.be], a slash, an optional [watch?v=] and eleven characters of
    letters, digits, [_] and [-]. What follows the id is not looked at. *)
Theorem video_embedded_iff_youtube_url setYoutubeVideo editor d :
  (exists v, snd (handleSaveVideo setYoutubeVideo editor d) = Some v) <->
  editor = true /\ is_youtube_url (videoUrl d).
Proof.
  rewrite <- youtubeRegex_accepts. unfold handleSaveVideo.
  destruct editor; simpl; [|split; [by intros [v [=]]|by intros [[=] _]]].
  destruct (String.eqb_spec (videoUrl d) EmptyString) as [E|E].
  - rewrite E. simpl. split; [by intros [v [=]]|]. intros [_ H]. by vm_compute in H.
  - destruct (test youtubeRegex (videoUrl d)); simpl.
    + split; [done|]. intros _. destruct (setYoutubeVideo _); eauto.
    + split; [by intros [v [=]]|by intros [_ [=]]].
Qed.

Lemma dimension_cases low fallback s :
  0 < low -> low <= fallback ->
  at_least low (dimension low fallback s) /\
  (parseInt s = NaN -> dimension low fallback s = Exact fallback) /\
  (forall n, parseInt s = Exact n -> dimension low fallback s = Exact (Z.max low n)) /\
  (parseInt s = Beyond true -> dimension low fallback s = Exact low) /\
  (parseInt s = Beyond false -> dimension low fallback s = Beyond false).
Proof.
  intros Hlow Hfb. unfold dimension.
  destruct (parseInt s) as [|n|[|]]; cbn [max_with or_fallback].
  - repeat split; try discriminate; try reflexivity. cbn. lia.
  - destruct (Z.eqb_spec (Z.max low n) 0); [lia|].
    repeat split; try discriminate; try reflexivity; [cbn; lia|by intros ? [= <-]].
  - destruct (Z.eqb_spec low 0); [lia|].
    repeat split; try discriminate; try reflexivity. cbn. lia.
  - repeat split; try discriminate; reflexivity.
Qed.

(** X6: a video is embedded only when the editor is there and the URL
    passes the pattern; its source is the URL as typed, its width is at
    least 320 and its height at least 180: a field that does not start
    with a number gives 640, respectively 480, a number gives the greater
    of itself and the lower bound. When the command returns, the dialog is
    closed and its URL emptied; when it throws, the dialog is left as it
    was. *)
Theorem saved_video_dimensions setYoutubeVideo editor d d' v :
  handleSaveVideo setYoutubeVideo editor d = (d', Some v) ->
  editor = true /\
  video_src v = videoUrl d /\ videoUrl d <> EmptyString /\
  test youtubeRegex (videoUrl d) = true /\
  at_least 320 (video_width v) /\ at_least 180 (video_height v) /\
  (parseInt (width d) = NaN -> video_width v = Exact 640) /\
  (parseInt (height d) = NaN -> video_height v = Exact 480) /\
  (forall n, parseInt (width d) = Exact n -> video_width v = Exact (Z.max 320 n)) /\
  (forall n, parseInt (height d) = Exact n -> video_height v = Exact (Z.max 180 n)) /\
  (setYoutubeVideo v <> None ->
   d' = {| isVideoDialogOpen := false; videoUrl := EmptyString;
           height := height d; width := width d; videoError := videoError d |}) /\
  (setYoutubeVideo v = None -> d' = d).
Proof.
  unfold handleSaveVideo. destruct editor; simpl; [|discriminate].
  destruct (String.eqb_spec (videoUrl d) EmptyString); [discriminate|].
  destruct (test youtubeRegex (videoUrl d)) eqn:Et; simpl; [|discriminate].
  destruct (dimension_cases 320 640 (width d)) as (? & ? & ? & _); [lia..|].
  destruct (dimension_cases 180 480 (height d)) as (? & ? & ? & _); [lia..|].
  destruct (setYoutubeVideo _) as [b|] eqn:Ec; intros [= <- <-]; cbn [video_src video_width video_height];
    rewrite Ec; repeat split; try done.
Qed.

Lemma saved_video_dimensions_witness :
  true = true /\
  "https://www.youtube.com/watch?v=dQw4w9WgXcQ" = videoUrl example_video_dialog /\
  videoUrl example_video_dialog <> EmptyString /\
  test youtubeRegex (videoUrl example_video_dialog) = true /\
  at_least 320 (Exact 320) /\ at_least 180 (Exact 240) /\
  (parseInt (width example_video_dialog) = NaN -> Exact 320 = Exact 640) /\
  (parseInt (height example_video_dialog) = NaN -> Exact 240 = Exact 480) /\
  (forall n, parseInt (width example_video_dialog) = Exact n ->
             Exact 320 = Exact (Z.max 320 n)) /\
  (forall n, parseInt (height example_video_dialog) = Exact n ->
             Exact 240 = Exact (Z.max 180 n)) /\
  (returning {| video_src := "https://www.youtube.com/watch?v=dQw4w9WgXcQ";
                video_width := Exact 320; video_height := Exact 240 |} <> None ->
   {| isVideoDialogOpen := false; videoUrl := EmptyString;
      height := "240"; width := "300"; videoError := None |} =
   {| isVideoDialogOpen := false; videoUrl := EmptyString;
      height := height example_video_dialog; width := width example_video_dialog;
      videoError := videoError example_video_dialog |}) /\
  (returning {| video_src := "https://www.youtube.com/watch?v=dQw4w9WgXcQ";
                video_width := Exact 320; video_height := Exact 240 |} = None ->
   {| isVideoDialogOpen := false; videoUrl := EmptyString;
      height := "240"; width := "300"; videoError := None |} = example_video_dialog).
Proof.
  apply (saved_video_dimensions returning true example_video_dialog
           {| isVideoDialogOpen := false; videoUrl := EmptyString;
              height := "240"; width := "300"; videoError := None |}
           {| video_src := "https://www.youtube.com/watch?v=dQw4w9WgXcQ";
              video_width := Exact 320; video_height := Exact 240 |}).
  vm_compute. reflexivity.
Defined.

(** X13: the dimensions the dialog opens with are not the ones used. A
    dialog that is opened, given a YouTube address and saved calls the
    command with width 320 and height 240: the width shown, 300, is below
    the minimum. The dialog is closed and its URL emptied when the command
    returns, and left open with the URL in it when the command throws. *)
Theorem opened_dialog_dimensions_are_clamped setYoutubeVideo d url :
  is_youtube_url url ->
  handleSaveVideo setYoutubeVideo true (changeVideoUrl (openVideoDialog d) url) =
    (match setYoutubeVideo {| video_src := url; video_width := Exact 320;
                              video_height := Exact 240 |} with
     | Some _ => {| isVideoDialogOpen := false; videoUrl := EmptyString;
                    height := "240"; width := "300"; videoError := None |}
     | None => {| isVideoDialogOpen := true; videoUrl := url;
                  height := "240"; width := "300"; videoError := None |}
     end,
     Some {| video_src := url; video_width := Exact 320; video_height := Exact 240 |}).
Proof.
  intros H. assert (Hne : url <> EmptyString).
  { intros ->. apply youtubeRegex_accepts in H. by vm_compute in H. }
  apply youtubeRegex_accepts in H. unfold handleSaveVideo. cbn [negb orb].
  cbn [changeVideoUrl openVideoDialog videoUrl height width isVideoDialogOpen videoError].
  destruct (String.eqb_spec url EmptyString); [done|]. rewrite H. cbn [negb].
  change (dimension 320 640 "300") with (Exact 320).
  change (dimension 180 480 "240") with (Exact 240).
  by destruct (setYoutubeVideo _).
Qed.

Lemma opened_dialog_dimensions_are_clamped_witness :
  handleSaveVideo throwing true
    (changeVideoUrl (openVideoDialog example_video_dialog) "youtu.be/dQw4w9WgXcQ?t=1") =
    ({| isVideoDialogOpen := true; videoUrl := "youtu.be/dQw4w9WgXcQ?t=1";
        height := "240"; width := "300"; videoError := None |},
     Some {| video_src := "youtu.be/dQw4w9WgXcQ?t=1";
             video_width := Exact 320; video_height := Exact 240 |}) /\
  handleSaveVideo returning true
    (changeVideoUrl (openVideoDialog example_video_dialog)
       "https://www.youtube.com/watch?v=dQw4w9WgXcQ") =
    ({| isVideoDialogOpen := false; videoUrl := EmptyString;
        height := "240"; width := "300"; videoError := None |},
     Some {| video_src := "https://www.youtube.com/watch?v=dQw4w9WgXcQ";
             video_width := Exact 320; video_height := Exact 240 |}).
Proof.
  split.
  - apply (opened_dialog_dimensions_are_clamped throwing example_video_dialog
             "youtu.be/dQw4w9WgXcQ?t=1").
    exists EmptyString, EmptyString, "youtu.be", EmptyString, "dQw4w9WgXcQ", "?t=1".
    repeat split; auto.
  - apply (opened_dialog_dimensions_are_clamped returning example_video_dialog
             "https://www.youtube.com/watch?v=dQw4w9WgXcQ").
    exists "https://", "www.", "youtube.com", "watch?v=", "dQw4w9WgXcQ", EmptyString.
    repeat split; auto.
Defined.

(** X14: a URL that is not empty and fails the pattern embeds nothing,
    sets the error and leaves the dialog open; the error is cleared only
    by editing the URL: it is still there after the dialog is cancelled
    and opened again. *)
Theorem video_error_outlives_the_dialog setYoutubeVideo d :
  videoUrl d <> EmptyString ->
  test youtubeRegex (videoUrl d) = false ->
  let failed := fst (handleSaveVideo setYoutubeVideo true d) in
  snd (handleSaveVideo setYoutubeVideo true d) = None /\
  videoError failed = Some videoUrlError /\
  isVideoDialogOpen failed = isVideoDialogOpen d /\
  videoError (openVideoDialog (handleCancelVideo failed)) = Some videoUrlError /\
  (forall v, videoError (changeVideoUrl failed v) = None).
Proof.
  intros Hne Ht. unfold handleSaveVideo. cbn [negb orb].
  destruct (String.eqb_spec (videoUrl d) EmptyString); [done|]. rewrite Ht. cbn.
  done.
Qed.

Lemma video_error_outlives_the_dialog_witness :
  snd (handleSaveVideo returning true
         (changeVideoUrl example_video_dialog "https://vimeo.com/1")) = None /\
  videoError (fst (handleSaveVideo returning true
                     (changeVideoUrl example_video_dialog "https://vimeo.com/1")))
    = Some videoUrlError /\
  isVideoDialogOpen
    (fst (handleSaveVideo returning true
            (changeVideoUrl example_video_dialog "https://vimeo.com/1")))
    = isVideoDialogOpen (changeVideoUrl example_video_dialog "https://vimeo.com/1") /\
  videoError
    (openVideoDialog
       (handleCancelVideo
          (fst (handleSaveVideo returning true
                  (changeVideoUrl example_video_dialog "https://vimeo.com/1")))))
    = Some videoUrlError /\
  (forall v,
     videoError
       (changeVideoUrl
          (fst (handleSaveVideo returning true
                  (changeVideoUrl example_video_dialog "https://vimeo.com/1"))) v) = None).
Proof.
  apply (video_error_outlives_the_dialog returning
           (changeVideoUrl example_video_dialog "https://vimeo.com/1")).
  - discriminate.
  - vm_compute. reflexivity.
Defined.
